(** * Planning-poker room server: shallow embedding and verified properties

    The development follows the WebSocket server of the repository
    (security utilities, room store, [getRoomState], the message and close
    handlers).  JavaScript strings are sequences of UTF-16 code units,
    [Map]s that are iterated are association lists in insertion order,
    [Map]s that are only looked up are [gmap]s, and the player objects that
    the global [players] map and every [room.players] map share live in an
    explicit heap of records addressed by reference. *)

From Stdlib Require Import ZArith NArith Ascii String.
From stdpp Require Import gmap list strings fin_maps.

Local Open Scope Z_scope.

(** ** JavaScript values and strings *)

(** A string is its sequence of UTF-16 code units. *)
Abbreviation jsstring := (list N).

(** Code units of an ASCII literal. *)
Definition js (s : string) : jsstring :=
  map N_of_ascii (list_ascii_of_string s).

(** Values that [JSON.parse] can put in a message field, plus [undefined]
    for a field that is missing. *)
Inductive jsval :=
  | JUndefined
  | JNull
  | JBool (b : bool)
  | JNum (n : Z)
  | JStr (s : jsstring)
  | JObject.

#[global] Instance jsval_eq_dec : EqDecision jsval.
Proof. solve_decision. Defined.

#[global] Instance jsval_inhabited : Inhabited jsval := populate JNull.

(** ** Security configuration *)

Definition RATE_LIMIT_WINDOW_MS : Z := 5000.
Definition RATE_LIMIT_MAX_MESSAGES : nat := 20.
Definition MAX_NAME_LENGTH : nat := 20.
Definition MAX_ROOMS : nat := 1000.
Definition MAX_PLAYERS_PER_ROOM : nat := 50.

(** ** Rate limiting *)

(** The fields the server keeps on a connection object. *)
Record WebSocket := mkWebSocket {
  messageTimestamps : option (list Z);
  isAlive : bool
}.

(** State of a connection right after the ['connection'] handler ran. *)
Definition new_connection : WebSocket :=
  {| messageTimestamps := Some []; isAlive := true |}.

Definition in_window (now t : Z) : bool := now - t <? RATE_LIMIT_WINDOW_MS.

(** [checkRateLimit(ws)], with [now] the reading of [Date.now()].  Returns
    the verdict and the connection with its updated timestamp list. *)
Definition checkRateLimit (now : Z) (ws : WebSocket) : bool * WebSocket :=
  let stamps := match messageTimestamps ws with
                | Some l => l
                | None => []
                end in
  let stamps := filter (λ t, in_window now t = true) stamps in
  if decide (RATE_LIMIT_MAX_MESSAGES ≤ length stamps)%nat
  then (false, {| messageTimestamps := Some stamps; isAlive := isAlive ws |})
  else (true, {| messageTimestamps := Some (stamps ++ [now]);
                 isAlive := isAlive ws |}).

(** ** Name sanitising *)

(** [String.prototype.trim] strips WhiteSpace and LineTerminator code
    units from both ends. *)
Definition is_js_space (c : N) : bool :=
  bool_decide (c ∈ [9; 10; 11; 12; 13; 32; 160; 5760; 8232; 8233; 8239;
                    8287; 12288; 65279]%N)
  || ((8192 <=? c) && (c <=? 8202))%N.

Fixpoint trim_start (s : jsstring) : jsstring :=
  match s with
  | [] => []
  | c :: s' => if is_js_space c then trim_start s' else s
  end.

Definition trim (s : jsstring) : jsstring :=
  reverse (trim_start (reverse (trim_start s))).

Definition LT : N := 60.
Definition GT : N := 62.

(** Backtracking matcher for the three pieces of the pattern [<[^>]*>]:
    each takes the rest of the input and a continuation for what follows
    in the pattern, and returns the input left after the whole match. *)
Definition re_char (c : N) (s : jsstring)
    (k : jsstring → option jsstring) : option jsstring :=
  match s with
  | x :: s' => if decide (x = c) then k s' else None
  | [] => None
  end.

(** Greedy [[^c]*]: take as many units as possible, give one back each
    time the continuation fails. *)
Fixpoint re_star_not (c : N) (s : jsstring)
    (k : jsstring → option jsstring) : option jsstring :=
  match s with
  | x :: s' =>
      if decide (x = c) then k s
      else match re_star_not c s' k with
           | Some r => Some r
           | None => k s
           end
  | [] => k []
  end.

(** One attempt to match [/<[^>]*>/] at the head of [s]. *)
Definition match_tag (s : jsstring) : option jsstring :=
  re_char LT s (λ s1, re_star_not GT s1 (λ s2, re_char GT s2 Some)).

(** [.replace(/<[^>]*>/g, '')]: scan from the left; where the pattern
    matches, drop the match and go on after it, otherwise keep the unit
    and advance by one.  The fuel bounds the number of scan positions. *)
Fixpoint replace_tags_from (fuel : nat) (s : jsstring) : jsstring :=
  match fuel with
  | O => s
  | S fuel' =>
      match s with
      | [] => []
      | c :: s' =>
          match match_tag s with
          | Some rest => replace_tags_from fuel' rest
          | None => c :: replace_tags_from fuel' s'
          end
      end
  end.

Definition replace_tags (s : jsstring) : jsstring :=
  replace_tags_from (length s) s.

(** The character class of the second [replace]: angle brackets, double
    quote, apostrophe, backtick, ampersand, semicolon, round, square and
    curly brackets (as code units, in the order of the source). *)
Definition dangerous_chars : list N :=
  [60; 62; 34; 39; 96; 38; 59; 40; 41; 91; 93; 123; 125]%N.

Definition is_dangerous (c : N) : bool := bool_decide (c ∈ dangerous_chars).

Definition replace_dangerous (s : jsstring) : jsstring :=
  filter (λ c, is_dangerous c = false) s.

(** [sanitizeName(name)]; [None] is the [null] result. *)
Definition sanitizeName (name : jsval) : option jsstring :=
  match name with
  | JStr [] => None
  | JStr s =>
      let sanitized :=
        take MAX_NAME_LENGTH (replace_dangerous (replace_tags (trim s))) in
      if decide (1 ≤ length sanitized)%nat then Some sanitized else None
  | _ => None
  end.

(** The same function as the specification words it: trim, remove the
    tag-like substrings, remove the dangerous characters, truncate, and
    reject an empty result.  Tag-like substrings are removed by a
    two-state scanner: outside a tag a [<] that is closed later opens one,
    inside a tag everything is dropped up to and including the next [>]. *)
Fixpoint strip_tags_spec (s : jsstring) : jsstring :=
  match s with
  | [] => []
  | c :: s' =>
      if decide (c = LT) then
        if bool_decide (GT ∈ s') then inside_tag_spec s'
        else c :: strip_tags_spec s'
      else c :: strip_tags_spec s'
  end
with inside_tag_spec (s : jsstring) : jsstring :=
  match s with
  | [] => []
  | c :: s' => if decide (c = GT) then strip_tags_spec s' else inside_tag_spec s'
  end.

Definition sanitize_pipeline_spec (s : jsstring) : jsstring :=
  take 20 (filter (λ c, c ∉ dangerous_chars) (strip_tags_spec (trim s))).

Definition sanitizeName_spec (name : jsval) : option jsstring :=
  match name with
  | JStr s =>
      match sanitize_pipeline_spec s with
      | [] => None
      | r => Some r
      end
  | _ => None
  end.

(** ** Card and room-code validation *)

(** ['0', '½', '1', '2', '3', '5', '8', '13', '21', '?', '☕'] *)
Definition CARD_VALUES : list jsstring :=
  [[48]; [189]; [49]; [50]; [51]; [53]; [56]; [49; 51]; [50; 49]; [63];
   [9749]]%N.

(** [Array.prototype.includes] on an array of strings: only a string can
    be found. *)
Definition includes (l : list jsstring) (v : jsval) : bool :=
  match v with
  | JStr s => bool_decide (s ∈ l)
  | _ => false
  end.

Definition isValidCard (card : jsval) : bool :=
  match card with
  | JNull => true
  | _ => includes CARD_VALUES card
  end.

Definition is_upper_or_digit (c : N) : bool :=
  ((65 <=? c) && (c <=? 90) || (48 <=? c) && (c <=? 57))%N.

(** [/^[A-Z0-9]{4}$/.test(s)] *)
Definition test_room_code (s : jsstring) : bool :=
  bool_decide (length s = 4%nat) && forallb is_upper_or_digit s.

(** [isValidRoomCode(code)]; [upper] is the engine's
    [String.prototype.toUpperCase]. *)
Definition isValidRoomCode (upper : jsstring → jsstring) (code : jsval) : bool :=
  match code with
  | JStr [] => false
  | JStr s => test_room_code (upper s)
  | _ => false
  end.

(** ** Game state storage *)

Inductive room_state := waiting | voting | revealed.

#[global] Instance room_state_eq_dec : EqDecision room_state.
Proof. solve_decision. Defined.

Module Player.
Record t := mk {
  id : jsstring;
  name : jsstring;
  isHost : bool;
  selectedCard : jsval;
  roomCode : jsstring;
  sessionToken : jsstring
}.
Definition set_isHost (b : bool) (p : t) : t :=
  mk (id p) (name p) b (selectedCard p) (roomCode p) (sessionToken p).
Definition set_selectedCard (c : jsval) (p : t) : t :=
  mk (id p) (name p) (isHost p) c (roomCode p) (sessionToken p).
End Player.

#[global] Instance player_inhabited : Inhabited Player.t :=
  populate (Player.mk [] [] false JNull [] []).

(** A connection is identified by a number; a player object by its
    address in the heap. *)
Abbreviation conn := nat.
Abbreviation ref := nat.

Module Room.
(** [players] is a [Map] from connection to player object, kept in
    insertion order. *)
Record t := mk {
  state : room_state;
  players : list (conn * ref);
  createdAt : Z
}.
Definition set_state (s : room_state) (r : t) : t :=
  mk s (players r) (createdAt r).
Definition set_players (ps : list (conn * ref)) (r : t) : t :=
  mk (state r) ps (createdAt r).
End Room.

Module Session.
Record t := mk {
  playerId : jsstring;
  roomCode : jsstring;
  name : jsstring;
  createdAt : Z
}.
End Session.

(** [Map.prototype.set] on an insertion-ordered map: an existing key keeps
    its position and gets the new value, a new key goes to the end. *)
Fixpoint entries_set {V} (k : conn) (v : V) (l : list (conn * V))
    : list (conn * V) :=
  match l with
  | [] => [(k, v)]
  | (k', v') :: l' =>
      if decide (k' = k) then (k, v) :: l' else (k', v') :: entries_set k v l'
  end.

(** [Map.prototype.delete] *)
Definition entries_delete {V} (k : conn) (l : list (conn * V))
    : list (conn * V) :=
  filter (λ e, e.1 ≠ k) l.

(** The module-level state of the server: the three global maps and the
    heap holding the player objects they refer to. *)
Record Server := mkServer {
  rooms : gmap jsstring Room.t;
  players : gmap conn ref;
  sessionTokens : gmap jsstring Session.t;
  heap : list Player.t
}.

Definition initial_server : Server := mkServer ∅ ∅ ∅ [].

Definition deref (h : list Player.t) (r : ref) : Player.t := h !!! r.

(** A new object is placed at the end of the heap. *)
Definition alloc (p : Player.t) (h : list Player.t) : ref * list Player.t :=
  (length h, h ++ [p]).

(** [rooms.get(code)] for a key that may be any value: only strings are
    ever keys of [rooms]. *)
Definition rooms_get (rs : gmap jsstring Room.t) (code : jsval)
    : option Room.t :=
  match code with
  | JStr s => rs !! s
  | _ => None
  end.

(** ** Room codes *)

Definition chars : jsstring := js "ABCDEFGHJKLMNPQRSTUVWXYZ23456789".

(** The loop body [code += chars[i]]; an index outside the string reads
    [undefined], which [+=] spells out. *)
Definition append_char (code : jsstring) (i : nat) : jsstring :=
  match chars !! i with
  | Some c => code ++ [c]
  | None => code ++ js "undefined"
  end.

(** The [for] loop of [generateRoomCode] with [n] iterations left.  Each
    element of [draws] is one value of
    [Math.floor(Math.random() * chars.length)]; the result is the code and
    the draws left over, or [None] when the draws run out. *)
Fixpoint draw_code (n : nat) (code : jsstring) (draws : list nat)
    : option (jsstring * list nat) :=
  match n with
  | O => Some (code, draws)
  | S n' =>
      match draws with
      | [] => None
      | i :: draws' => draw_code n' (append_char code i) draws'
      end
  end.

(** [generateRoomCode()], bounded by [fuel] recursive calls. *)
Fixpoint generateRoomCode_fuel (fuel : nat) (rs : gmap jsstring Room.t)
    (draws : list nat) : option jsstring :=
  match fuel with
  | O => None
  | S fuel' =>
      match draw_code 4 [] draws with
      | None => None
      | Some (code, draws') =>
          if decide (is_Some (rs !! code))
          then generateRoomCode_fuel fuel' rs draws'
          else Some code
      end
  end.

(** Every call consumes four draws, so [S (length draws)] calls are never
    exhausted before the draws are: [None] means that the random source
    [draws] ended before a free code came up. *)
Definition generateRoomCode (rs : gmap jsstring Room.t) (draws : list nat)
    : option jsstring :=
  generateRoomCode_fuel (S (length draws)) rs draws.

(** ** Messages *)

Module PlayerView.
(** One element of [roomState.players]. *)
Record t := mk {
  id : jsstring;
  name : jsstring;
  isHost : bool;
  hasSelected : bool;
  card : jsval
}.
End PlayerView.

Module RoomSnapshot.
(** What [getRoomState] returns for an existing room. *)
Record t := mk {
  roomCode : jsstring;
  state : room_state;
  players : list PlayerView.t;
  cardValues : list jsstring
}.
End RoomSnapshot.

Module RevealEntry.
Record t := mk { id : jsstring; name : jsstring; card : jsval }.
End RevealEntry.

(** Server-to-client messages, by their [type] field.  [roomState] is
    [None] where [getRoomState] returned [null]. *)
Inductive out_msg :=
  | error (message : string)
  | room_created (roomCode playerId sessionToken : jsstring)
      (roomState : option RoomSnapshot.t)
  | joined_room (roomCode playerId sessionToken : jsstring)
      (roomState : option RoomSnapshot.t)
  | player_joined (id name : jsstring) (hasSelected : bool)
      (roomState : option RoomSnapshot.t)
  | round_started (roomState : option RoomSnapshot.t)
  | player_selected (playerId : jsstring) (roomState : option RoomSnapshot.t)
  | cards_revealed (revealOrder : list RevealEntry.t)
      (roomState : option RoomSnapshot.t)
  | round_reset (roomState : option RoomSnapshot.t)
  | reveal_closed
  | became_host
  | player_left (playerId : jsstring) (roomState : option RoomSnapshot.t).

(** The only effect of the handlers besides updating the state:
    [to.send(JSON.stringify(msg))]. *)
Inductive effect := Send (to : conn) (msg : out_msg).

(** The value of the [type] field, as far as the [switch] tells values
    apart. *)
Inductive msg_type :=
  | create_room | join_room | start_round | select_card | reveal_cards
  | reset_round | close_reveal | other_type.

#[global] Instance msg_type_eq_dec : EqDecision msg_type.
Proof. solve_decision. Defined.

Module Message.
(** A parsed inbound message; a field the client left out is
    [JUndefined]. *)
Record t := mk {
  type : msg_type;
  name : jsval;
  roomCode : jsval;
  card : jsval
}.
End Message.

(** What the handlers read from outside the server state while they
    handle one event. *)
Record Env := mkEnv {
  draws : list nat;            (* Math.floor(Math.random() * chars.length) *)
  uuid : jsstring;             (* uuidv4() *)
  token : jsstring;            (* generateSessionToken() *)
  now_room : Z;                (* Date.now() for the room's createdAt *)
  now_session : Z;             (* Date.now() for the session's createdAt *)
  readyState : conn → nat;     (* ws.readyState of every connection *)
  toUpperCase : jsstring → jsstring  (* String.prototype.toUpperCase *)
}.

(** ** Snapshots and broadcast *)

Definition player_view (includeVotes : bool) (room : Room.t) (p : Player.t)
    : PlayerView.t :=
  {| PlayerView.id := Player.id p;
     PlayerView.name := Player.name p;
     PlayerView.isHost := Player.isHost p;
     PlayerView.hasSelected := bool_decide (Player.selectedCard p ≠ JNull);
     PlayerView.card :=
       if includeVotes || bool_decide (Room.state room = revealed)
       then Player.selectedCard p else JNull |}.

(** [getRoomState(roomCode, includeVotes)] *)
Definition getRoomState (S : Server) (roomCode : jsstring)
    (includeVotes : bool) : option RoomSnapshot.t :=
  match rooms S !! roomCode with
  | None => None
  | Some room =>
      let playersList :=
        map (λ e, player_view includeVotes room (deref (heap S) e.2))
            (Room.players room) in
      Some {| RoomSnapshot.roomCode := roomCode;
              RoomSnapshot.state := Room.state room;
              RoomSnapshot.players := playersList;
              RoomSnapshot.cardValues := CARD_VALUES |}
  end.

(** [broadcastToRoom(roomCode, message, excludeWs)] *)
Definition broadcastToRoom (env : Env) (S : Server) (roomCode : jsstring)
    (message : out_msg) (excludeWs : option conn) : list effect :=
  match rooms S !! roomCode with
  | None => []
  | Some room =>
      omap (λ e : conn * ref,
              if bool_decide (Some e.1 ≠ excludeWs)
                 && bool_decide (readyState env e.1 = 1%nat)
              then Some (Send e.1 message) else None)
           (Room.players room)
  end.

(** [room.players.forEach(p => p.selectedCard = null)] *)
Definition clear_votes (ps : list (conn * ref)) (h : list Player.t)
    : list Player.t :=
  foldl (λ h e, <[e.2 := Player.set_selectedCard JNull (deref h e.2)]> h) h ps.

(** The reveal order built by the [forEach] of [reveal_cards]. *)
Definition reveal_order (ps : list (conn * ref)) (h : list Player.t)
    : list RevealEntry.t :=
  map (λ e, let p := deref h e.2 in
            RevealEntry.mk (Player.id p) (Player.name p)
                           (Player.selectedCard p)) ps.

(** ** The message handler *)

(** How a call of [handleMessage] ends: by returning, or by a [TypeError]
    that the caller's [try]/[catch] turns into an error reply. *)
Inductive completion := Returned | Threw.

(** Result of one handler run; [None] only when [generateRoomCode] ran
    out of random draws. *)
Abbreviation outcome := (option (completion * Server * list effect)).

Definition reply (S : Server) (ws : conn) (text : string) : outcome :=
  Some (Returned, S, [Send ws (error text)]).

Definition ignore (S : Server) : outcome := Some (Returned, S, []).

(** [v?.toUpperCase()]: [undefined] for a nullish [v], a [TypeError]
    ([None]) for a value without that method. *)
Definition optional_toUpperCase (env : Env) (v : jsval) : option jsval :=
  match v with
  | JUndefined | JNull => Some JUndefined
  | JStr s => Some (JStr (toUpperCase env s))
  | _ => None
  end.

Definition case_create_room (env : Env) (ws : conn) (message : Message.t)
    (S : Server) : outcome :=
  if decide (MAX_ROOMS ≤ size (rooms S))%nat then
    reply S ws "Server is at capacity. Please try again later."
  else
    match sanitizeName (Message.name message) with
    | None => reply S ws "Valid name is required (1-20 characters)"
    | Some name =>
        match generateRoomCode (rooms S) (draws env) with
        | None => None
        | Some roomCode =>
            let playerId := uuid env in
            let sessionToken := token env in
            let '(player, h) :=
              alloc (Player.mk playerId name true JNull roomCode sessionToken)
                    (heap S) in
            let S1 :=
              {| rooms := <[roomCode :=
                            Room.mk waiting [(ws, player)] (now_room env)]>
                          (rooms S);
                 players := <[ws := player]> (players S);
                 sessionTokens :=
                   <[sessionToken :=
                     Session.mk playerId roomCode name (now_session env)]>
                   (sessionTokens S);
                 heap := h |} in
            Some (Returned, S1,
                  [Send ws (room_created roomCode playerId sessionToken
                              (getRoomState S1 roomCode false))])
        end
    end.

Definition case_join_room (env : Env) (ws : conn) (message : Message.t)
    (S : Server) : outcome :=
  match optional_toUpperCase env (Message.roomCode message) with
  | None => Some (Threw, S, [])
  | Some code =>
      if negb (isValidRoomCode (toUpperCase env) code) then
        reply S ws "Invalid room code format"
      else
        match code, rooms_get (rooms S) code with
        | JStr roomCode, Some room =>
            if decide (MAX_PLAYERS_PER_ROOM ≤ length (Room.players room))%nat
            then reply S ws "Room is full"
            else
              match sanitizeName (Message.name message) with
              | None => reply S ws "Valid name is required (1-20 characters)"
              | Some name =>
                  let playerId := uuid env in
                  let sessionToken := token env in
                  let '(player, h) :=
                    alloc (Player.mk playerId name false JNull roomCode
                                     sessionToken) (heap S) in
                  let room1 :=
                    Room.set_players
                      (entries_set ws player (Room.players room)) room in
                  let S1 :=
                    {| rooms := <[roomCode := room1]> (rooms S);
                       players := <[ws := player]> (players S);
                       sessionTokens :=
                         <[sessionToken :=
                           Session.mk playerId roomCode name
                                      (now_session env)]>
                         (sessionTokens S);
                       heap := h |} in
                  Some (Returned, S1,
                        Send ws (joined_room roomCode playerId sessionToken
                                   (getRoomState S1 roomCode false))
                        :: broadcastToRoom env S1 roomCode
                             (player_joined playerId name false
                                (getRoomState S1 roomCode false))
                             (Some ws))
              end
        | _, _ => reply S ws "Room not found"
        end
  end.

Definition case_start_round (env : Env) (ws : conn) (S : Server) : outcome :=
  match players S !! ws with
  | None => ignore S
  | Some r =>
      let player := deref (heap S) r in
      if negb (Player.isHost player) then ignore S
      else
        match rooms S !! Player.roomCode player with
        | None => ignore S
        | Some room =>
            let S1 :=
              {| rooms := <[Player.roomCode player :=
                            Room.set_state voting room]> (rooms S);
                 players := players S;
                 sessionTokens := sessionTokens S;
                 heap := clear_votes (Room.players room) (heap S) |} in
            Some (Returned, S1,
                  broadcastToRoom env S1 (Player.roomCode player)
                    (round_started
                       (getRoomState S1 (Player.roomCode player) false))
                    None)
        end
  end.

Definition case_select_card (env : Env) (ws : conn) (message : Message.t)
    (S : Server) : outcome :=
  match players S !! ws with
  | None => ignore S
  | Some r =>
      let player := deref (heap S) r in
      match rooms S !! Player.roomCode player with
      | None => ignore S
      | Some room =>
          if negb (bool_decide (Room.state room = voting)) then ignore S
          else if negb (isValidCard (Message.card message)) then
            reply S ws "Invalid card value"
          else
            let S1 :=
              {| rooms := rooms S;
                 players := players S;
                 sessionTokens := sessionTokens S;
                 heap := <[r := Player.set_selectedCard
                                   (Message.card message) player]> (heap S) |}
            in
            Some (Returned, S1,
                  broadcastToRoom env S1 (Player.roomCode player)
                    (player_selected (Player.id player)
                       (getRoomState S1 (Player.roomCode player) false))
                    None)
      end
  end.

Definition case_reveal_cards (env : Env) (ws : conn) (S : Server) : outcome :=
  match players S !! ws with
  | None => ignore S
  | Some r =>
      let player := deref (heap S) r in
      if negb (Player.isHost player) then ignore S
      else
        match rooms S !! Player.roomCode player with
        | None => ignore S
        | Some room =>
            let S1 :=
              {| rooms := <[Player.roomCode player :=
                            Room.set_state revealed room]> (rooms S);
                 players := players S;
                 sessionTokens := sessionTokens S;
                 heap := heap S |} in
            let revealOrder := reveal_order (Room.players room) (heap S) in
            Some (Returned, S1,
                  broadcastToRoom env S1 (Player.roomCode player)
                    (cards_revealed revealOrder
                       (getRoomState S1 (Player.roomCode player) true))
                    None)
        end
  end.

Definition case_reset_round (env : Env) (ws : conn) (S : Server) : outcome :=
  match players S !! ws with
  | None => ignore S
  | Some r =>
      let player := deref (heap S) r in
      if negb (Player.isHost player) then ignore S
      else
        match rooms S !! Player.roomCode player with
        | None => ignore S
        | Some room =>
            let S1 :=
              {| rooms := <[Player.roomCode player :=
                            Room.set_state waiting room]> (rooms S);
                 players := players S;
                 sessionTokens := sessionTokens S;
                 heap := clear_votes (Room.players room) (heap S) |} in
            Some (Returned, S1,
                  broadcastToRoom env S1 (Player.roomCode player)
                    (round_reset
                       (getRoomState S1 (Player.roomCode player) false))
                    None)
        end
  end.

Definition case_close_reveal (env : Env) (ws : conn) (S : Server) : outcome :=
  match players S !! ws with
  | None => ignore S
  | Some r =>
      let player := deref (heap S) r in
      if negb (Player.isHost player) then ignore S
      else
        Some (Returned, S,
              broadcastToRoom env S (Player.roomCode player) reveal_closed
                              None)
  end.

(** [handleMessage(ws, message)] *)
Definition handleMessage (env : Env) (ws : conn) (message : Message.t)
    (S : Server) : outcome :=
  match Message.type message with
  | create_room => case_create_room env ws message S
  | join_room => case_join_room env ws message S
  | start_round => case_start_round env ws S
  | select_card => case_select_card env ws message S
  | reveal_cards => case_reveal_cards env ws S
  | reset_round => case_reset_round env ws S
  | close_reveal => case_close_reveal env ws S
  | other_type => ignore S
  end.

(** ** The connection handlers *)

(** What arrives on a connection: text that [JSON.parse] rejects, the
    JSON literal [null] (reading its [type] throws), or a message. *)
Inductive payload :=
  | Unparseable
  | ParsedNull
  | Parsed (message : Message.t).

(** The [try] block of the ['message'] handler: parse, dispatch, and
    answer a thrown exception with an error reply. *)
Definition parse_and_handle (env : Env) (ws : conn) (sock : WebSocket)
    (data : payload) (S : Server)
    : option (WebSocket * Server * list effect) :=
  match data with
  | Unparseable | ParsedNull =>
      Some (sock, S, [Send ws (error "Invalid message format")])
  | Parsed message =>
      match handleMessage env ws message S with
      | None => None
      | Some (Returned, S1, out) => Some (sock, S1, out)
      | Some (Threw, S1, out) =>
          Some (sock, S1, out ++ [Send ws (error "Invalid message format")])
      end
  end.

(** The ['message'] handler of connection [ws] whose fields are [sock];
    [now] is the reading of [Date.now()] in [checkRateLimit]. *)
Definition on_message (env : Env) (now : Z) (ws : conn) (sock : WebSocket)
    (data : payload) (S : Server)
    : option (WebSocket * Server * list effect) :=
  let '(allowed, sock1) := checkRateLimit now sock in
  if negb allowed then
    Some (sock1, S,
          [Send ws (error "Rate limit exceeded. Please slow down.")])
  else parse_and_handle env ws sock1 data S.

(** The ['close'] handler of connection [ws]. *)
Definition on_close (env : Env) (ws : conn) (S : Server)
    : Server * list effect :=
  match players S !! ws with
  | None => (S, [])
  | Some r =>
      let player := deref (heap S) r in
      let '(S2, out) :=
        match rooms S !! Player.roomCode player with
        | None => (S, [])
        | Some room =>
            let remaining := entries_delete ws (Room.players room) in
            let room1 := Room.set_players remaining room in
            let '(h, handover) :=
              match remaining with
              | (newHostWs, newHost) :: _ =>
                  if Player.isHost player then
                    (<[newHost := Player.set_isHost true
                                    (deref (heap S) newHost)]> (heap S),
                     [Send newHostWs became_host])
                  else (heap S, [])
              | [] => (heap S, [])
              end in
            if decide (length remaining = 0%nat) then
              ({| rooms := delete (Player.roomCode player) (rooms S);
                  players := players S;
                  sessionTokens := sessionTokens S;
                  heap := h |}, handover)
            else
              let S1 :=
                {| rooms := <[Player.roomCode player := room1]> (rooms S);
                   players := players S;
                   sessionTokens := sessionTokens S;
                   heap := h |} in
              (S1, handover ++
                   broadcastToRoom env S1 (Player.roomCode player)
                     (player_left (Player.id player)
                        (getRoomState S1 (Player.roomCode player) false))
                     None)
        end in
      ({| rooms := rooms S2;
          players := delete ws (players S2);
          sessionTokens := sessionTokens S2;
          heap := heap S2 |}, out)
  end.

(** One event of the server as a whole. *)
Inductive event :=
  | EvMessage (env : Env) (ws : conn) (message : Message.t)
  | EvClose (env : Env) (ws : conn).

Definition step (S : Server) (e : event) : option (Server * list effect) :=
  match e with
  | EvMessage env ws message =>
      match handleMessage env ws message S with
      | Some (_, S1, out) => Some (S1, out)
      | None => None
      end
  | EvClose env ws => Some (on_close env ws S)
  end.

(** Runs a list of events from [S], collecting what is sent. *)
Fixpoint run (S : Server) (es : list event) : option (Server * list effect) :=
  match es with
  | [] => Some (S, [])
  | e :: es' =>
      match step S e with
      | None => None
      | Some (S1, out1) =>
          match run S1 es' with
          | None => None
          | Some (S2, out2) => Some (S2, out1 ++ out2)
          end
      end
  end.

(** States the server can be in: those some run from the empty server
    ends in. *)
Definition reachable (S : Server) : Prop :=
  ∃ es out, run initial_server es = Some (S, out).

(** ** Auxiliary notions used in the statements *)

(** The timestamps recorded on a connection. *)
Definition recorded (ws : WebSocket) : list Z :=
  match messageTimestamps ws with
  | Some l => l
  | None => []
  end.

(** How many recorded timestamps lie in the trailing window at [now]. *)
Definition count_in_window (now : Z) (ws : WebSocket) : nat :=
  length (filter (λ t, now - t < RATE_LIMIT_WINDOW_MS) (recorded ws)).

(** The verdicts of [checkRateLimit] for messages arriving at the given
    times, one after the other, on one connection. *)
Fixpoint rate_limit_run (ws : WebSocket) (times : list Z)
    : list bool * WebSocket :=
  match times with
  | [] => ([], ws)
  | now :: rest =>
      let '(ok, ws1) := checkRateLimit now ws in
      let '(oks, ws2) := rate_limit_run ws1 rest in
      (ok :: oks, ws2)
  end.

Definition rate_limit_reply (ws : conn) : effect :=
  Send ws (error "Rate limit exceeded. Please slow down.").

(** The input left after the first [>] of [s], if there is one. *)
Fixpoint after_first_gt (s : jsstring) : option jsstring :=
  match s with
  | [] => None
  | c :: s' => if decide (c = GT) then Some s' else after_first_gt s'
  end.

(** [s] has [t] as a contiguous substring. *)
Definition contains (t s : jsstring) : Prop := ∃ a b, s = a ++ t ++ b.

(** A block of draws that [generateRoomCode] turns into [code] in one
    pass of its loop. *)
Definition spells (block : list nat) (code : jsstring) : Prop :=
  draw_code 4 [] block = Some (code, []).

(** The values [Math.floor(Math.random() * chars.length)] can take. *)
Definition valid_draws (ds : list nat) : Prop :=
  Forall (λ i, (i < length chars)%nat) ds.

(** The code units that can occur in a generated room code. *)
Definition producible (c : N) : Prop :=
  ∃ rs ds code,
    valid_draws ds ∧ generateRoomCode rs ds = Some code ∧ c ∈ code.

(** The [roomState] field of a message, where it has one. *)
Definition snapshot_of (m : out_msg) : option RoomSnapshot.t :=
  match m with
  | room_created _ _ _ s | joined_room _ _ _ s | player_joined _ _ _ s
  | round_started s | player_selected _ s | cards_revealed _ s
  | round_reset s | player_left _ s => s
  | error _ | reveal_closed | became_host => None
  end.

(** Every [card] field of the snapshot is [null]. *)
Definition cards_hidden (snap : RoomSnapshot.t) : Prop :=
  Forall (λ v, PlayerView.card v = JNull) (RoomSnapshot.players snap).

(** The event is a [reveal_cards] message from the host of room [code]. *)
Definition reveals (S : Server) (e : event) (code : jsstring) : Prop :=
  match e with
  | EvMessage env ws message =>
      Message.type message = reveal_cards
      ∧ ∃ r, players S !! ws = Some r
             ∧ Player.isHost (deref (heap S) r) = true
             ∧ Player.roomCode (deref (heap S) r) = code
  | EvClose _ _ => False
  end.

(** What a delivered message can tell about the cards: its snapshot shows
    the state the room has after the handler and hides every card unless
    that state is [revealed]; a [cards_revealed] message comes only from
    the host's [reveal_cards]. *)
Definition sent_ok (S : Server) (e : event) (S1 : Server) (m : out_msg)
    : Prop :=
  (∀ snap, snapshot_of m = Some snap →
     (∃ room1, rooms S1 !! RoomSnapshot.roomCode snap = Some room1
               ∧ RoomSnapshot.state snap = Room.state room1)
     ∧ (RoomSnapshot.state snap ≠ revealed → cards_hidden snap))
  ∧ match m with
    | cards_revealed _ s =>
        ∃ snap, s = Some snap ∧ reveals S e (RoomSnapshot.roomCode snap)
    | _ => True
    end.

(** The message gives away no card of room [code]: it is not that
    room's [cards_revealed], and if it carries a snapshot of the room,
    every card in it is hidden. *)
Definition keeps_secret (code : jsstring) (m : out_msg) : Prop :=
  match m with
  | cards_revealed _ s =>
      ∃ snap, s = Some snap ∧ RoomSnapshot.roomCode snap ≠ code
  | _ =>
      ∀ snap, snapshot_of m = Some snap →
              RoomSnapshot.roomCode snap = code → cards_hidden snap
  end.

(** No event of the run from [S] is a [reveal_cards] of the host of room
    [code]. *)
Fixpoint never_reveals (code : jsstring) (S : Server) (es : list event)
    : Prop :=
  match es with
  | [] => True
  | e :: es' =>
      ¬ reveals S e code
      ∧ match step S e with
        | Some (S1, _) => never_reveals code S1 es'
        | None => True
        end
  end.

(** Connection [ws] belongs to the player who is host of room [code]. *)
Definition host_of (S : Server) (ws : conn) (code : jsstring) : Prop :=
  ∃ r, players S !! ws = Some r
       ∧ Player.isHost (deref (heap S) r) = true
       ∧ Player.roomCode (deref (heap S) r) = code.

(** Connection [ws] belongs to a player of the live room [room]. *)
Definition player_in (S : Server) (ws : conn) (r : ref) (room : Room.t)
    : Prop :=
  players S !! ws = Some r
  ∧ rooms S !! Player.roomCode (deref (heap S) r) = Some room.

(** The server after an accepted [select_card] of the player at [r]:
    only that player's object changes. *)
Definition with_card (S : Server) (r : ref) (card : jsval) : Server :=
  {| rooms := rooms S;
     players := players S;
     sessionTokens := sessionTokens S;
     heap := <[r := Player.set_selectedCard card (deref (heap S) r)]>
             (heap S) |}.

(** How many players of the room have [isHost = true]. *)
Definition host_count (S : Server) (room : Room.t) : nat :=
  length (filter (λ e, Player.isHost (deref (heap S) e.2) = true)
                 (Room.players room)).

(** The single-host invariant: every room with players has exactly one
    host. *)
Definition single_host (S : Server) : Prop :=
  ∀ code room,
    rooms S !! code = Some room → Room.players room ≠ [] →
    host_count S room = 1%nat.

(** The two tables of the server agree with each other: a connection
    registered in [players] is a member of the room its player object
    names, every member of a room is registered under its connection with
    the very object the room holds, no room holds an object twice, no room
    is empty, and every room has exactly one host. *)
Record consistent (S : Server) : Prop := {
  players_in_room :
    ∀ ws r, players S !! ws = Some r →
      (r < length (heap S))%nat
      ∧ ∃ room, rooms S !! Player.roomCode (deref (heap S) r) = Some room
                ∧ (ws, r) ∈ Room.players room;
  members_registered :
    ∀ code room ws r,
      rooms S !! code = Some room → (ws, r) ∈ Room.players room →
      players S !! ws = Some r
      ∧ Player.roomCode (deref (heap S) r) = code;
  members_NoDup :
    ∀ code room, rooms S !! code = Some room → NoDup (Room.players room).*2;
  rooms_nonempty :
    ∀ code room, rooms S !! code = Some room → Room.players room ≠ [];
  one_host : single_host S
}.

(** A [create_room] or [join_room] comes from a connection that is not a
    player yet, as the client sends them: from the lobby only. *)
Definition first_join (S : Server) (e : event) : Prop :=
  match e with
  | EvMessage _ ws message =>
      Message.type message = create_room ∨ Message.type message = join_room →
      players S !! ws = None
  | EvClose _ _ => True
  end.

(** Every event of the run from [S] satisfies [first_join]. *)
Fixpoint joins_once (S : Server) (es : list event) : Prop :=
  match es with
  | [] => True
  | e :: es' =>
      first_join S e
      ∧ match step S e with
        | Some (S1, _) => joins_once S1 es'
        | None => True
        end
  end.

(** Two heaps with the same objects up to their [selectedCard]s. *)
Definition same_identity (h h' : list Player.t) : Prop :=
  length h' = length h
  ∧ ∀ r, Player.isHost (deref h' r) = Player.isHost (deref h r)
         ∧ Player.roomCode (deref h' r) = Player.roomCode (deref h r).

(** ** A small session used in the examples

    Ann (connection 0) creates room AAAA, Bob (connection 1) joins it, Ann
    starts a round and Bob selects the card 5. *)

(** [toUpperCase] on ASCII text. *)
Definition ascii_upper (s : jsstring) : jsstring :=
  map (λ c, if ((97 <=? c) && (c <=? 122))%N then (c - 32)%N else c) s.

Definition env_of (ds : list nat) (id tok : string) : Env :=
  mkEnv ds (js id) (js tok) 0 0 (λ _, 1%nat) ascii_upper.

Definition msg (t : msg_type) : Message.t :=
  Message.mk t JUndefined JUndefined JUndefined.
Definition msg_create (name : string) : Message.t :=
  Message.mk create_room (JStr (js name)) JUndefined JUndefined.
Definition msg_join (name code : string) : Message.t :=
  Message.mk join_room (JStr (js name)) (JStr (js code)) JUndefined.
Definition msg_select (card : jsval) : Message.t :=
  Message.mk select_card JUndefined JUndefined card.

Definition ann : Player.t :=
  Player.mk (js "id-ann") (js "Ann") true JNull (js "AAAA") (js "tok-ann").
Definition bob : Player.t :=
  Player.mk (js "id-bob") (js "Bob") false JNull (js "AAAA") (js "tok-bob").

Definition ann_bob (st : room_state) (bobs_card : jsval) : Server :=
  {| rooms := {[ js "AAAA" := Room.mk st [(0, 0); (1, 1)]%nat 0 ]};
     players := {[ 0%nat := 0%nat; 1%nat := 1%nat ]};
     sessionTokens :=
       {[ js "tok-ann" := Session.mk (js "id-ann") (js "AAAA") (js "Ann") 0;
          js "tok-bob" := Session.mk (js "id-bob") (js "AAAA") (js "Bob") 0 ]};
     heap := [ann; Player.set_selectedCard bobs_card bob] |}.

Definition session_to_voting : list event :=
  [EvMessage (env_of [0; 0; 0; 0]%nat "id-ann" "tok-ann") 0%nat
             (msg_create "Ann");
   EvMessage (env_of [] "id-bob" "tok-bob") 1%nat (msg_join "Bob" "aaaa");
   EvMessage (env_of [] "-" "-") 0%nat (msg start_round)].

(** Ann creates room AAAA and then, on the same connection, joins it. *)
Definition ann_creates : event :=
  EvMessage (env_of [0; 0; 0; 0]%nat "id-ann" "tok-ann") 0%nat
            (msg_create "Ann").
Definition ann_rejoins : event :=
  EvMessage (env_of [] "id-ann2" "tok-ann2") 0%nat (msg_join "Ann" "AAAA").

Definition bob_selects_5 : event :=
  EvMessage (env_of [] "-" "-") 1%nat (msg_select (JStr (js "5"))).

(** ** Session expiry *)

Definition SESSION_TOKEN_EXPIRY_MS : Z := 30 * 60 * 1000.

(** [cleanupExpiredSessions()], with [now] the reading of [Date.now()]:
    every entry older than the expiry time is deleted from
    [sessionTokens]. *)
Definition cleanupExpiredSessions (now : Z) (S : Server) : Server :=
  {| rooms := rooms S;
     players := players S;
     sessionTokens :=
       filter (λ kv, ¬ (now - Session.createdAt kv.2 > SESSION_TOKEN_EXPIRY_MS))
              (sessionTokens S);
     heap := heap S |}.

(** What every reachable state satisfies, whatever the clients send: the
    members of a room are valid player objects made for that room, no
    room holds an object twice, a registered connection is a member of
    the room its player names, rooms have between 1 and 50 members, there
    are at most 1000 rooms, no room has two hosts, nobody in a [waiting]
    room has a card selected, and every stored card is [null] or one of
    the card values. *)
Record sound (S : Server) : Prop := {
  entries_valid :
    ∀ code room ws r,
      rooms S !! code = Some room → (ws, r) ∈ Room.players room →
      (r < length (heap S))%nat
      ∧ Player.roomCode (deref (heap S) r) = code;
  entries_NoDup :
    ∀ code room, rooms S !! code = Some room → NoDup (Room.players room).*2;
  registered_member :
    ∀ ws r, players S !! ws = Some r →
      ∃ room, rooms S !! Player.roomCode (deref (heap S) r) = Some room
              ∧ (ws, r) ∈ Room.players room;
  room_size :
    ∀ code room, rooms S !! code = Some room →
      (1 ≤ length (Room.players room) ≤ MAX_PLAYERS_PER_ROOM)%nat;
  room_count : (size (rooms S) ≤ MAX_ROOMS)%nat;
  hosts_le_1 :
    ∀ code room, rooms S !! code = Some room → (host_count S room ≤ 1)%nat;
  waiting_no_cards :
    ∀ code room ws r,
      rooms S !! code = Some room → Room.state room = waiting →
      (ws, r) ∈ Room.players room →
      Player.selectedCard (deref (heap S) r) = JNull;
  cards_valid :
    Forall (λ p, isValidCard (Player.selectedCard p) = true) (heap S)
}.

(** The handler of one message, run twice in a row with the same
    environment. *)
Definition handle_twice (env : Env) (ws : conn) (message : Message.t)
    (S : Server) : outcome :=
  match handleMessage env ws message S with
  | Some (_, S1, _) => handleMessage env ws message S1
  | None => None
  end.

(** A name that [sanitizeName] has nothing to do on: between 1 and 20
    units, no white space at either end, and none of the thirteen
    characters of the class the second [replace] deletes
    ([dangerous_chars]: the two angle brackets, double quote, apostrophe,
    backtick, ampersand, semicolon, and round, square and curly
    brackets). *)
Definition clean_name (s : jsstring) : Prop :=
  (1 ≤ length s ≤ MAX_NAME_LENGTH)%nat
  ∧ Forall (λ c, is_dangerous c = false) s
  ∧ (∀ c, head s = Some c → is_js_space c = false)
  ∧ (∀ c, last s = Some c → is_js_space c = false).

(** Payloads that make the [try] block of the ['message'] handler
    throw: text that is not JSON, the literal [null], and a [join_room]
    whose [roomCode] is a number, a boolean or an object. *)
Definition malformed (data : payload) : Prop :=
  match data with
  | Unparseable | ParsedNull => True
  | Parsed message =>
      Message.type message = join_room
      ∧ match Message.roomCode message with
        | JBool _ | JNum _ | JObject => True
        | _ => False
        end
  end.

(** The commands reserved to the host. *)
Definition host_command (t : msg_type) : Prop :=
  t = start_round ∨ t = reveal_cards ∨ t = reset_round ∨ t = close_reveal.

(** Two servers that differ in their session tables at most. *)
Definition same_but_sessions (S S' : Server) : Prop :=
  rooms S' = rooms S ∧ players S' = players S ∧ heap S' = heap S.

(** Two handler results that differ in the session tables at most. *)
Definition same_outcome (o o' : outcome) : Prop :=
  match o, o' with
  | Some (c, S1, out), Some (c', S1', out') =>
      c' = c ∧ out' = out ∧ same_but_sessions S1 S1'
  | None, None => True
  | _, _ => False
  end.

(** What a client sees of a player in the reveal: the entry of the
    reveal order and the entry of the snapshot. *)
Definition revealed_entry (p : Player.t) : RevealEntry.t :=
  RevealEntry.mk (Player.id p) (Player.name p) (Player.selectedCard p).
Definition revealed_view (p : Player.t) : PlayerView.t :=
  PlayerView.mk (Player.id p) (Player.name p) (Player.isHost p)
                (bool_decide (Player.selectedCard p ≠ JNull))
                (Player.selectedCard p).

(** * Verified properties *)

(** ** Rate limiter *)

Ltac unfold_limits :=
  unfold RATE_LIMIT_MAX_MESSAGES, RATE_LIMIT_WINDOW_MS, MAX_NAME_LENGTH,
    MAX_ROOMS, MAX_PLAYERS_PER_ROOM in *.

Section RateLimit.
Implicit Types (ws : WebSocket) (now t : Z) (l : list Z).

Lemma in_window_spec now t :
  in_window now t = true ↔ now - t < RATE_LIMIT_WINDOW_MS.
Proof. unfold in_window. apply Z.ltb_lt. Qed.

Lemma filter_in_window now l :
  filter (λ t, in_window now t = true) l
  = filter (λ t, now - t < RATE_LIMIT_WINDOW_MS) l.
Proof. apply list_filter_iff. intros t. apply in_window_spec. Qed.

Lemma checkRateLimit_verdict now ws :
  (checkRateLimit now ws).1 = true
  ↔ (count_in_window now ws < RATE_LIMIT_MAX_MESSAGES)%nat.
Proof.
  unfold checkRateLimit, count_in_window, recorded.
  rewrite filter_in_window.
  destruct (messageTimestamps ws) as [l|];
    case_decide; cbn [fst]; split; intros; try done; unfold_limits;
    try lia.
Qed.

Lemma checkRateLimit_stamps now ws :
  recorded (checkRateLimit now ws).2
  = let kept := filter (λ t, now - t < RATE_LIMIT_WINDOW_MS) (recorded ws) in
    if (checkRateLimit now ws).1 then kept ++ [now] else kept.
Proof.
  unfold checkRateLimit, recorded. rewrite filter_in_window.
  destruct (messageTimestamps ws) as [l|]; case_decide; done.
Qed.

Lemma checkRateLimit_isAlive now ws :
  isAlive (checkRateLimit now ws).2 = isAlive ws.
Proof. unfold checkRateLimit. case_decide; done. Qed.

Lemma checkRateLimit_defined now ws :
  messageTimestamps (checkRateLimit now ws).2
  = Some (recorded (checkRateLimit now ws).2).
Proof. unfold checkRateLimit, recorded. case_decide; done. Qed.

(** All of [l] in one window of 5 s: nothing expires at any [now] of the
    same window. *)
Lemma filter_same_window w now l :
  w ≤ now < w + RATE_LIMIT_WINDOW_MS →
  Forall (λ t, w ≤ t < w + RATE_LIMIT_WINDOW_MS) l →
  filter (λ t, now - t < RATE_LIMIT_WINDOW_MS) l = l.
Proof.
  intros Hnow Hl. induction Hl as [|t l Ht _ IH]; [done|].
  rewrite filter_cons_True by (unfold_limits; lia). by rewrite IH.
Qed.

Lemma rate_limit_run_accepts w stamps times alive :
  Forall (λ t, w ≤ t < w + RATE_LIMIT_WINDOW_MS) (stamps ++ times) →
  (length stamps + length times ≤ RATE_LIMIT_MAX_MESSAGES)%nat →
  rate_limit_run (mkWebSocket (Some stamps) alive) times
  = (replicate (length times) true,
     mkWebSocket (Some (stamps ++ times)) alive).
Proof.
  revert stamps. induction times as [|now times IH]; intros stamps Hall Hlen.
  - simpl. by rewrite app_nil_r.
  - simpl in Hlen.
    assert (Hst : Forall (λ t, w ≤ t < w + RATE_LIMIT_WINDOW_MS) stamps).
    { by apply Forall_app in Hall as [? _]. }
    assert (Hnow : w ≤ now < w + RATE_LIMIT_WINDOW_MS).
    { apply Forall_app in Hall as [_ H]. by inversion H. }
    cbn [rate_limit_run]. unfold checkRateLimit. cbn [messageTimestamps isAlive].
    rewrite filter_in_window, (filter_same_window w) by done.
    case_decide; [unfold_limits; lia|].
    rewrite (IH (stamps ++ [now])).
    + by rewrite <- app_assoc.
    + by rewrite <- app_assoc.
    + rewrite length_app. simpl. lia.
Qed.

Lemma rate_limit_run_full w stamps now alive :
  Forall (λ t, w ≤ t < w + RATE_LIMIT_WINDOW_MS) stamps →
  w ≤ now < w + RATE_LIMIT_WINDOW_MS →
  length stamps = RATE_LIMIT_MAX_MESSAGES →
  checkRateLimit now (mkWebSocket (Some stamps) alive)
  = (false, mkWebSocket (Some stamps) alive).
Proof.
  intros Hst Hnow Hlen. unfold checkRateLimit. cbn [messageTimestamps isAlive].
  rewrite filter_in_window, (filter_same_window w) by done.
  case_decide; [done|unfold_limits; lia].
Qed.

Lemma rate_limit_run_app ws times1 times2 :
  rate_limit_run ws (times1 ++ times2)
  = let r1 := rate_limit_run ws times1 in
    let r2 := rate_limit_run r1.2 times2 in
    (r1.1 ++ r2.1, r2.2).
Proof.
  revert ws. induction times1 as [|now times1 IH]; intros ws; simpl.
  - by destruct (rate_limit_run ws times2).
  - destruct (checkRateLimit now ws) as [ok ws1]. rewrite IH. simpl.
    destruct (rate_limit_run ws1 times1) as [oks ws2]. simpl.
    by destruct (rate_limit_run ws2 times2).
Qed.
End RateLimit.

Lemma filter_window_later now now' (l : list Z) :
  now ≤ now' →
  filter (λ t, now' - t < RATE_LIMIT_WINDOW_MS)
         (filter (λ t, now - t < RATE_LIMIT_WINDOW_MS) l)
  = filter (λ t, now' - t < RATE_LIMIT_WINDOW_MS) l.
Proof.
  intros Hle. rewrite list_filter_filter. apply list_filter_iff.
  intros t. lia.
Qed.

Lemma on_message_gate env now ws sock data S :
  on_message env now ws sock data S
  = if (checkRateLimit now sock).1
    then parse_and_handle env ws (checkRateLimit now sock).2 data S
    else Some ((checkRateLimit now sock).2, S, [rate_limit_reply ws]).
Proof.
  unfold on_message. by destruct (checkRateLimit now sock) as [[] sock1].
Qed.

(** C5.  A message is accepted by the rate limiter exactly when fewer
    than 20 of the connection's recorded timestamps lie in the trailing
    5000 ms window at its arrival, an accepted message goes on to the
    parser and handler, and a rejected one is answered with the
    rate-limit error only, the server state untouched.  On a fresh
    connection, 21 messages whose arrival times all lie in one window of
    5000 ms get the verdicts accept (20 times) and then reject: the 21st
    is answered with the rate-limit error, and the connection keeps its 20
    timestamps and stays alive. *)
Theorem rate_limiter_sliding_window :
  (∀ env now ws sock data S,
     ((checkRateLimit now sock).1 = true
      ↔ (count_in_window now sock < 20)%nat)
     ∧ on_message env now ws sock data S
       = if decide (count_in_window now sock < 20)%nat
         then parse_and_handle env ws (checkRateLimit now sock).2 data S
         else Some ((checkRateLimit now sock).2, S,
                    [Send ws (error "Rate limit exceeded. Please slow down.")]))
  ∧ (∀ w times first20 last env ws data S,
       times = first20 ++ [last] →
       length times = 21%nat →
       Forall (λ t, w ≤ t < w + 5000) times →
       (rate_limit_run new_connection times).1 = replicate 20 true ++ [false]
       ∧ (rate_limit_run new_connection first20).2
         = mkWebSocket (Some first20) true
       ∧ on_message env last ws (mkWebSocket (Some first20) true) data S
         = Some (mkWebSocket (Some first20) true, S,
                 [Send ws (error "Rate limit exceeded. Please slow down.")])).
Proof.
  split.
  - intros env now ws sock data S.
    pose proof (checkRateLimit_verdict now sock) as Hv.
    split; [exact Hv|].
    rewrite on_message_gate. unfold rate_limit_reply.
    destruct (checkRateLimit now sock).1 eqn:E; case_decide; try done.
    + exfalso. apply H, Hv. done.
    + apply Hv in H. done.
  - intros w times first20 last env ws data S -> Hlen Hall.
    rewrite length_app in Hlen. simpl in Hlen.
    assert (Hlen20 : length first20 = 20%nat) by lia.
    pose proof Hall as Hall'.
    apply Forall_app in Hall' as [Hfirst Hlast].
    apply Forall_inv in Hlast.
    assert (Hrun : rate_limit_run new_connection first20
                   = (replicate 20 true, mkWebSocket (Some first20) true)).
    { unfold new_connection.
      rewrite (rate_limit_run_accepts w [] first20 true); simpl;
        [by rewrite Hlen20 | done | unfold_limits; lia]. }
    assert (Hfull : checkRateLimit last (mkWebSocket (Some first20) true)
                    = (false, mkWebSocket (Some first20) true)).
    { apply (rate_limit_run_full w); [done| |done].
      unfold_limits; lia. }
    split; [|split].
    + rewrite rate_limit_run_app, Hrun. simpl. by rewrite Hfull.
    + by rewrite Hrun.
    + rewrite on_message_gate, Hfull. done.
Qed.

Lemma rate_limiter_sliding_window_witness :
  (rate_limit_run new_connection (seqZ 0 21)).1 = replicate 20 true ++ [false].
Proof.
  destruct rate_limiter_sliding_window as [_ H].
  destruct (H 0 (seqZ 0 21) (seqZ 0 20) 20
              (mkEnv [] [] [] 0 0 (λ _, 1%nat) (λ s, s)) 0%nat Unparseable
              initial_server) as [H1 _].
  - reflexivity.
  - reflexivity.
  - vm_compute. repeat constructor; discriminate.
  - exact H1.
Defined.

(** C10.  When [checkRateLimit] rejects a message, the timestamp list it
    leaves is the old list without the entries that fell out of the
    window: nothing is recorded for the rejected message.  A later
    message is therefore accepted exactly when fewer than 20 of the
    timestamps recorded before the rejection are still in its window,
    which is the verdict it would have got had the rejected message never
    arrived. *)
Theorem rejected_message_not_recorded now sock :
  (checkRateLimit now sock).1 = false →
  recorded (checkRateLimit now sock).2
  = filter (λ t, now - t < 5000) (recorded sock)
  ∧ sublist (recorded (checkRateLimit now sock).2) (recorded sock)
  ∧ ∀ now', now ≤ now' →
      ((checkRateLimit now' (checkRateLimit now sock).2).1 = true
       ↔ (count_in_window now' sock < 20)%nat)
      ∧ (checkRateLimit now' (checkRateLimit now sock).2).1
        = (checkRateLimit now' sock).1.
Proof.
  intros Hrej.
  pose proof (checkRateLimit_stamps now sock) as Hst.
  rewrite Hrej in Hst. cbn zeta in Hst.
  split; [exact Hst|]. split.
  { rewrite Hst. apply sublist_filter. }
  intros now' Hle.
  assert (Hcount : count_in_window now' (checkRateLimit now sock).2
                   = count_in_window now' sock).
  { unfold count_in_window. rewrite Hst.
    by rewrite filter_window_later. }
  split.
  - rewrite checkRateLimit_verdict, Hcount. done.
  - pose proof (checkRateLimit_verdict now' (checkRateLimit now sock).2) as H1.
    pose proof (checkRateLimit_verdict now' sock) as H2.
    rewrite Hcount in H1.
    destruct (checkRateLimit now' (checkRateLimit now sock).2).1,
             (checkRateLimit now' sock).1; try done.
    + symmetry. apply H2, H1. done.
    + apply H1, H2. done.
Qed.

Lemma rejected_message_not_recorded_witness :
  recorded (checkRateLimit 100 (mkWebSocket (Some (replicate 20 0)) true)).2
  = replicate 20 0.
Proof.
  destruct (rejected_message_not_recorded
              100 (mkWebSocket (Some (replicate 20 0)) true)) as [H _].
  - reflexivity.
  - exact H.
Defined.

(** ** Name sanitising *)

Section Sanitize.
Implicit Types (s r : jsstring) (c : N).

(** The backtracking in [[^>]*] never helps: every unit it could give
    back is not a [>]. *)
Lemma re_star_not_gt s :
  re_star_not GT s (λ s2, re_char GT s2 Some) = after_first_gt s.
Proof.
  induction s as [|c s IH]; [done|].
  cbn [re_star_not after_first_gt]. case_decide as Hc.
  - subst c. cbn [re_char]. by rewrite decide_True.
  - rewrite IH. destruct (after_first_gt s); [done|].
    cbn [re_char]. by rewrite decide_False.
Qed.

Lemma match_tag_cons c s :
  match_tag (c :: s) = if decide (c = LT) then after_first_gt s else None.
Proof.
  unfold match_tag. cbn [re_char]. case_decide; [|done].
  apply re_star_not_gt.
Qed.

Lemma after_first_gt_Some s rest :
  after_first_gt s = Some rest →
  GT ∈ s ∧ (length rest < length s)%nat
  ∧ inside_tag_spec s = strip_tags_spec rest.
Proof.
  revert rest. induction s as [|c s IH]; intros rest; [done|].
  cbn [after_first_gt inside_tag_spec]. case_decide as Hc.
  - intros [= ->]. subst c. split; [left|]. simpl. split; [lia|done].
  - intros H. destruct (IH _ H) as (Hin & Hlen & Heq).
    split; [by right|]. simpl. split; [lia|done].
Qed.

Lemma after_first_gt_None s : after_first_gt s = None → GT ∉ s.
Proof.
  induction s as [|c s IH]; [intros _; apply not_elem_of_nil|].
  cbn [after_first_gt]. case_decide as Hc; [done|].
  intros H. apply not_elem_of_cons. split; [congruence|by apply IH].
Qed.

(** The regular-expression replacement computes what the two-state
    scanner computes, whenever the fuel covers the input. *)
Lemma replace_tags_from_spec fuel s :
  (length s ≤ fuel)%nat → replace_tags_from fuel s = strip_tags_spec s.
Proof.
  revert s. induction fuel as [|fuel IH]; intros s Hlen.
  - destruct s; [done|simpl in Hlen; lia].
  - destruct s as [|c s]; [done|].
    cbn [replace_tags_from strip_tags_spec]. rewrite match_tag_cons.
    simpl in Hlen. case_decide as Hc.
    + destruct (after_first_gt s) as [rest|] eqn:E.
      * apply after_first_gt_Some in E as (Hin & Hl & Heq).
        rewrite bool_decide_eq_true_2 by done.
        rewrite IH by lia. done.
      * apply after_first_gt_None in E.
        rewrite bool_decide_eq_false_2 by done.
        rewrite IH by lia. done.
    + rewrite IH by lia. done.
Qed.

Lemma replace_tags_spec s : replace_tags s = strip_tags_spec s.
Proof. apply replace_tags_from_spec. done. Qed.

Lemma replace_dangerous_spec s :
  replace_dangerous s = filter (λ c, c ∉ dangerous_chars) s.
Proof.
  apply list_filter_iff. intros c. unfold is_dangerous.
  rewrite bool_decide_eq_false. done.
Qed.

Lemma sanitize_pipeline_eq s :
  take MAX_NAME_LENGTH (replace_dangerous (replace_tags (trim s)))
  = sanitize_pipeline_spec s.
Proof.
  unfold sanitize_pipeline_spec. by rewrite replace_tags_spec,
    replace_dangerous_spec.
Qed.

Lemma sanitizeName_refines name : sanitizeName name = sanitizeName_spec name.
Proof.
  destruct name as [| | | |s|]; try done.
  destruct s as [|c s]; [done|].
  unfold sanitizeName, sanitizeName_spec. cbv zeta.
  rewrite sanitize_pipeline_eq.
  destruct (sanitize_pipeline_spec (c :: s)) as [|x r]; [done|].
  rewrite decide_True; [done|simpl; lia].
Qed.

Lemma sanitize_pipeline_clean s :
  Forall (λ c, c ∉ dangerous_chars) (sanitize_pipeline_spec s).
Proof.
  unfold sanitize_pipeline_spec. apply Forall_take.
  apply Forall_forall. intros c Hc. by apply list_elem_of_filter in Hc as [? _].
Qed.

Lemma sanitize_pipeline_length s :
  (length (sanitize_pipeline_spec s) ≤ 20)%nat.
Proof. unfold sanitize_pipeline_spec. rewrite length_take. lia. Qed.

Lemma contains_elem_of t s c : contains t s → c ∈ t → c ∈ s.
Proof.
  intros (a & b & ->) Hc. apply elem_of_app. right.
  apply elem_of_app. by left.
Qed.
End Sanitize.

(** C7.  [sanitizeName] gives [null] for every input that is not a
    string; for a string it gives the input trimmed, with the tag-like
    substrings removed, then the dangerous characters removed, then cut to
    20 units, and [null] exactly when that text is empty.  The result has
    at most 20 units and none of the dangerous characters, so for a name
    that contains a [<script>] tag the stored name contains no such tag
    and differs from the raw input. *)
Theorem sanitizeName_pipeline (name : jsval) :
  sanitizeName name = sanitizeName_spec name
  ∧ ((∀ s, name ≠ JStr s) → sanitizeName name = None)
  ∧ (∀ s, name = JStr s →
       (sanitizeName name = None ↔ sanitize_pipeline_spec s = [])
       ∧ ∀ r, sanitizeName name = Some r →
           r = sanitize_pipeline_spec s
           ∧ (1 ≤ length r ≤ 20)%nat
           ∧ Forall (λ c, c ∉ dangerous_chars) r
           ∧ (contains (js "<script>") s →
                ¬ contains (js "<script>") r ∧ r ≠ s)).
Proof.
  split; [apply sanitizeName_refines|]. split.
  - intros Hns. destruct name; try done. by destruct (Hns s).
  - intros s ->. rewrite sanitizeName_refines. unfold sanitizeName_spec.
    pose proof (sanitize_pipeline_clean s) as Hclean.
    pose proof (sanitize_pipeline_length s) as Hlen.
    destruct (sanitize_pipeline_spec s) as [|x r'] eqn:E.
    + split; [done|]. intros r [=].
    + split; [done|]. intros r [= <-].
      split; [done|]. split; [simpl in *; lia|]. split; [done|].
      intros Hs.
      assert (Hlt : LT ∉ x :: r').
      { intros Hin. eapply Forall_forall in Hclean; [|exact Hin].
        apply Hclean. vm_compute. left. }
      split.
      * intros Hr. apply Hlt. eapply contains_elem_of; [exact Hr|].
        vm_compute. left.
      * intros Heq. apply Hlt. rewrite Heq.
        eapply contains_elem_of; [exact Hs|]. vm_compute. left.
Qed.

Lemma sanitizeName_pipeline_witness :
  sanitizeName (JStr (js "<script>alert(1)</script> Bob "))
  = Some (js "alert1 Bob")
  ∧ ¬ contains (js "<script>") (js "alert1 Bob").
Proof.
  destruct (sanitizeName_pipeline
              (JStr (js "<script>alert(1)</script> Bob "))) as (_ & _ & H).
  destruct (H (js "<script>alert(1)</script> Bob ") eq_refl) as [_ H'].
  destruct (H' (js "alert1 Bob") eq_refl) as (_ & _ & _ & Htag).
  split; [reflexivity|].
  apply Htag. exists [], (js "alert(1)</script> Bob "). reflexivity.
Defined.

(** ** Room codes *)

Section RoomCodes.
Implicit Types (rs : gmap jsstring Room.t) (ds : list nat) (code : jsstring).

Lemma chars_length : length chars = 32%nat.
Proof. reflexivity. Qed.

Lemma chars_NoDup : NoDup chars.
Proof. apply (bool_decide_unpack (NoDup chars)). vm_compute. exact I. Qed.

Lemma append_char_valid code i :
  (i < length chars)%nat →
  ∃ c, chars !! i = Some c ∧ append_char code i = code ++ [c].
Proof.
  intros Hi. unfold append_char.
  destruct (lookup_lt_is_Some_2 chars i Hi) as [c Hc].
  rewrite Hc. eauto.
Qed.

Lemma draw_code_valid n code ds code' ds' :
  valid_draws ds →
  draw_code n code ds = Some (code', ds') →
  length code' = (length code + n)%nat
  ∧ (Forall (λ c, c ∈ chars) code → Forall (λ c, c ∈ chars) code')
  ∧ valid_draws ds'
  ∧ (length ds' + n)%nat = length ds.
Proof.
  revert code ds. induction n as [|n IH]; intros code ds Hv H.
  - simpl in H. injection H as <- <-. repeat split; [lia|done|done|lia].
  - destruct ds as [|i ds]; [done|]. cbn [draw_code] in H.
    apply Forall_cons in Hv as [Hi Hv].
    destruct (append_char_valid code i Hi) as (c & Hc & Happ).
    destruct (IH _ _ Hv H) as (Hlen & Hall & Hv' & Hds).
    rewrite Happ, length_app in Hlen. simpl in Hlen.
    repeat split; [lia| |done|simpl; lia].
    intros Hcode. apply Hall. rewrite Happ. apply Forall_app. split; [done|].
    apply Forall_singleton. by eapply list_elem_of_lookup_2.
Qed.

Lemma draw_code_app n code block code' more :
  draw_code n code block = Some (code', []) →
  draw_code n code (block ++ more) = Some (code', more).
Proof.
  revert code block. induction n as [|n IH]; intros code block H.
  - simpl in H. injection H as <- ->. done.
  - destruct block as [|i block]; [done|]. cbn [draw_code] in H.
    simpl. by apply IH.
Qed.

Lemma generateRoomCode_fuel_sound fuel rs ds code :
  valid_draws ds →
  generateRoomCode_fuel fuel rs ds = Some code →
  length code = 4%nat ∧ Forall (λ c, c ∈ chars) code ∧ rs !! code = None.
Proof.
  revert ds. induction fuel as [|fuel IH]; intros ds Hv H; [done|].
  cbn [generateRoomCode_fuel] in H.
  destruct (draw_code 4 [] ds) as [[code' ds']|] eqn:E; [|done].
  destruct (draw_code_valid _ _ _ _ _ Hv E) as (Hlen & Hall & Hv' & _).
  case_decide as Hlive.
  - by apply (IH ds').
  - injection H as <-. split; [done|]. split; [by apply Hall|].
    by apply eq_None_not_Some.
Qed.

Lemma generateRoomCode_fresh rs ds code :
  generateRoomCode rs ds = Some code → rs !! code = None.
Proof.
  unfold generateRoomCode. generalize (S (length ds)) as fuel.
  intros fuel. revert ds. induction fuel as [|fuel IH]; intros ds H; [done|].
  cbn [generateRoomCode_fuel] in H.
  destruct (draw_code 4 [] ds) as [[code' ds']|]; [|done].
  case_decide as Hlive; [by apply (IH ds')|].
  injection H as <-. by apply eq_None_not_Some.
Qed.

(** Collisions are retried: after any number of blocks that spell live
    codes, the first block that spells a free code is the result. *)
Lemma generateRoomCode_fuel_retries fuel rs blocks block code more :
  Forall (λ b, ∃ c, spells b c ∧ is_Some (rs !! c)) blocks →
  spells block code → rs !! code = None →
  (length blocks < fuel)%nat →
  generateRoomCode_fuel fuel rs (concat blocks ++ block ++ more) = Some code.
Proof.
  intros Hlive Hblock Hfree. revert fuel.
  induction Hlive as [|b blocks (c & Hb & Hc) _ IH]; intros fuel Hfuel.
  - destruct fuel as [|fuel]; [simpl in Hfuel; lia|].
    cbn [concat app generateRoomCode_fuel].
    rewrite (draw_code_app _ _ _ _ more Hblock).
    rewrite decide_False; [done|]. rewrite Hfree. by intros [? ?].
  - destruct fuel as [|fuel]; [simpl in Hfuel; lia|].
    cbn [concat generateRoomCode_fuel]. rewrite <- app_assoc.
    rewrite (draw_code_app _ _ _ _ _ Hb).
    rewrite decide_True by done. apply IH. simpl in Hfuel. lia.
Qed.

Lemma spells_length block code : spells block code → length block = 4%nat.
Proof.
  unfold spells. destruct block as [|? [|? [|? [|? [|? ?]]]]]; try done.
Qed.

Lemma producible_chars c : producible c ↔ c ∈ chars.
Proof.
  split.
  - intros (rs & ds & code & Hv & Hgen & Hc).
    destruct (generateRoomCode_fuel_sound _ _ _ _ Hv Hgen) as (_ & Hall & _).
    by eapply Forall_forall in Hall.
  - intros Hc. apply list_elem_of_lookup in Hc as [i Hi].
    exists ∅, [i; i; i; i], [c; c; c; c]. split; [|split].
    + apply lookup_lt_Some in Hi. unfold valid_draws.
      repeat (apply List.Forall_cons; [exact Hi|]). apply List.Forall_nil.
    + unfold generateRoomCode. cbn [length generateRoomCode_fuel draw_code].
      unfold append_char. rewrite Hi. simpl.
      rewrite decide_False; [done|]. rewrite lookup_empty. by intros [? ?].
    + left.
Qed.
End RoomCodes.

Lemma concat_blocks_length (blocks : list (list nat)) :
  Forall (λ b, length b = 4%nat) blocks →
  length (concat blocks) = (4 * length blocks)%nat.
Proof.
  induction 1 as [|b blocks Hb _ IH]; [done|].
  simpl. rewrite length_app. lia.
Qed.

Lemma create_room_keeps_rooms env ws message S c S1 out code room :
  case_create_room env ws message S = Some (c, S1, out) →
  rooms S !! code = Some room →
  rooms S1 !! code = Some room.
Proof.
  unfold case_create_room, reply. intros H Hroom.
  case_decide; [by injection H as _ <- _|].
  destruct (sanitizeName _) as [name|]; [|by injection H as _ <- _].
  destruct (generateRoomCode _ _) as [roomCode|] eqn:Hgen; [|done].
  apply generateRoomCode_fresh in Hgen.
  cbn in H. injection H as _ <- _. cbn [rooms].
  rewrite lookup_insert_ne; [done|]. congruence.
Qed.

(** C6, as the code has it.  The alphabet of [generateRoomCode] has 32
    symbols, all different.  Whenever the function returns, the code has 4
    characters, each from that alphabet, and no live room has it; a
    collision is retried, so the first block of four draws that spells a
    free code is what it returns; and [create_room] leaves every live
    room in place under its code. *)
Theorem generateRoomCode_fresh_code (rs : gmap jsstring Room.t) :
  length chars = 32%nat ∧ NoDup chars
  ∧ (∀ ds code,
       valid_draws ds → generateRoomCode rs ds = Some code →
       length code = 4%nat ∧ Forall (λ c, c ∈ chars) code
       ∧ rs !! code = None)
  ∧ (∀ blocks block code more,
       Forall (λ b, ∃ c, spells b c ∧ is_Some (rs !! c)) blocks →
       spells block code → rs !! code = None →
       generateRoomCode rs (concat blocks ++ block ++ more) = Some code)
  ∧ (∀ env ws message S c S1 out code room,
       rooms S = rs → Message.type message = create_room →
       handleMessage env ws message S = Some (c, S1, out) →
       rs !! code = Some room → rooms S1 !! code = Some room).
Proof.
  split; [apply chars_length|]. split; [apply chars_NoDup|].
  split; [|split].
  - intros ds code Hv Hgen. by eapply generateRoomCode_fuel_sound.
  - intros blocks block code more Hlive Hblock Hfree.
    apply generateRoomCode_fuel_retries; try done.
    rewrite !length_app, concat_blocks_length.
    + lia.
    + eapply Forall_impl; [exact Hlive|]. intros b (c & Hb & _).
      by eapply spells_length.
  - intros env ws message S c S1 out code room <- Hty H Hroom.
    unfold handleMessage in H. rewrite Hty in H.
    by eapply create_room_keeps_rooms.
Qed.

Lemma generateRoomCode_fresh_code_witness :
  generateRoomCode {[ js "AAAA" := Room.mk waiting [] 0 ]}
                   [0; 0; 0; 0; 0; 1; 23; 31]%nat
  = Some (js "ABZ9").
Proof.
  destruct (generateRoomCode_fresh_code
              {[ js "AAAA" := Room.mk waiting [] 0 ]}) as (_ & _ & _ & H & _).
  apply (H [[0; 0; 0; 0]%nat] [0; 1; 23; 31]%nat (js "ABZ9") []).
  - apply Forall_singleton. exists (js "AAAA"). split; [reflexivity|].
    rewrite lookup_singleton_eq. by eexists.
  - reflexivity.
  - apply lookup_singleton_ne. by vm_compute.
Defined.

(** The alphabet the claim counts 33 symbols in: no list of 33 different
    code units is the set of code units a generated room code can
    contain. *)
Lemma room_code_alphabet_not_33 :
  ¬ ∃ alphabet : list N,
      NoDup alphabet ∧ length alphabet = 33%nat
      ∧ ∀ c, c ∈ alphabet ↔ producible c.
Proof.
  intros (alphabet & Hnd & Hlen & Hiff).
  assert (Hperm : alphabet ≡ₚ chars).
  { apply NoDup_Permutation; [done|apply chars_NoDup|].
    intros c. rewrite Hiff. apply producible_chars. }
  apply Permutation_length in Hperm. rewrite Hlen, chars_length in Hperm.
  discriminate.
Qed.

(** ** Snapshots and what a broadcast delivers *)

Section Snapshots.
Implicit Types (S : Server) (code : jsstring) (snap : RoomSnapshot.t).

Lemma getRoomState_Some S code room includeVotes :
  rooms S !! code = Some room →
  getRoomState S code includeVotes
  = Some (RoomSnapshot.mk code (Room.state room)
            (map (λ e, player_view includeVotes room (deref (heap S) e.2))
                 (Room.players room))
            CARD_VALUES).
Proof. intros H. unfold getRoomState. by rewrite H. Qed.

Lemma getRoomState_state S code includeVotes snap :
  getRoomState S code includeVotes = Some snap →
  ∃ room, rooms S !! code = Some room
          ∧ RoomSnapshot.state snap = Room.state room
          ∧ RoomSnapshot.roomCode snap = code.
Proof.
  unfold getRoomState. destruct (rooms S !! code) as [room|]; [|done].
  intros [= <-]. eauto.
Qed.

Lemma player_view_hidden room p :
  Room.state room ≠ revealed →
  PlayerView.card (player_view false room p) = JNull.
Proof.
  intros H. unfold player_view. cbn [PlayerView.card orb].
  by rewrite bool_decide_eq_false_2.
Qed.

Lemma getRoomState_hidden S code snap :
  getRoomState S code false = Some snap →
  RoomSnapshot.state snap ≠ revealed →
  cards_hidden snap.
Proof.
  unfold getRoomState. destruct (rooms S !! code) as [room|]; [|done].
  intros [= <-] Hst. unfold cards_hidden. cbn in *.
  apply Forall_map, Forall_forall. intros e _. by apply player_view_hidden.
Qed.

Lemma broadcast_elem env S code msg ex w m :
  Send w m ∈ broadcastToRoom env S code msg ex → m = msg.
Proof.
  unfold broadcastToRoom. destruct (rooms S !! code) as [room|].
  - intros H. apply list_elem_of_omap in H as (e & _ & He).
    case_match; [|done]. by injection He.
  - intros H. by apply elem_of_nil in H.
Qed.

Lemma broadcast_Forall env S code msg ex (P : effect → Prop) :
  (∀ w, P (Send w msg)) → Forall P (broadcastToRoom env S code msg ex).
Proof.
  intros HP. apply Forall_forall. intros [w m] Hin.
  apply broadcast_elem in Hin as ->. apply HP.
Qed.

(** An open member that is not excluded gets the message. *)
Lemma broadcast_delivers env S code room msg ex w r :
  rooms S !! code = Some room →
  (w, r) ∈ Room.players room →
  Some w ≠ ex → readyState env w = 1%nat →
  Send w msg ∈ broadcastToRoom env S code msg ex.
Proof.
  intros Hroom Hin Hex Hopen. unfold broadcastToRoom. rewrite Hroom.
  apply list_elem_of_omap. exists (w, r). split; [done|]. cbn.
  by rewrite !bool_decide_eq_true_2.
Qed.
End Snapshots.

(** ** The handlers, case by case *)

Ltac unfold_handlers :=
  unfold handleMessage, case_create_room, case_join_room, case_start_round,
    case_select_card, case_reveal_cards, case_reset_round, case_close_reveal,
    reply, ignore, alloc in *.

(** Finds out which message a delivered effect carries. *)
Ltac sent_message H :=
  repeat match type of H with
  | _ ∈ [] => by apply elem_of_nil in H
  | _ ∈ _ :: _ => apply elem_of_cons in H as [H|H]; [simplify_eq|]
  | _ ∈ broadcastToRoom _ _ _ _ _ => apply broadcast_elem in H; subst
  | _ ∈ _ ++ _ => apply elem_of_app in H as [H|H]
  end.

Section Handlers.
Implicit Types (S : Server) (env : Env) (ws : conn) (code : jsstring).

(** A room is revealed after a message only if it was before, or the
    message is the host's [reveal_cards] for it. *)
Lemma handleMessage_revealed env ws message S c S1 out code room1 :
  handleMessage env ws message S = Some (c, S1, out) →
  rooms S1 !! code = Some room1 →
  Room.state room1 = revealed →
  (∃ room, rooms S !! code = Some room ∧ Room.state room = revealed)
  ∨ reveals S (EvMessage env ws message) code.
Proof.
  intros H Hroom Hrev. unfold_handlers.
  repeat case_match; simplify_eq; cbn [rooms] in *; eauto.
  all: try (apply lookup_insert_Some in Hroom as [[<- <-]|[Hne Hroom]];
            [|by eauto]); try done.
  - left. eauto.
  - right. split; [done|]. eexists. split; [done|]. split; [|done].
    by apply negb_false_iff.
Qed.

Lemma on_close_rooms env ws S code room1 :
  rooms (on_close env ws S).1 !! code = Some room1 →
  ∃ room, rooms S !! code = Some room
          ∧ Room.state room1 = Room.state room.
Proof.
  unfold on_close. intros H.
  repeat case_match; simplify_eq; cbn [rooms fst] in *; eauto.
  all: try (apply lookup_delete_Some in H as [_ H]; by eauto).
  all: apply lookup_insert_Some in H as [[<- <-]|[_ H]]; by eauto.
Qed.

Lemma getRoomState_sent_ok S1 code snap :
  getRoomState S1 code false = Some snap →
  (∃ room1, rooms S1 !! RoomSnapshot.roomCode snap = Some room1
            ∧ RoomSnapshot.state snap = Room.state room1)
  ∧ (RoomSnapshot.state snap ≠ revealed → cards_hidden snap).
Proof.
  intros H. split; [|by eapply getRoomState_hidden].
  apply getRoomState_state in H as (room & ? & ? & ->). eauto.
Qed.

Lemma handleMessage_sent_ok env ws message S c S1 out w m :
  handleMessage env ws message S = Some (c, S1, out) →
  Send w m ∈ out →
  sent_ok S (EvMessage env ws message) S1 m.
Proof.
  intros H Hin. unfold_handlers.
  repeat case_match; simplify_eq; sent_message Hin.
  all: split; [|try done]; try (intros snap [=]).
  all: try (by eapply getRoomState_sent_ok).
  - pose proof H4 as H5. apply getRoomState_state in H5 as (room1 & Hr & Hst & ->).
    split; [by eauto|]. intros Hne. exfalso. apply Hne.
    cbn [rooms] in Hr. rewrite lookup_insert_eq in Hr.
    injection Hr as <-. by rewrite Hst.
  - erewrite getRoomState_Some; [|cbn [rooms]; by rewrite lookup_insert_eq].
    eexists. split; [done|]. cbn. split; [done|].
    eexists. split; [done|]. split; [|done]. by apply negb_false_iff.
Qed.

Lemma on_close_sent_ok env ws S w m :
  Send w m ∈ (on_close env ws S).2 →
  sent_ok S (EvClose env ws) (on_close env ws S).1 m.
Proof.
  unfold on_close. intros Hin.
  repeat case_match; simplify_eq; cbn [fst snd] in *; sent_message Hin.
  all: split; [|try done]; try (intros snap [=]).
  all: try (by eapply getRoomState_sent_ok).
Qed.

Lemma step_sent_ok S e S1 out w m :
  step S e = Some (S1, out) → Send w m ∈ out → sent_ok S e S1 m.
Proof.
  destruct e as [env ws message|env ws]; cbn [step].
  - destruct (handleMessage env ws message S) as [[[c S'] out']|] eqn:E;
      [|done].
    intros [= <- <-]. by eapply handleMessage_sent_ok.
  - intros [= HS] Hin.
    change S1 with (S1, out).1. change out with (S1, out).2 in Hin.
    rewrite <- HS in *. by apply (on_close_sent_ok env ws S w m).
Qed.

Lemma step_revealed S e S1 out code room1 :
  step S e = Some (S1, out) →
  rooms S1 !! code = Some room1 →
  Room.state room1 = revealed →
  (∃ room, rooms S !! code = Some room ∧ Room.state room = revealed)
  ∨ reveals S e code.
Proof.
  destruct e as [env ws message|env ws]; cbn [step].
  - destruct (handleMessage env ws message S) as [[[c S'] out']|] eqn:E;
      [|done].
    intros [= <- <-]. by eapply handleMessage_revealed.
  - intros [= HS] Hroom Hrev. left.
    change S1 with (S1, out).1 in Hroom. rewrite <- HS in Hroom.
    apply on_close_rooms in Hroom as (room & ? & Hst).
    exists room. split; [done|]. congruence.
Qed.
End Handlers.

(** ** The example session *)

Example session_reaches_voting :
  fst <$> run initial_server session_to_voting
  = Some (ann_bob voting JNull).
Proof. vm_compute. reflexivity. Qed.

Example session_bob_selected :
  fst <$> run initial_server (session_to_voting ++ [bob_selects_5])
  = Some (ann_bob voting (JStr (js "5"))).
Proof. vm_compute. reflexivity. Qed.

(** ** Reveal secrecy *)

Lemma step_keeps_unrevealed code S e S1 out :
  (∀ room, rooms S !! code = Some room → Room.state room ≠ revealed) →
  ¬ reveals S e code →
  step S e = Some (S1, out) →
  ∀ room1, rooms S1 !! code = Some room1 → Room.state room1 ≠ revealed.
Proof.
  intros Hpre Hnot Hstep room1 Hroom1 Hrev.
  destruct (step_revealed _ _ _ _ _ _ Hstep Hroom1 Hrev)
    as [(room & Hroom & Hst)|Hr]; [|done].
  by apply (Hpre room).
Qed.

Lemma step_keeps_secret code S e S1 out w m :
  (∀ room, rooms S !! code = Some room → Room.state room ≠ revealed) →
  ¬ reveals S e code →
  step S e = Some (S1, out) →
  Send w m ∈ out →
  keeps_secret code m.
Proof.
  intros Hpre Hnot Hstep Hin.
  pose proof (step_keeps_unrevealed _ _ _ _ _ Hpre Hnot Hstep) as Hpost.
  destruct (step_sent_ok _ _ _ _ _ _ Hstep Hin) as [Hsnap Hrev].
  assert (Hgen : ∀ snap, snapshot_of m = Some snap →
                 RoomSnapshot.roomCode snap = code → cards_hidden snap).
  { intros snap Hs Hcode.
    destruct (Hsnap snap Hs) as [(room1 & Hroom1 & Hst) Hhide].
    apply Hhide. rewrite Hst. apply Hpost. by rewrite <- Hcode. }
  destruct m; try exact Hgen.
  destruct Hrev as (snap & -> & Hr). exists snap. split; [done|].
  intros Hcode. apply Hnot. by rewrite <- Hcode.
Qed.

Lemma run_keeps_secret code S es S' out w m :
  (∀ room, rooms S !! code = Some room → Room.state room ≠ revealed) →
  never_reveals code S es →
  run S es = Some (S', out) →
  Send w m ∈ out →
  keeps_secret code m.
Proof.
  revert S out. induction es as [|e es IH]; intros S out Hpre Hnever Hrun Hin.
  - injection Hrun as _ <-. by apply elem_of_nil in Hin.
  - cbn [run never_reveals] in *. destruct Hnever as [Hnot Hnever].
    destruct (step S e) as [[S1 out1]|] eqn:Hstep; [|done].
    destruct (run S1 es) as [[S2 out2]|] eqn:Hrest; [|done].
    injection Hrun as <- <-. apply elem_of_app in Hin as [Hin|Hin].
    + by eapply step_keeps_secret.
    + eapply (IH S1); try done. by eapply step_keeps_unrevealed.
Qed.

(** C1.  For a room that is not [revealed], the snapshot that
    [getRoomState] builds without the vote-visibility flag has one entry
    per player and [card = null] in every entry, whatever the players'
    stored [selectedCard]s are.  And in every run of the server that
    starts with room [code] not revealed (or not yet created) and in
    which the host of [code] sends no [reveal_cards], no message
    delivered to anybody gives away a card of that room: none is the
    room's [cards_revealed], and every snapshot of the room hides all
    cards. *)
Theorem reveal_secrecy :
  (∀ S code room,
     rooms S !! code = Some room →
     Room.state room ≠ revealed →
     ∃ snap, getRoomState S code false = Some snap
             ∧ length (RoomSnapshot.players snap) = length (Room.players room)
             ∧ cards_hidden snap)
  ∧ (∀ code S es S' out w m,
       (∀ room, rooms S !! code = Some room → Room.state room ≠ revealed) →
       never_reveals code S es →
       run S es = Some (S', out) →
       Send w m ∈ out →
       keeps_secret code m).
Proof.
  split.
  - intros S code room Hroom Hst.
    eexists. split; [by apply getRoomState_Some|].
    split; [cbn; by rewrite length_map|].
    eapply getRoomState_hidden; [by apply getRoomState_Some|done].
  - intros. by eapply run_keeps_secret.
Qed.

Lemma reveal_secrecy_witness :
  (∃ snap,
     getRoomState (ann_bob voting (JStr (js "5"))) (js "AAAA") false
     = Some snap
     ∧ cards_hidden snap)
  ∧ match run initial_server (session_to_voting ++ [bob_selects_5]) with
    | Some (_, out) =>
        Forall (λ e, match e with Send _ m => keeps_secret (js "AAAA") m end)
               out
    | None => False
    end.
Proof.
  destruct reveal_secrecy as [H1 H2]. split.
  - destruct (H1 (ann_bob voting (JStr (js "5"))) (js "AAAA")
                (Room.mk voting [(0, 0); (1, 1)]%nat 0))
      as (snap & Hsnap & _ & Hhidden).
    + reflexivity.
    + discriminate.
    + exists snap. split; [exact Hsnap|exact Hhidden].
  - destruct (run initial_server (session_to_voting ++ [bob_selects_5]))
      as [[S' out]|] eqn:Hrun; [|vm_compute in Hrun; discriminate].
    apply Forall_forall. intros [w m] Hin.
    apply (H2 (js "AAAA") initial_server
              (session_to_voting ++ [bob_selects_5]) S' out w m).
    + intros room Hroom. vm_compute in Hroom. discriminate.
    + vm_compute. repeat split; intros [Hty _]; discriminate.
    + exact Hrun.
    + exact Hin.
Defined.

(** ** [select_card]: what is rejected, and how *)

Lemma isValidCard_false card :
  isValidCard card = false
  ↔ card ≠ JNull ∧ ∀ s, s ∈ CARD_VALUES → card ≠ JStr s.
Proof.
  destruct card as [| | | |s|]; cbn; try (split; [split|]; done).
  - split; [done|]. by intros [? _].
  - rewrite bool_decide_eq_false. split.
    + intros Hs. split; [done|]. intros s' Hs' [= ->]. done.
    + intros [_ H] Hs. by apply (H s).
Qed.

Lemma select_card_not_voting env ws message S r room :
  Message.type message = select_card →
  player_in S ws r room →
  Room.state room ≠ voting →
  handleMessage env ws message S = Some (Returned, S, []).
Proof.
  intros Hty [Hp Hroom] Hst. unfold handleMessage, case_select_card.
  rewrite Hty, Hp, Hroom. by rewrite bool_decide_eq_false_2.
Qed.

Lemma select_card_invalid env ws message S r room :
  Message.type message = select_card →
  player_in S ws r room →
  Room.state room = voting →
  isValidCard (Message.card message) = false →
  handleMessage env ws message S
  = Some (Returned, S, [Send ws (error "Invalid card value")]).
Proof.
  intros Hty [Hp Hroom] Hst Hcard. unfold handleMessage, case_select_card.
  rewrite Hty, Hp, Hroom, Hcard. by rewrite bool_decide_eq_true_2.
Qed.

(** C3, as the code has it.  A [select_card] from a player whose room is
    not in [voting] state is dropped silently: the state is unchanged and
    nothing is sent, no error either.  A [select_card] whose card is
    neither [null] nor in the card set never changes the state; when the
    sender is a player of a room in [voting] state it is answered with
    the error [Invalid card value], sent to the sender only; in every
    other case (the sender is no player, its room is gone, or the room is
    not in [voting] state) nothing is sent. *)
Theorem select_card_rejections env ws message S :
  Message.type message = select_card →
  (∀ r room, player_in S ws r room → Room.state room ≠ voting →
     handleMessage env ws message S = Some (Returned, S, []))
  ∧ (isValidCard (Message.card message) = false
     ↔ Message.card message ≠ JNull
       ∧ ∀ s, s ∈ CARD_VALUES → Message.card message ≠ JStr s)
  ∧ (isValidCard (Message.card message) = false →
     (∀ r room, player_in S ws r room → Room.state room = voting →
        handleMessage env ws message S
        = Some (Returned, S, [Send ws (error "Invalid card value")]))
     ∧ ((∀ r room, player_in S ws r room → Room.state room ≠ voting) →
        handleMessage env ws message S = Some (Returned, S, []))
     ∧ ∃ out, handleMessage env ws message S = Some (Returned, S, out)
              ∧ (out = [] ∨ out = [Send ws (error "Invalid card value")])).
Proof.
  intros Hty. split; [|split].
  - intros r room Hin Hst. by eapply select_card_not_voting.
  - apply isValidCard_false.
  - intros Hcard. split; [|split].
    + intros r room Hin Hst. by eapply select_card_invalid.
    + intros Hno. unfold handleMessage, case_select_card, ignore.
      rewrite Hty. destruct (players S !! ws) as [r|] eqn:Hp; [|done].
      destruct (rooms S !! Player.roomCode (deref (heap S) r))
        as [room|] eqn:Hroom; [|done].
      rewrite bool_decide_eq_false_2; [done|].
      by apply (Hno r room).
    + unfold handleMessage, case_select_card, ignore, reply. rewrite Hty, Hcard.
      repeat case_match; try done; eauto.
Qed.

Lemma select_card_rejections_witness :
  handleMessage (env_of [] "-" "-") 1%nat (msg_select (JStr (js "99")))
                (ann_bob voting JNull)
  = Some (Returned, ann_bob voting JNull,
          [Send 1%nat (error "Invalid card value")])
  ∧ handleMessage (env_of [] "-" "-") 7%nat (msg_select (JStr (js "99")))
                  (ann_bob voting JNull)
    = Some (Returned, ann_bob voting JNull, [])
  ∧ handleMessage (env_of [] "-" "-") 1%nat (msg_select (JStr (js "99")))
                  (ann_bob revealed JNull)
    = Some (Returned, ann_bob revealed JNull, []).
Proof.
  split; [|split].
  - destruct (select_card_rejections (env_of [] "-" "-") 1%nat
                (msg_select (JStr (js "99"))) (ann_bob voting JNull) eq_refl)
      as (_ & _ & H).
    destruct (H eq_refl) as [H' _].
    apply (H' 1%nat (Room.mk voting [(0, 0); (1, 1)]%nat 0)).
    + split; reflexivity.
    + reflexivity.
  - destruct (select_card_rejections (env_of [] "-" "-") 7%nat
                (msg_select (JStr (js "99"))) (ann_bob voting JNull) eq_refl)
      as (_ & _ & H).
    destruct (H eq_refl) as (_ & H' & _).
    apply H'. intros r room [Hp _]. vm_compute in Hp. discriminate.
  - destruct (select_card_rejections (env_of [] "-" "-") 1%nat
                (msg_select (JStr (js "99"))) (ann_bob revealed JNull) eq_refl)
      as (H & _).
    apply (H 1%nat (Room.mk revealed [(0, 0); (1, 1)]%nat 0)).
    + split; reflexivity.
    + discriminate.
Defined.

(** The claim as the specification states it (an error reply for a
    [select_card] outside [voting] state) fails: in the example room in
    [waiting] state, Bob's [select_card] gets no reply at all. *)
Lemma select_card_outside_voting_no_error :
  ¬ (∀ env ws message S r room,
       Message.type message = select_card →
       player_in S ws r room →
       Room.state room ≠ voting →
       ∃ c S1 out text,
         handleMessage env ws message S = Some (c, S1, out)
         ∧ Send ws (error text) ∈ out).
Proof.
  intros H.
  destruct (H (env_of [] "-" "-") 1%nat (msg_select (JStr (js "5")))
              (ann_bob waiting JNull) 1%nat
              (Room.mk waiting [(0, 0); (1, 1)]%nat 0))
    as (c & S1 & out & text & Hrun & Hin).
  - reflexivity.
  - split; reflexivity.
  - discriminate.
  - vm_compute in Hrun. injection Hrun as _ _ <-.
    by apply elem_of_nil in Hin.
Qed.

(** ** Room state transitions *)

Lemma handleMessage_state env ws message S c S1 out code room room1 :
  handleMessage env ws message S = Some (c, S1, out) →
  rooms S !! code = Some room →
  rooms S1 !! code = Some room1 →
  Room.state room1 = Room.state room
  ∨ (host_of S ws code
     ∧ (Message.type message = start_round ∧ Room.state room1 = voting
        ∨ Message.type message = reveal_cards ∧ Room.state room1 = revealed
        ∨ Message.type message = reset_round ∧ Room.state room1 = waiting)).
Proof.
  intros H Hroom Hroom1. unfold_handlers.
  repeat case_match; simplify_eq; cbn [rooms rooms_get] in *;
    try (left; congruence).
  all: apply lookup_insert_Some in Hroom1 as [[<- <-]|[Hne Hroom1]];
    try (left; congruence).
  all: try match goal with
           | Hg : generateRoomCode _ _ = Some _ |- _ =>
               apply generateRoomCode_fresh in Hg; congruence
           end.
  all: try (left; cbn; congruence).
  all: right; split;
    [eexists; split; [done|]; split; [by apply negb_false_iff|done]|];
    cbn; tauto.
Qed.

Lemma host_command_sets_state env ws message S code room target :
  host_of S ws code →
  rooms S !! code = Some room →
  (Message.type message = start_round ∧ target = voting
   ∨ Message.type message = reveal_cards ∧ target = revealed
   ∨ Message.type message = reset_round ∧ target = waiting) →
  ∃ S1 out,
    handleMessage env ws message S = Some (Returned, S1, out)
    ∧ rooms S1 = <[code := Room.set_state target room]> (rooms S).
Proof.
  intros (r & Hp & Hhost & <-) Hroom Hty. unfold_handlers.
  destruct Hty as [[-> ->]|[[-> ->]|[-> ->]]];
    rewrite Hp, Hhost, Hroom; cbn; eauto.
Qed.

(** C4, as the code has it.  A message changes the state of a room only
    if it is [start_round], [reveal_cards] or [reset_round] from the
    room's host, and then the new state is [voting], [revealed] or
    [waiting] respectively; the handlers do not look at the state the
    room was in, so each of the three commands takes effect from every
    state.  A disconnect changes no room's state. *)
Theorem host_commands_set_state env ws message S :
  (∀ c S1 out code room room1,
     handleMessage env ws message S = Some (c, S1, out) →
     rooms S !! code = Some room →
     rooms S1 !! code = Some room1 →
     Room.state room1 = Room.state room
     ∨ (host_of S ws code
        ∧ (Message.type message = start_round ∧ Room.state room1 = voting
           ∨ Message.type message = reveal_cards
             ∧ Room.state room1 = revealed
           ∨ Message.type message = reset_round
             ∧ Room.state room1 = waiting)))
  ∧ (∀ code room target,
       host_of S ws code →
       rooms S !! code = Some room →
       (Message.type message = start_round ∧ target = voting
        ∨ Message.type message = reveal_cards ∧ target = revealed
        ∨ Message.type message = reset_round ∧ target = waiting) →
       ∃ S1 out,
         handleMessage env ws message S = Some (Returned, S1, out)
         ∧ rooms S1 = <[code := Room.set_state target room]> (rooms S))
  ∧ (∀ code room1,
       rooms (on_close env ws S).1 !! code = Some room1 →
       ∃ room, rooms S !! code = Some room
               ∧ Room.state room1 = Room.state room).
Proof.
  split; [|split].
  - intros. by eapply handleMessage_state.
  - intros. by eapply host_command_sets_state.
  - apply on_close_rooms.
Qed.

Lemma host_commands_set_state_witness :
  ∃ S1 out,
    handleMessage (env_of [] "-" "-") 0%nat (msg start_round)
                  (ann_bob revealed (JStr (js "5")))
    = Some (Returned, S1, out)
    ∧ rooms S1 = {[ js "AAAA" := Room.mk voting [(0, 0); (1, 1)]%nat 0 ]}.
Proof.
  destruct (host_commands_set_state (env_of [] "-" "-") 0%nat
              (msg start_round) (ann_bob revealed (JStr (js "5"))))
    as (_ & H & _).
  destruct (H (js "AAAA") (Room.mk revealed [(0, 0); (1, 1)]%nat 0) voting)
    as (S1 & out & Hrun & Hrooms).
  - exists 0%nat. repeat split; reflexivity.
  - reflexivity.
  - left. split; reflexivity.
  - exists S1, out. split; [exact Hrun|]. rewrite Hrooms.
    apply insert_singleton_eq.
Defined.

(** The cycle the specification states fails: in the example room in
    [waiting] state, the host's [reveal_cards] takes the room straight to
    [revealed]. *)
Lemma waiting_to_revealed :
  ¬ (∀ env ws message S c S1 out code room room1,
       handleMessage env ws message S = Some (c, S1, out) →
       rooms S !! code = Some room →
       rooms S1 !! code = Some room1 →
       Room.state room1 ≠ Room.state room →
       Room.state room = waiting ∧ Room.state room1 = voting
       ∨ Room.state room = voting ∧ Room.state room1 = revealed
       ∨ Room.state room = revealed ∧ Room.state room1 = waiting).
Proof.
  intros H.
  destruct (handleMessage (env_of [] "-" "-") 0%nat (msg reveal_cards)
              (ann_bob waiting JNull)) as [[[c S1] out]|] eqn:Hrun;
    [|vm_compute in Hrun; discriminate].
  destruct (H _ _ _ _ _ _ _ (js "AAAA")
              (Room.mk waiting [(0, 0); (1, 1)]%nat 0)
              (Room.mk revealed [(0, 0); (1, 1)]%nat 0) Hrun)
    as [[_ Hs]|[[Hs _]|[Hs _]]]; try discriminate; try reflexivity.
  vm_compute in Hrun. injection Hrun as _ <- _. reflexivity.
Qed.

(** ** An accepted [select_card] *)

Section SelectCard.
Context (env : Env) (ws : conn) (message : Message.t) (S : Server).
Context (r : ref) (room : Room.t).
Hypothesis Hty : Message.type message = select_card.
Hypothesis Hin : player_in S ws r room.
Hypothesis Hst : Room.state room = voting.
Hypothesis Hcard : isValidCard (Message.card message) = true.
Hypothesis Hr : (r < length (heap S))%nat.

Let player := deref (heap S) r.
Let code := Player.roomCode player.
Let S1 := with_card S r (Message.card message).

Lemma select_card_accepted :
  handleMessage env ws message S
  = Some (Returned, S1,
          broadcastToRoom env S1 code
            (player_selected (Player.id player) (getRoomState S1 code false))
            None).
Proof.
  destruct Hin as [Hp Hroom]. unfold handleMessage, case_select_card.
  rewrite Hty, Hp, Hroom, Hcard. by rewrite bool_decide_eq_true_2.
Qed.

Lemma select_card_stored :
  Player.selectedCard (deref (heap S1) r) = Message.card message.
Proof.
  unfold S1, with_card, deref. cbn [heap].
  by rewrite list_lookup_total_insert_eq.
Qed.

Lemma select_card_others r' :
  r' ≠ r → deref (heap S1) r' = deref (heap S) r'.
Proof.
  intros Hne. unfold S1, with_card, deref. cbn [heap].
  by rewrite list_lookup_total_insert_ne.
Qed.

Lemma select_card_snapshot :
  getRoomState S1 code false
  = Some (RoomSnapshot.mk code voting
            (map (λ e, player_view false room (deref (heap S1) e.2))
                 (Room.players room))
            CARD_VALUES).
Proof.
  destruct Hin as [_ Hroom].
  rewrite (getRoomState_Some S1 code room); [by rewrite Hst|done].
Qed.

Lemma select_card_own_entry i w :
  Room.players room !! i = Some (w, r) →
  map (λ e, player_view false room (deref (heap S1) e.2)) (Room.players room)
  !! i
  = Some (PlayerView.mk (Player.id player) (Player.name player)
            (Player.isHost player)
            (bool_decide (Message.card message ≠ JNull)) JNull).
Proof.
  intros Hi. rewrite list_lookup_fmap, Hi. cbn.
  rewrite list_lookup_total_insert_eq by done.
  unfold player_view. cbn. by rewrite Hst.
Qed.

Lemma select_card_other_entry i w r' :
  Room.players room !! i = Some (w, r') → r' ≠ r →
  map (λ e, player_view false room (deref (heap S1) e.2)) (Room.players room)
  !! i
  = Some (player_view false room (deref (heap S) r')).
Proof.
  intros Hi Hne. rewrite list_lookup_fmap, Hi. cbn.
  by rewrite list_lookup_total_insert_ne.
Qed.
End SelectCard.

(** C8.  While a room is not [revealed], whatever a [select_card] makes
    the server send hides every card.  When the card is accepted (room
    in [voting] state, valid card), the [player_selected] broadcast goes
    to every open member connection, the sender's included, and its
    snapshot has [card = null] in every entry: in the entry of the player
    who selected too, where [hasSelected] alone tells that a card was
    chosen; the entries of the other players are as before. *)
Theorem own_card_hidden env ws message S r room :
  Message.type message = select_card →
  player_in S ws r room →
  Room.state room ≠ revealed →
  (r < length (heap S))%nat →
  let player := deref (heap S) r in
  let code := Player.roomCode player in
  let S1 := with_card S r (Message.card message) in
  (∀ c S' out w m snap,
     handleMessage env ws message S = Some (c, S', out) →
     Send w m ∈ out → snapshot_of m = Some snap → cards_hidden snap)
  ∧ (Room.state room = voting →
     isValidCard (Message.card message) = true →
     ∃ snap,
       getRoomState S1 code false = Some snap
       ∧ handleMessage env ws message S
         = Some (Returned, S1,
                 broadcastToRoom env S1 code
                   (player_selected (Player.id player) (Some snap)) None)
       ∧ cards_hidden snap
       ∧ (∀ i w, Room.players room !! i = Some (w, r) →
            RoomSnapshot.players snap !! i
            = Some (PlayerView.mk (Player.id player) (Player.name player)
                      (Player.isHost player)
                      (bool_decide (Message.card message ≠ JNull)) JNull))
       ∧ (∀ i w r', Room.players room !! i = Some (w, r') → r' ≠ r →
            RoomSnapshot.players snap !! i
            = Some (player_view false room (deref (heap S) r')))
       ∧ (∀ w r', (w, r') ∈ Room.players room → readyState env w = 1%nat →
            Send w (player_selected (Player.id player) (Some snap))
            ∈ broadcastToRoom env S1 code
                (player_selected (Player.id player) (Some snap)) None)).
Proof.
  intros Hty Hin Hrev Hr player code S1. split.
  - intros c S' out w m snap Hrun Hsent Hsnap.
    destruct (decide (Room.state room = voting)) as [Hst|Hst];
      [destruct (isValidCard (Message.card message)) eqn:Hcard|].
    + rewrite (select_card_accepted env ws message S r room) in Hrun by done.
      injection Hrun as _ <- <-. apply broadcast_elem in Hsent as ->.
      cbn in Hsnap. eapply getRoomState_hidden; [done|].
      rewrite (select_card_snapshot ws message S r room) in Hsnap by done.
      by injection Hsnap as <-.
    + rewrite (select_card_invalid env ws message S r room) in Hrun by done.
      injection Hrun as _ <- <-. apply list_elem_of_singleton in Hsent.
      injection Hsent as _ ->. done.
    + rewrite (select_card_not_voting env ws message S r room) in Hrun by done.
      injection Hrun as _ <- <-. by apply elem_of_nil in Hsent.
  - intros Hst Hcard.
    pose proof (select_card_snapshot ws message S r room Hin Hst) as Hsnap.
    eexists. split; [exact Hsnap|]. split; [|split; [|split; [|split]]].
    + rewrite (select_card_accepted env ws message S r room) by done.
      by rewrite Hsnap.
    + eapply getRoomState_hidden; [exact Hsnap|done].
    + intros i w Hi. by eapply select_card_own_entry.
    + intros i w r' Hi Hne. by eapply select_card_other_entry.
    + intros w r' Hmem Hopen. destruct Hin as [_ Hroom].
      by eapply broadcast_delivers.
Qed.

Lemma own_card_hidden_witness :
  ∃ snap,
    getRoomState (ann_bob voting (JStr (js "5"))) (js "AAAA") false = Some snap
    ∧ RoomSnapshot.players snap !! 1%nat
      = Some (PlayerView.mk (js "id-bob") (js "Bob") false true JNull)
    ∧ Send 1%nat (player_selected (js "id-bob") (Some snap))
      ∈ broadcastToRoom (env_of [] "-" "-") (ann_bob voting (JStr (js "5")))
          (js "AAAA") (player_selected (js "id-bob") (Some snap)) None.
Proof.
  destruct (own_card_hidden (env_of [] "-" "-") 1%nat
              (msg_select (JStr (js "5"))) (ann_bob voting JNull) 1%nat
              (Room.mk voting [(0, 0); (1, 1)]%nat 0)) as [_ H].
  - reflexivity.
  - split; reflexivity.
  - discriminate.
  - simpl. lia.
  - destruct (H eq_refl eq_refl) as (snap & Hsnap & _ & _ & Hown & _ & Hsend).
    exists snap. split; [exact Hsnap|]. split.
    + exact (Hown 1%nat 1%nat eq_refl).
    + apply (Hsend 1%nat 1%nat); [|reflexivity].
      right. left.
Defined.

(** C9.  [null] is a valid card.  A [select_card] with [card = null]
    from a player of a room in [voting] state is accepted: the player's
    [selectedCard] becomes [null], and the snapshot that is broadcast
    shows [hasSelected = false] (and [card = null]) for that player. *)
Theorem retract_selection env ws message S r room :
  Message.type message = select_card →
  Message.card message = JNull →
  player_in S ws r room →
  Room.state room = voting →
  (r < length (heap S))%nat →
  let player := deref (heap S) r in
  let code := Player.roomCode player in
  let S1 := with_card S r JNull in
  isValidCard (Message.card message) = true
  ∧ Player.selectedCard (deref (heap S1) r) = JNull
  ∧ ∃ snap,
      getRoomState S1 code false = Some snap
      ∧ handleMessage env ws message S
        = Some (Returned, S1,
                broadcastToRoom env S1 code
                  (player_selected (Player.id player) (Some snap)) None)
      ∧ ∀ i w, Room.players room !! i = Some (w, r) →
          ∃ v, RoomSnapshot.players snap !! i = Some v
               ∧ PlayerView.id v = Player.id player
               ∧ PlayerView.hasSelected v = false
               ∧ PlayerView.card v = JNull.
Proof.
  intros Hty Hnull Hin Hst Hr player code S1.
  assert (Hcard : isValidCard (Message.card message) = true)
    by (by rewrite Hnull).
  split; [done|]. split.
  { unfold S1, with_card, deref. cbn [heap].
    by rewrite list_lookup_total_insert_eq. }
  pose proof (select_card_snapshot ws message S r room Hin Hst) as Hsnap.
  pose proof (select_card_accepted env ws message S r room Hty Hin Hst Hcard)
    as Hrun.
  rewrite Hsnap in Hrun. rewrite Hnull in Hsnap, Hrun.
  eexists. split; [exact Hsnap|]. split; [exact Hrun|].
  intros i w Hi.
  pose proof (select_card_own_entry message S r room Hst Hr i w Hi) as Hown.
  rewrite Hnull in Hown. eexists. split; [exact Hown|]. done.
Qed.

Lemma retract_selection_witness :
  ∃ snap,
    handleMessage (env_of [] "-" "-") 1%nat (msg_select JNull)
                  (ann_bob voting (JStr (js "5")))
    = Some (Returned, ann_bob voting JNull,
            [Send 0%nat (player_selected (js "id-bob") (Some snap));
             Send 1%nat (player_selected (js "id-bob") (Some snap))])
    ∧ RoomSnapshot.players snap !! 1%nat
      = Some (PlayerView.mk (js "id-bob") (js "Bob") false false JNull).
Proof.
  destruct (retract_selection (env_of [] "-" "-") 1%nat (msg_select JNull)
              (ann_bob voting (JStr (js "5"))) 1%nat
              (Room.mk voting [(0, 0); (1, 1)]%nat 0))
    as (_ & _ & snap & Hsnap & Hrun & Hown).
  - reflexivity.
  - reflexivity.
  - split; reflexivity.
  - reflexivity.
  - simpl. lia.
  - exists snap. split.
    + exact Hrun.
    + destruct (Hown 1%nat 1%nat eq_refl) as (v & Hv & Hid & Hsel & Hc).
      rewrite Hv. f_equal. vm_compute in Hsnap. injection Hsnap as <-.
      vm_compute in Hv. by injection Hv as <-.
Defined.

(** ** Host authority *)

(** C2 fails on the code.  [join_room] does not check whether the
    connection already is a player: when the host of a room sends
    [join_room] for its own room, [room.players.set(ws, player)] replaces
    the host's entry by the new player, who is not host.  After Ann's
    [create_room] and [join_room] on one connection, both accepted by the
    rate limiter, room AAAA has one player and no host. *)
Theorem rejoin_leaves_room_without_host :
  ∃ S out room,
    run initial_server [ann_creates; ann_rejoins] = Some (S, out)
    ∧ (rate_limit_run new_connection [0; 1]).1 = [true; true]
    ∧ reachable S
    ∧ rooms S !! js "AAAA" = Some room
    ∧ Room.players room = [(0, 1)%nat]
    ∧ Player.isHost (deref (heap S) 1%nat) = false
    ∧ host_count S room = 0%nat
    ∧ ¬ single_host S.
Proof.
  destruct (run initial_server [ann_creates; ann_rejoins])
    as [[S out]|] eqn:Hrun; [|vm_compute in Hrun; discriminate].
  exists S, out, (Room.mk waiting [(0, 1)%nat] 0).
  assert (HS : rooms S !! js "AAAA" = Some (Room.mk waiting [(0, 1)%nat] 0)
               ∧ Player.isHost (deref (heap S) 1%nat) = false).
  { vm_compute in Hrun. injection Hrun as <- _. split; reflexivity. }
  destruct HS as [Hroom Hhost].
  assert (Hcount : host_count S (Room.mk waiting [(0, 1)%nat] 0) = 0%nat).
  { unfold host_count. cbn [Room.players].
    rewrite filter_cons_False; [done|]. cbn [snd]. by rewrite Hhost. }
  repeat split; try done.
  - by exists [ann_creates; ann_rejoins], out.
  - intros Hinv. specialize (Hinv _ _ Hroom). cbn [Room.players] in Hinv.
    rewrite Hcount in Hinv. by specialize (Hinv ltac:(done)).
Qed.

(** ** The single-host rule on the paths that keep it

    When every [create_room] and [join_room] comes from a connection
    that is not a player yet, every reachable state is [consistent], and
    so has exactly one host in each room. *)

Ltac srv := cbn [rooms players heap sessionTokens] in *.

Section Consistency.
Implicit Types (S : Server) (h : list Player.t) (ps : list (conn * ref)).

Lemma same_identity_refl h : same_identity h h.
Proof. by split. Qed.

Lemma same_identity_trans h1 h2 h3 :
  same_identity h1 h2 → same_identity h2 h3 → same_identity h1 h3.
Proof.
  intros [Hl1 H1] [Hl2 H2]. split; [congruence|].
  intros r. destruct (H1 r), (H2 r). split; congruence.
Qed.

Lemma same_identity_set_card h r c :
  same_identity h (<[r := Player.set_selectedCard c (deref h r)]> h).
Proof.
  split; [by rewrite length_insert|]. intros r'. unfold deref.
  destruct (decide (r' = r)) as [->|Hne].
  - destruct (decide (r < length h)%nat) as [Hlt|Hge].
    + by rewrite list_lookup_total_insert_eq.
    + by rewrite list_insert_ge by lia.
  - by rewrite list_lookup_total_insert_ne.
Qed.

Lemma same_identity_clear_votes ps h : same_identity h (clear_votes ps h).
Proof.
  unfold clear_votes. revert h. induction ps as [|e ps IH]; intros h.
  - apply same_identity_refl.
  - cbn [foldl]. eapply same_identity_trans; [|apply IH].
    apply same_identity_set_card.
Qed.

Lemma host_count_same S S1 room room1 :
  Room.players room1 = Room.players room →
  same_identity (heap S) (heap S1) →
  host_count S1 room1 = host_count S room.
Proof.
  intros Hps [_ Hid]. unfold host_count. rewrite Hps. f_equal.
  apply list_filter_iff. intros e. by destruct (Hid e.2) as [-> _].
Qed.

(** A step that leaves [players] and the member lists alone and changes
    the heap in the [selectedCard]s only keeps the state consistent. *)
Lemma consistent_same_shape S S1 :
  consistent S →
  players S1 = players S →
  same_identity (heap S) (heap S1) →
  (∀ code, Room.players <$> rooms S1 !! code
           = Room.players <$> rooms S !! code) →
  consistent S1.
Proof.
  intros [W1 W2 W3 W4 W5] Hp Hh Hr.
  assert (Hback : ∀ code room1, rooms S1 !! code = Some room1 →
            ∃ room, rooms S !! code = Some room
                    ∧ Room.players room1 = Room.players room).
  { intros code room1 H1. specialize (Hr code). rewrite H1 in Hr.
    destruct (rooms S !! code) as [room|]; [|done].
    injection Hr as Hr. eauto. }
  destruct Hh as [Hlen Hid]. split.
  - intros ws r Hws. rewrite Hp in Hws.
    destruct (W1 ws r Hws) as (Hlt & room & Hroom & Hin).
    split; [lia|]. destruct (Hid r) as [_ ->].
    specialize (Hr (Player.roomCode (deref (heap S) r))).
    rewrite Hroom in Hr.
    destruct (rooms S1 !! _) as [room1|]; [|done].
    injection Hr as Hr. exists room1. split; [done|]. by rewrite Hr.
  - intros code room1 ws r H1 Hin.
    destruct (Hback _ _ H1) as (room & Hroom & Hps). rewrite Hps in Hin.
    destruct (W2 _ _ _ _ Hroom Hin) as [Hws Hcode].
    rewrite Hp. split; [done|]. by destruct (Hid r) as [_ ->].
  - intros code room1 H1. destruct (Hback _ _ H1) as (room & Hroom & ->).
    by eapply W3.
  - intros code room1 H1. destruct (Hback _ _ H1) as (room & Hroom & ->).
    by eapply W4.
  - intros code room1 H1 Hne.
    destruct (Hback _ _ H1) as (room & Hroom & Hps).
    rewrite (host_count_same S S1 room room1) by done.
    apply (W5 code); [done|]. by rewrite <- Hps.
Qed.
Lemma deref_alloc_old h p r :
  (r < length h)%nat → deref (h ++ [p]) r = deref h r.
Proof. intros Hr. unfold deref. by rewrite lookup_total_app_l. Qed.

Lemma deref_alloc_new h p : deref (h ++ [p]) (length h) = p.
Proof. unfold deref. by rewrite list_lookup_total_middle. Qed.

Lemma host_count_frame S S1 room :
  (∀ ws r, (ws, r) ∈ Room.players room →
     Player.isHost (deref (heap S1) r) = Player.isHost (deref (heap S) r)) →
  host_count S1 room = host_count S room.
Proof.
  intros H. unfold host_count. f_equal.
  induction (Room.players room) as [|[ws r] ps IH]; [done|].
  rewrite !filter_cons. cbn [snd]. rewrite (H ws r) by left.
  rewrite IH; [done|]. intros ws' r' Hin. apply (H ws'). by right.
Qed.

Lemma entries_set_fresh {V} k (v : V) (l : list (conn * V)) :
  (∀ v', (k, v') ∉ l) → entries_set k v l = l ++ [(k, v)].
Proof.
  induction l as [|[k' v'] l IH]; intros Hk; [done|].
  cbn [entries_set]. case_decide as Heq.
  - subst k'. destruct (Hk v'). left.
  - cbn. rewrite IH; [done|]. intros v'' Hin. apply (Hk v''). by right.
Qed.

Lemma member_ref_valid S code room ws r :
  consistent S → rooms S !! code = Some room → (ws, r) ∈ Room.players room →
  (r < length (heap S))%nat.
Proof.
  intros [W1 W2 _ _ _] Hroom Hin.
  destruct (W2 _ _ _ _ Hroom Hin) as [Hws _]. by destruct (W1 _ _ Hws).
Qed.

Lemma not_member_if_unregistered S code room ws r :
  consistent S → players S !! ws = None →
  rooms S !! code = Some room → (ws, r) ∉ Room.players room.
Proof.
  intros [_ W2 _ _ _] Hnone Hroom Hin.
  destruct (W2 _ _ _ _ Hroom Hin) as [Hws _]. congruence.
Qed.

(** [create_room] from a connection that is not a player yet. *)
Lemma consistent_create S ws code p created :
  consistent S →
  players S !! ws = None →
  rooms S !! code = None →
  Player.isHost p = true → Player.roomCode p = code →
  ∀ tokens,
  consistent
    {| rooms := <[code := Room.mk waiting [(ws, length (heap S))] created]>
                (rooms S);
       players := <[ws := length (heap S)]> (players S);
       sessionTokens := tokens;
       heap := heap S ++ [p] |}.
Proof.
  intros HS Hws Hfree Hhost Hcode tokens.
  pose proof HS as [W1 W2 W3 W4 W5]. split; cbn [rooms players heap].
  - intros ws' r' H. srv. rewrite length_app. cbn [length].
    apply lookup_insert_Some in H as [[<- <-]|[Hne H]].
    + split; [lia|]. rewrite deref_alloc_new, Hcode, lookup_insert_eq.
      eexists. split; [done|]. left.
    + destruct (W1 _ _ H) as (Hlt & room & Hroom & Hin).
      split; [lia|]. rewrite deref_alloc_old by done.
      rewrite lookup_insert_ne by congruence. eauto.
  - intros code' room ws' r' Hroom Hin. srv.
    apply lookup_insert_Some in Hroom as [[<- <-]|[Hne Hroom]].
    + apply list_elem_of_singleton in Hin as [= -> ->].
      by rewrite lookup_insert_eq, deref_alloc_new.
    + destruct (W2 _ _ _ _ Hroom Hin) as [H1 H2].
      rewrite lookup_insert_ne by congruence. split; [done|].
      rewrite deref_alloc_old; [done|]. by destruct (W1 _ _ H1).
  - intros code' room Hroom. srv.
    apply lookup_insert_Some in Hroom as [[<- <-]|[Hne Hroom]];
      [|by eapply W3].
    cbn. apply NoDup_singleton.
  - intros code' room Hroom. srv.
    apply lookup_insert_Some in Hroom as [[<- <-]|[Hne Hroom]];
      [done|by eapply W4].
  - intros code' room Hroom Hne. srv.
    apply lookup_insert_Some in Hroom as [[<- <-]|[Hne' Hroom]].
    + unfold host_count. cbn [Room.players heap].
      rewrite filter_cons_True; [done|]. cbn [snd].
      by rewrite deref_alloc_new.
    + rewrite <- (W5 code' room Hroom Hne). apply host_count_frame.
      intros ws' r' Hin. cbn [heap]. rewrite deref_alloc_old; [done|].
      by eapply member_ref_valid.
Qed.
(** [join_room] from a connection that is not a player yet. *)
Lemma consistent_join S ws code room p :
  consistent S →
  players S !! ws = None →
  rooms S !! code = Some room →
  Player.isHost p = false → Player.roomCode p = code →
  ∀ tokens,
  consistent
    {| rooms := <[code := Room.set_players
                            (entries_set ws (length (heap S))
                                         (Room.players room)) room]>
                (rooms S);
       players := <[ws := length (heap S)]> (players S);
       sessionTokens := tokens;
       heap := heap S ++ [p] |}.
Proof.
  intros HS Hws Hroom Hhost Hcode tokens.
  pose proof HS as [W1 W2 W3 W4 W5].
  rewrite entries_set_fresh
    by (intros r; by eapply not_member_if_unregistered).
  split.
  - intros ws' r' H. srv. rewrite length_app. cbn [length].
    apply lookup_insert_Some in H as [[<- <-]|[Hne H]].
    + split; [lia|]. rewrite deref_alloc_new, Hcode, lookup_insert_eq.
      eexists. split; [done|]. cbn. apply elem_of_app. right. left.
    + destruct (W1 _ _ H) as (Hlt & room' & Hroom' & Hin).
      split; [lia|]. rewrite deref_alloc_old by done.
      destruct (decide (Player.roomCode (deref (heap S) r') = code))
        as [Heq|Hneq].
      * rewrite Heq in *. rewrite lookup_insert_eq.
        eexists. split; [done|]. cbn. apply elem_of_app. left. congruence.
      * rewrite lookup_insert_ne by done. eauto.
  - intros code' room' ws' r' Hroom' Hin. srv.
    assert (Hold : ∀ room0, rooms S !! code' = Some room0 →
              (ws', r') ∈ Room.players room0 →
              <[ws:=length (heap S)]> (players S) !! ws' = Some r'
              ∧ Player.roomCode (deref (heap S ++ [p]) r') = code').
    { intros room0 Hroom0 Hin0.
      destruct (W2 _ _ _ _ Hroom0 Hin0) as [H1 H2].
      rewrite lookup_insert_ne by congruence. split; [done|].
      rewrite deref_alloc_old; [done|]. by destruct (W1 _ _ H1). }
    apply lookup_insert_Some in Hroom' as [[<- <-]|[Hne Hroom']];
      [|by eapply Hold].
    cbn in Hin. apply elem_of_app in Hin as [Hin|Hin]; [by eapply Hold|].
    apply list_elem_of_singleton in Hin as [= -> ->].
    by rewrite lookup_insert_eq, deref_alloc_new.
  - intros code' room' Hroom'. srv.
    apply lookup_insert_Some in Hroom' as [[<- <-]|[Hne Hroom']];
      [|by eapply W3].
    cbn. rewrite fmap_app. apply NoDup_app. split; [by eapply W3|].
    split; [|apply NoDup_singleton].
    intros r' Hin Hnew. apply list_elem_of_singleton in Hnew. cbn in Hnew.
    subst r'. apply list_elem_of_fmap in Hin as ([ws' r'] & Heq & Hin).
    cbn in Heq. subst r'.
    pose proof (member_ref_valid _ _ _ _ _ HS Hroom Hin). lia.
  - intros code' room' Hroom'. srv.
    apply lookup_insert_Some in Hroom' as [[<- <-]|[Hne Hroom']];
      [|by eapply W4].
    cbn. by destruct (Room.players room).
  - intros code' room' Hroom' Hne. srv.
    assert (Hold : ∀ room0, rooms S !! code' = Some room0 →
              Room.players room0 ≠ [] →
              length (filter
                (λ e, Player.isHost (deref (heap S ++ [p]) e.2) = true)
                (Room.players room0)) = 1%nat).
    { intros room0 Hroom0 Hne0. rewrite <- (W5 code' room0 Hroom0 Hne0).
      apply (host_count_frame S (mkServer ∅ ∅ ∅ (heap S ++ [p])) room0).
      intros ws' r' Hin. cbn [heap]. rewrite deref_alloc_old; [done|].
      by eapply member_ref_valid. }
    apply lookup_insert_Some in Hroom' as [[<- <-]|[Hne' Hroom']];
      [|by apply Hold].
    unfold host_count. cbn [Room.players Room.set_players heap].
    rewrite filter_app, length_app, Hold; [|done|by eapply W4].
    rewrite filter_cons_False; [done|]. cbn [snd].
    rewrite deref_alloc_new, Hhost. done.
Qed.
Lemma entries_delete_elem {V} k (l : list (conn * V)) k' v :
  (k', v) ∈ entries_delete k l ↔ (k', v) ∈ l ∧ k' ≠ k.
Proof.
  unfold entries_delete. rewrite list_elem_of_filter. cbn. tauto.
Qed.

Lemma entries_delete_refs_NoDup k (l : list (conn * ref)) :
  NoDup l.*2 → NoDup (entries_delete k l).*2.
Proof.
  intros H. eapply sublist_NoDup; [exact H|].
  apply fmap_sublist, sublist_filter.
Qed.

Lemma refs_NoDup_key (l : list (conn * ref)) a b r :
  NoDup l.*2 → (a, r) ∈ l → (b, r) ∈ l → a = b.
Proof.
  induction l as [|[k v] l IH]; intros Hnd Ha Hb.
  - by apply elem_of_nil in Ha.
  - cbn in Hnd. apply NoDup_cons in Hnd as [Hv Hnd].
    apply elem_of_cons in Ha as [Ha|Ha]; apply elem_of_cons in Hb as [Hb|Hb];
      simplify_eq; try done.
    + destruct Hv. by apply (list_elem_of_fmap_2 snd _ (b, v)).
    + destruct Hv. by apply (list_elem_of_fmap_2 snd _ (a, v)).
    + by apply IH.
Qed.

Lemma filter_ext_in {A} (P Q : A → Prop) `{!∀ x, Decision (P x)}
    `{!∀ x, Decision (Q x)} (l : list A) :
  (∀ x, x ∈ l → (P x ↔ Q x)) → filter P l = filter Q l.
Proof.
  induction l as [|a l IH]; intros Hext; [done|].
  rewrite !filter_cons.
  rewrite IH by (intros x Hx; apply Hext; by right).
  apply decide_ext. apply Hext. left.
Qed.

Lemma two_elements_length {A} (l : list A) a b :
  NoDup l → a ∈ l → b ∈ l → a ≠ b → (2 ≤ length l)%nat.
Proof.
  intros Hnd Ha Hb Hne.
  assert (Hsub : [a; b] ⊆+ l).
  { apply NoDup_submseteq.
    - apply NoDup_cons. split; [|apply NoDup_singleton].
      by intros ->%list_elem_of_singleton.
    - intros x [->|[->|[]%elem_of_nil]%elem_of_cons]%elem_of_cons; done. }
  by apply submseteq_length in Hsub.
Qed.

(** The host's own entry is the only host entry of its room. *)
Lemma only_host S code room ws r ws' r' :
  consistent S →
  rooms S !! code = Some room →
  (ws, r) ∈ Room.players room →
  Player.isHost (deref (heap S) r) = true →
  (ws', r') ∈ Room.players room →
  Player.isHost (deref (heap S) r') = true →
  (ws', r') = (ws, r).
Proof.
  intros [W1 W2 W3 W4 W5] Hroom Hin Hhost Hin' Hhost'.
  destruct (decide ((ws', r') = (ws, r))) as [|Hne]; [done|exfalso].
  assert (Hcount : host_count S room = 1%nat).
  { apply (W5 code); [done|]. intros Hnil. rewrite Hnil in Hin.
    by apply elem_of_nil in Hin. }
  unfold host_count in Hcount.
  pose proof (two_elements_length
    (filter (λ e, Player.isHost (deref (heap S) e.2) = true)
            (Room.players room)) (ws', r') (ws, r)) as H2.
  rewrite Hcount in H2. enough (2 ≤ 1)%nat by lia. apply H2; try done.
  - apply NoDup_filter. eapply NoDup_fmap_1. by eapply W3.
  - by apply list_elem_of_filter.
  - by apply list_elem_of_filter.
Qed.
(** The state the close handler of a registered connection leaves. *)
Lemma on_close_registered env ws S r room :
  players S !! ws = Some r →
  rooms S !! Player.roomCode (deref (heap S) r) = Some room →
  (on_close env ws S).1
  = match entries_delete ws (Room.players room) with
    | [] =>
        {| rooms := delete (Player.roomCode (deref (heap S) r)) (rooms S);
           players := delete ws (players S);
           sessionTokens := sessionTokens S;
           heap := heap S |}
    | (newHostWs, newHost) :: rest =>
        {| rooms := <[Player.roomCode (deref (heap S) r) :=
                      Room.set_players ((newHostWs, newHost) :: rest) room]>
                    (rooms S);
           players := delete ws (players S);
           sessionTokens := sessionTokens S;
           heap := if Player.isHost (deref (heap S) r)
                   then <[newHost := Player.set_isHost true
                                       (deref (heap S) newHost)]> (heap S)
                   else heap S |}
    end.
Proof.
  intros Hws Hroom. unfold on_close. rewrite Hws, Hroom.
  destruct (entries_delete ws (Room.players room)) as [|[nw nr] rest];
    [done|].
  by destruct (Player.isHost (deref (heap S) r)).
Qed.

Lemma on_close_unregistered env ws S :
  players S !! ws = None → on_close env ws S = (S, []).
Proof. intros Hws. unfold on_close. by rewrite Hws. Qed.

Lemma consistent_close_last S ws r room :
  consistent S →
  players S !! ws = Some r →
  rooms S !! Player.roomCode (deref (heap S) r) = Some room →
  entries_delete ws (Room.players room) = [] →
  consistent
    {| rooms := delete (Player.roomCode (deref (heap S) r)) (rooms S);
       players := delete ws (players S);
       sessionTokens := sessionTokens S;
       heap := heap S |}.
Proof.
  intros HS Hws Hroom Hlast. pose proof HS as [W1 W2 W3 W4 W5].
  assert (Hother : ∀ code' room' ws' r',
            rooms S !! code' = Some room' → (ws', r') ∈ Room.players room' →
            ws' ≠ ws → code' ≠ Player.roomCode (deref (heap S) r)).
  { intros code' room' ws' r' Hroom' Hin Hne ->.
    assert (room' = room) as -> by congruence.
    assert (Hrem : (ws', r') ∈ entries_delete ws (Room.players room))
      by by apply entries_delete_elem.
    rewrite Hlast in Hrem. by apply elem_of_nil in Hrem. }
  assert (Hkey : ∀ code' room' ws' r',
            rooms S !! code' = Some room' → (ws', r') ∈ Room.players room' →
            code' ≠ Player.roomCode (deref (heap S) r) → ws' ≠ ws).
  { intros code' room' ws' r' Hroom' Hin Hne ->.
    destruct (W2 _ _ _ _ Hroom' Hin) as [H1 H2]. congruence. }
  split.
  - intros ws' r' H. srv. apply lookup_delete_Some in H as [Hne H].
    destruct (W1 _ _ H) as (Hlt & room' & Hroom' & Hin).
    split; [done|]. rewrite lookup_delete_ne; [by eauto|].
    intros Heq. by eapply (Hother _ _ _ _ Hroom' Hin).
  - intros code' room' ws' r' Hroom' Hin. srv.
    apply lookup_delete_Some in Hroom' as [Hne Hroom'].
    destruct (W2 _ _ _ _ Hroom' Hin) as [H1 H2].
    rewrite lookup_delete_ne; [done|]. intros Heq.
    by eapply (Hkey _ _ _ _ Hroom' Hin).
  - intros code' room' Hroom'. srv.
    apply lookup_delete_Some in Hroom' as [_ Hroom']. by eapply W3.
  - intros code' room' Hroom'. srv.
    apply lookup_delete_Some in Hroom' as [_ Hroom']. by eapply W4.
  - intros code' room' Hroom' Hne. srv.
    apply lookup_delete_Some in Hroom' as [_ Hroom']. by apply (W5 code').
Qed.
Lemma filter_none {A} (P : A → Prop) `{!∀ x, Decision (P x)} (l : list A) :
  (∀ x, x ∈ l → ¬ P x) → filter P l = [].
Proof.
  induction l as [|a l IH]; intros Hno; [done|].
  rewrite filter_cons_False by (apply Hno; left).
  apply IH. intros x Hx. apply Hno. by right.
Qed.

Lemma consistent_close_rest S ws r room newHostWs newHost rest :
  consistent S →
  players S !! ws = Some r →
  rooms S !! Player.roomCode (deref (heap S) r) = Some room →
  entries_delete ws (Room.players room) = (newHostWs, newHost) :: rest →
  consistent
    {| rooms := <[Player.roomCode (deref (heap S) r) :=
                  Room.set_players ((newHostWs, newHost) :: rest) room]>
                (rooms S);
       players := delete ws (players S);
       sessionTokens := sessionTokens S;
       heap := if Player.isHost (deref (heap S) r)
               then <[newHost := Player.set_isHost true
                                   (deref (heap S) newHost)]> (heap S)
               else heap S |}.
Proof.
  intros HS Hws Hroom Hrem. pose proof HS as [W1 W2 W3 W4 W5].
  assert (Hself : (ws, r) ∈ Room.players room).
  { destruct (W1 _ _ Hws) as (_ & room' & Hroom' & Hin). congruence. }
  remember (Player.roomCode (deref (heap S) r)) as code eqn:Hcode_def.
  set (h' := if Player.isHost (deref (heap S) r)
             then <[newHost := Player.set_isHost true
                                 (deref (heap S) newHost)]> (heap S)
             else heap S).
  assert (Hmem : ∀ ws' r', (ws', r') ∈ (newHostWs, newHost) :: rest
                 ↔ (ws', r') ∈ Room.players room ∧ ws' ≠ ws).
  { intros ws' r'. rewrite <- Hrem. apply entries_delete_elem. }
  assert (Hnew : (newHostWs, newHost) ∈ Room.players room ∧ newHostWs ≠ ws).
  { apply Hmem. left. }
  destruct Hnew as [Hnew Hnew_ne].
  assert (Hnew_lt : (newHost < length (heap S))%nat)
    by by eapply member_ref_valid.
  assert (Hnew_code : Player.roomCode (deref (heap S) newHost) = code)
    by by destruct (W2 _ _ _ _ Hroom Hnew).
  assert (Hlen : length h' = length (heap S)).
  { unfold h'. destruct (Player.isHost _); [by rewrite length_insert|done]. }
  assert (Hcode : ∀ x, Player.roomCode (deref h' x)
                       = Player.roomCode (deref (heap S) x)).
  { intros x. unfold h', deref. destruct (Player.isHost _); [|done].
    destruct (decide (x = newHost)) as [->|Hx].
    - by rewrite list_lookup_total_insert_eq.
    - by rewrite list_lookup_total_insert_ne. }
  assert (Hhost : ∀ x, x ≠ newHost →
            Player.isHost (deref h' x) = Player.isHost (deref (heap S) x)).
  { intros x Hx. unfold h', deref. destruct (Player.isHost _); [|done].
    by rewrite list_lookup_total_insert_ne. }
  assert (Hws_only : ∀ code' room' r',
            rooms S !! code' = Some room' → (ws, r') ∈ Room.players room' →
            code' = code ∧ r' = r).
  { intros code' room' r' Hroom' Hin.
    destruct (W2 _ _ _ _ Hroom' Hin) as [H1 H2].
    assert (r' = r) as -> by congruence. split; congruence. }
  split.
  - intros ws' r' H. srv. apply lookup_delete_Some in H as [Hne H].
    destruct (W1 _ _ H) as (Hlt & room' & Hroom' & Hin).
    split; [lia|]. rewrite Hcode.
    destruct (decide (Player.roomCode (deref (heap S) r') = code))
      as [Heq|Hneq].
    + rewrite Heq in *. rewrite lookup_insert_eq. eexists. split; [done|].
      cbn [Room.players Room.set_players]. apply Hmem.
      split; [congruence|done].
    + rewrite lookup_insert_ne by done. eauto.
  - intros code' room' ws' r' Hroom' Hin. srv. rewrite Hcode.
    apply lookup_insert_Some in Hroom' as [[<- <-]|[Hne Hroom']].
    + cbn [Room.players Room.set_players] in Hin.
      apply Hmem in Hin as [Hin Hne].
      rewrite lookup_delete_ne by done. by eapply W2.
    + destruct (W2 _ _ _ _ Hroom' Hin) as [H1 H2].
      rewrite lookup_delete_ne; [done|]. intros <-.
      destruct (Hws_only _ _ _ Hroom' Hin). congruence.
  - intros code' room' Hroom'. srv.
    apply lookup_insert_Some in Hroom' as [[<- <-]|[Hne Hroom']];
      [|by eapply W3].
    cbn [Room.players Room.set_players]. rewrite <- Hrem.
    apply entries_delete_refs_NoDup. by eapply W3.
  - intros code' room' Hroom'. srv.
    apply lookup_insert_Some in Hroom' as [[<- <-]|[Hne Hroom']];
      [done|by eapply W4].
  - intros code' room' Hroom' Hne. srv.
    apply lookup_insert_Some in Hroom' as [[<- <-]|[Hne' Hroom']].
    + unfold host_count. cbn [Room.players Room.set_players heap].
      destruct (Player.isHost (deref (heap S) r)) eqn:Hr; fold h'.
      * assert (Hrest : filter
                  (λ e, Player.isHost (deref h' e.2) = true) rest = []).
        { apply filter_none. intros [ws' r'] Hin. cbn [snd].
          assert (Hin' : (ws', r') ∈ (newHostWs, newHost) :: rest)
            by by right.
          apply Hmem in Hin' as [Hin' Hne''].
          assert (r' ≠ newHost).
          { intros ->. assert (Hnd : NoDup ((newHostWs, newHost) :: rest).*2).
            { rewrite <- Hrem. apply entries_delete_refs_NoDup.
              by eapply W3. }
            cbn in Hnd. apply NoDup_cons in Hnd as [Hnd _]. apply Hnd.
            by apply (list_elem_of_fmap_2 snd _ (ws', newHost)). }
          rewrite Hhost by done. intros Hh.
          assert ((ws', r') = (ws, r)) by by eapply only_host.
          congruence. }
        rewrite filter_cons_True, Hrest; [done|]. cbn [snd].
        unfold h', deref. rewrite ?Hr. cbv iota.
        by rewrite list_lookup_total_insert_eq.
      * rewrite <- Hrem. unfold entries_delete, h'. rewrite ?Hr. cbv iota.
        rewrite list_filter_filter.
        rewrite <- (W5 code room Hroom) by by eapply W4.
        unfold host_count. f_equal. apply filter_ext_in.
        intros [ws' r'] Hin. cbn [fst snd]. split; [tauto|].
        intros Hh. split; [done|]. intros ->.
        destruct (Hws_only _ _ _ Hroom Hin) as [_ ->]. congruence.
    + rewrite <- (W5 code' room' Hroom' Hne).
      apply (host_count_frame S (mkServer ∅ ∅ ∅ h') room').
      intros ws' r' Hin. cbn [heap]. apply Hhost. intros ->.
      destruct (W2 _ _ _ _ Hroom' Hin) as [_ H2]. congruence.
Qed.
Lemma consistent_close env ws S :
  consistent S → consistent (on_close env ws S).1.
Proof.
  intros HS. destruct (players S !! ws) as [r|] eqn:Hws.
  - destruct (players_in_room S HS _ _ Hws) as (_ & room & Hroom & _).
    rewrite (on_close_registered env ws S r room) by done.
    destruct (entries_delete ws (Room.players room)) as [|[nw nr] rest] eqn:E.
    + by apply consistent_close_last with room.
    + by apply consistent_close_rest.
  - by rewrite on_close_unregistered.
Qed.

(** Every message but [create_room] and [join_room] leaves the member
    lists and the identity of the player objects alone. *)
Lemma handleMessage_keeps_shape env ws message S c S1 out :
  handleMessage env ws message S = Some (c, S1, out) →
  Message.type message ≠ create_room →
  Message.type message ≠ join_room →
  players S1 = players S
  ∧ same_identity (heap S) (heap S1)
  ∧ ∀ code, Room.players <$> rooms S1 !! code
            = Room.players <$> rooms S !! code.
Proof.
  intros H Hc Hj. unfold_handlers.
  repeat case_match; simplify_eq; srv;
    (split; [done|]);
    (split; [first [apply same_identity_refl
                   |apply same_identity_clear_votes
                   |apply same_identity_set_card]|]);
    try done.
  all: intros code;
    destruct (decide (Player.roomCode (deref (heap S) n) = code))
      as [<-|Hne];
    [rewrite lookup_insert_eq|by rewrite lookup_insert_ne].
  all: by match goal with
          | Hg : _ = Some ?t |- context [Room.set_state _ ?t] => rewrite Hg
          end.
Qed.

Lemma handleMessage_consistent env ws message S c S1 out :
  consistent S →
  first_join S (EvMessage env ws message) →
  handleMessage env ws message S = Some (c, S1, out) →
  consistent S1.
Proof.
  intros HS Hfirst H. cbn [first_join] in Hfirst.
  destruct (decide (Message.type message = create_room)) as [Hc|Hc].
  { specialize (Hfirst (or_introl Hc)).
    unfold handleMessage in H. rewrite Hc in H.
    unfold case_create_room, reply, alloc in H.
    repeat case_match; simplify_eq; try done.
    apply consistent_create; try done.
    by eapply generateRoomCode_fresh. }
  destruct (decide (Message.type message = join_room)) as [Hj|Hj].
  { specialize (Hfirst (or_intror Hj)).
    unfold handleMessage in H. rewrite Hj in H.
    unfold case_join_room, reply, alloc in H.
    repeat case_match; simplify_eq; try done.
    by apply consistent_join. }
  destruct (handleMessage_keeps_shape _ _ _ _ _ _ _ H Hc Hj)
    as (Hp & Hh & Hr).
  by eapply consistent_same_shape.
Qed.

Lemma step_consistent S e S1 out :
  consistent S → first_join S e → step S e = Some (S1, out) → consistent S1.
Proof.
  intros HS Hfirst. destruct e as [env ws message|env ws]; cbn [step].
  - destruct (handleMessage env ws message S) as [[[c S'] out']|] eqn:E;
      [|done].
    intros [= <- <-]. by eapply handleMessage_consistent.
  - intros [= H]. change S1 with (S1, out).1. rewrite <- H.
    by apply consistent_close.
Qed.

Lemma consistent_initial : consistent initial_server.
Proof.
  split; unfold initial_server; try (intros ? ? ? ? H; srv);
    try (intros ? ? H; srv); by rewrite ?lookup_empty in *.
Qed.

(** The single-host rule, for clients that join once per connection:
    whatever the events are otherwise, every room of the state reached
    has exactly one host. *)
Lemma run_consistent S es S1 out :
  consistent S → joins_once S es → run S es = Some (S1, out) →
  consistent S1.
Proof.
  revert S out. induction es as [|e es IH]; intros S out HS Hjoin Hrun.
  - by injection Hrun as <- _.
  - cbn [run joins_once] in *. destruct Hjoin as [Hfirst Hjoin].
    destruct (step S e) as [[S' out1]|] eqn:Hstep; [|done].
    destruct (run S' es) as [[S2 out2]|] eqn:Hrest; [|done].
    injection Hrun as <- _. eapply (IH S'); [|done..].
    by eapply step_consistent.
Qed.

Lemma single_host_if_joining_once es S out :
  joins_once initial_server es →
  run initial_server es = Some (S, out) →
  single_host S.
Proof.
  intros Hjoin Hrun. apply one_host.
  eapply run_consistent; [apply consistent_initial|done..].
Qed.
End Consistency.

(** * Further properties of the server *)

(** ** [sanitizeName]: what it keeps *)

Section SanitizeMore.
Implicit Types (s : jsstring) (c : N).

Lemma trim_start_id s :
  (∀ c, head s = Some c → is_js_space c = false) → trim_start s = s.
Proof.
  destruct s as [|c s]; [done|]. intros H. cbn. by rewrite (H c).
Qed.

Lemma trim_id s :
  (∀ c, head s = Some c → is_js_space c = false) →
  (∀ c, last s = Some c → is_js_space c = false) →
  trim s = s.
Proof.
  intros Hh Hl. unfold trim. rewrite (trim_start_id s) by done.
  rewrite (trim_start_id (reverse s)).
  - apply reverse_involutive.
  - intros c. rewrite head_reverse. apply Hl.
Qed.

Lemma trim_start_sublist s : trim_start s `sublist_of` s.
Proof.
  induction s as [|c s IH]; [done|]. cbn.
  destruct (is_js_space c); [by apply sublist_cons|done].
Qed.

Lemma sublist_reverse {A} (l k : list A) :
  l `sublist_of` k → reverse l `sublist_of` reverse k.
Proof.
  induction 1 as [|x l k _ IH|x l k _ IH]; [done| |].
  - rewrite !reverse_cons. by apply sublist_app.
  - rewrite reverse_cons. by apply sublist_inserts_r.
Qed.

Lemma trim_sublist s : trim s `sublist_of` s.
Proof.
  unfold trim. rewrite <- (reverse_involutive s) at 2.
  apply sublist_reverse. etrans; [apply trim_start_sublist|].
  apply sublist_reverse, trim_start_sublist.
Qed.

Lemma strip_tags_sublist s :
  strip_tags_spec s `sublist_of` s ∧ inside_tag_spec s `sublist_of` s.
Proof.
  induction s as [|c s [IH1 IH2]]; [done|].
  cbn [strip_tags_spec inside_tag_spec]. split.
  - case_decide; [case_bool_decide|].
    + by apply sublist_cons.
    + by apply sublist_skip.
    + by apply sublist_skip.
  - case_decide; by apply sublist_cons.
Qed.

Lemma strip_tags_id s : LT ∉ s → strip_tags_spec s = s.
Proof.
  induction s as [|c s IH]; [done|]. intros Hc.
  apply not_elem_of_cons in Hc as [Hne Hc].
  cbn [strip_tags_spec]. rewrite decide_False by done. by rewrite IH.
Qed.

Lemma replace_dangerous_id s :
  Forall (λ c, is_dangerous c = false) s → replace_dangerous s = s.
Proof.
  unfold replace_dangerous. induction 1 as [|c s Hc _ IH]; [done|].
  rewrite filter_cons_True by done. by rewrite IH.
Qed.

Lemma sublist_same_length {A} (l k : list A) :
  l `sublist_of` k → (length k ≤ length l)%nat → l = k.
Proof.
  induction 1 as [|x l k _ IH|x l k Hs IH]; intros Hlen; [done| |].
  - f_equal. apply IH. simpl in Hlen. lia.
  - apply sublist_length in Hs. simpl in Hlen. lia.
Qed.

Lemma trim_start_fixed s :
  trim_start s = s → ∀ c, head s = Some c → is_js_space c = false.
Proof.
  destruct s as [|c s]; [done|]. intros H c' [= <-].
  destruct (is_js_space c) eqn:E; [|done]. cbn in H. rewrite E in H.
  pose proof (sublist_length _ _ (trim_start_sublist s)) as Hl.
  rewrite H in Hl. simpl in Hl. lia.
Qed.

Lemma trim_fixed s :
  trim s = s →
  (∀ c, head s = Some c → is_js_space c = false)
  ∧ (∀ c, last s = Some c → is_js_space c = false).
Proof.
  unfold trim. intros H.
  assert (Hs : trim_start s = s).
  { apply sublist_same_length; [apply trim_start_sublist|].
    rewrite <- H at 1. rewrite length_reverse.
    etrans; [apply sublist_length, trim_start_sublist|].
    by rewrite length_reverse. }
  rewrite Hs in H. split; [by apply trim_start_fixed|].
  intros c Hc. apply (trim_start_fixed (reverse s)).
  - rewrite <- H at 2. by rewrite reverse_involutive.
  - by rewrite head_reverse.
Qed.

Lemma replace_dangerous_fixed s :
  replace_dangerous s = s → Forall (λ c, is_dangerous c = false) s.
Proof.
  intros H. rewrite <- H. unfold replace_dangerous.
  apply Forall_forall. intros c Hc. by apply list_elem_of_filter in Hc as [? _].
Qed.

(** The names [sanitizeName] returns unchanged are exactly the clean
    ones: 1 to 20 units, no white space at either end, and none of the
    thirteen characters of [dangerous_chars].  Any other string comes
    back shorter, or not at all. *)
Theorem sanitizeName_clean_id s :
  sanitizeName (JStr s) = Some s ↔ clean_name s.
Proof.
  split.
  - unfold sanitizeName. destruct s as [|c s]; [done|].
    remember (c :: s) as t eqn:Ht.
    case_decide as Hlen; [|done]. intros [= H].
    rewrite replace_tags_spec in H.
    pose proof (trim_sublist t) as HA.
    pose proof (proj1 (strip_tags_sublist (trim t))) as HB.
    pose proof (sublist_filter (λ c, is_dangerous c = false)
                  (strip_tags_spec (trim t))) as HC.
    fold (replace_dangerous (strip_tags_spec (trim t))) in HC.
    pose proof (sublist_take
                  (replace_dangerous (strip_tags_spec (trim t)))
                  MAX_NAME_LENGTH) as HD.
    rewrite H in HD.
    assert (HC' : replace_dangerous (strip_tags_spec (trim t)) = t).
    { symmetry. apply sublist_same_length; [done|].
      apply sublist_length.
      etrans; [exact HC|]. etrans; [exact HB|]. exact HA. }
    rewrite HC' in H, HC.
    assert (HB' : strip_tags_spec (trim t) = t).
    { symmetry. apply sublist_same_length; [done|].
      apply sublist_length. etrans; [exact HB|]. exact HA. }
    rewrite HB' in HB, HC'.
    assert (HA' : trim t = t).
    { symmetry. apply sublist_same_length; [done|]. by apply sublist_length. }
    destruct (trim_fixed t HA') as [Hh Hl].
    split; [|split; [|split]]; try done.
    + split; [subst t; simpl; lia|].
      apply (f_equal length) in H. rewrite length_take in H. lia.
    + by apply replace_dangerous_fixed.
  - intros ([Hlo Hhi] & Hd & Hh & Hl).
    destruct s as [|c s]; [simpl in Hlo; lia|].
    assert (Hlt : LT ∉ c :: s).
    { intros Hin. eapply Forall_forall in Hd; [|exact Hin].
      by vm_compute in Hd. }
    unfold sanitizeName.
    rewrite trim_id, replace_tags_spec, strip_tags_id, replace_dangerous_id
      by done.
    rewrite take_ge by done.
    rewrite decide_True; [done|simpl; lia].
Qed.

Lemma sanitizeName_clean_id_witness :
  sanitizeName (JStr (js "Ann B. 2")) = Some (js "Ann B. 2")
  ∧ ¬ clean_name (js "Ann (dev)").
Proof.
  split; [|intros H%sanitizeName_clean_id; vm_compute in H; discriminate].
  apply sanitizeName_clean_id. split; [|split; [|split]].
  - vm_compute. lia.
  - apply (bool_decide_unpack
             (Forall (λ c, is_dangerous c = false) (js "Ann B. 2"))).
    vm_compute. exact I.
  - intros c [= <-]. reflexivity.
  - intros c [= <-]. reflexivity.
Defined.

(** [sanitizeName] only ever deletes: the name it returns consists of
    units of the input, in their order. *)
Theorem sanitizeName_sublist s r :
  sanitizeName (JStr s) = Some r → r `sublist_of` s.
Proof.
  rewrite sanitizeName_refines. unfold sanitizeName_spec.
  destruct (sanitize_pipeline_spec s) as [|x r'] eqn:E; [done|].
  intros [= <-]. rewrite <- E. unfold sanitize_pipeline_spec.
  etrans; [apply sublist_take|]. etrans; [apply sublist_filter|].
  etrans; [apply strip_tags_sublist|]. apply trim_sublist.
Qed.

Lemma sanitizeName_sublist_witness :
  js "alert1 Bob" `sublist_of` js "<script>alert(1)</script> Bob ".
Proof.
  apply (sanitizeName_sublist (js "<script>alert(1)</script> Bob ")
           (js "alert1 Bob")).
  reflexivity.
Defined.
End SanitizeMore.

(** ** The rate limiter's memory *)

Lemma checkRateLimit_bounded now ws :
  (length (recorded ws) ≤ RATE_LIMIT_MAX_MESSAGES)%nat →
  (length (recorded (checkRateLimit now ws).2) ≤ RATE_LIMIT_MAX_MESSAGES)%nat.
Proof.
  intros Hlen. rewrite checkRateLimit_stamps. cbv zeta.
  destruct (checkRateLimit now ws).1 eqn:E.
  - apply checkRateLimit_verdict in E. unfold count_in_window in E.
    rewrite length_app. simpl. lia.
  - etrans; [apply length_filter|done].
Qed.

Lemma checkRateLimit_recorded_from now ws t :
  t ∈ recorded (checkRateLimit now ws).2 → t = now ∨ t ∈ recorded ws.
Proof.
  rewrite checkRateLimit_stamps. cbv zeta.
  destruct (checkRateLimit now ws).1.
  - intros [H|H%list_elem_of_singleton]%elem_of_app; [|by left].
    right. by apply list_elem_of_filter in H as [_ ?].
  - intros H. right. by apply list_elem_of_filter in H as [_ ?].
Qed.

(** On a connection that starts empty, the timestamp list never holds
    more than 20 entries, and all of them are arrival times of messages
    of that connection. *)
Theorem rate_limit_memory_bounded (times : list Z) :
  (length (recorded (rate_limit_run new_connection times).2) ≤ 20)%nat
  ∧ ∀ t, t ∈ recorded (rate_limit_run new_connection times).2 → t ∈ times.
Proof.
  assert (Hgen : ∀ ws,
    (length (recorded ws) ≤ RATE_LIMIT_MAX_MESSAGES)%nat →
    (length (recorded (rate_limit_run ws times).2)
     ≤ RATE_LIMIT_MAX_MESSAGES)%nat
    ∧ ∀ t, t ∈ recorded (rate_limit_run ws times).2 →
           t ∈ times ∨ t ∈ recorded ws).
  { induction times as [|now times IH]; intros ws Hlen.
    - cbn. split; [done|]. by right.
    - cbn [rate_limit_run].
      pose proof (checkRateLimit_bounded now ws Hlen) as Hlen1.
      pose proof (checkRateLimit_recorded_from now ws) as Hfrom.
      destruct (checkRateLimit now ws) as [ok ws1]. cbn [snd] in *.
      destruct (IH ws1 Hlen1) as [IH1 IH2].
      destruct (rate_limit_run ws1 times) as [oks ws2]. cbn [snd] in *.
      split; [done|]. intros t Ht.
      destruct (IH2 t Ht) as [H|H]; [left; by right|].
      destruct (Hfrom t H) as [->|H']; [left; left|by right]. }
  destruct (Hgen new_connection) as [H1 H2]; [cbn; unfold_limits; lia|].
  split; [exact H1|]. intros t Ht.
  destruct (H2 t Ht) as [H|H]; [done|]. by apply elem_of_nil in H.
Qed.

(** After a pause of a full window the limiter has forgotten the
    connection's past: the message is accepted and the list holds its
    timestamp only. *)
Theorem rate_limit_forgets_after_pause now ws :
  Forall (λ t, 5000 ≤ now - t) (recorded ws) →
  checkRateLimit now ws
  = (true, mkWebSocket (Some [now]) (isAlive ws)).
Proof.
  intros Hold. unfold checkRateLimit.
  change (match messageTimestamps ws with Some l => l | None => [] end)
    with (recorded ws).
  rewrite filter_in_window.
  assert (Hnone : filter (λ t, now - t < RATE_LIMIT_WINDOW_MS) (recorded ws)
                  = []).
  { apply filter_none. intros t Ht.
    eapply Forall_forall in Hold; [|exact Ht]. unfold_limits. lia. }
  rewrite Hnone.
  rewrite decide_False; [done|]. cbn. unfold_limits. lia.
Qed.

Lemma rate_limit_forgets_after_pause_witness :
  checkRateLimit 6000 (mkWebSocket (Some (replicate 20 1000)) true)
  = (true, mkWebSocket (Some [6000]) true).
Proof.
  apply (rate_limit_forgets_after_pause 6000
           (mkWebSocket (Some (replicate 20 1000)) true)).
  cbn. repeat constructor; lia.
Defined.

(** ** Session expiry *)

(** [cleanupExpiredSessions] keeps exactly the sessions that are at most
    30 minutes old (a session of exactly that age stays), touches nothing
    but the session table, and a sweep makes every earlier sweep
    redundant; in particular sweeping twice is sweeping once. *)
Theorem cleanupExpiredSessions_sweep now now' S :
  now ≤ now' →
  (∀ tok d,
     sessionTokens (cleanupExpiredSessions now S) !! tok = Some d
     ↔ sessionTokens S !! tok = Some d
       ∧ now - Session.createdAt d ≤ 1800000)
  ∧ rooms (cleanupExpiredSessions now S) = rooms S
  ∧ players (cleanupExpiredSessions now S) = players S
  ∧ heap (cleanupExpiredSessions now S) = heap S
  ∧ cleanupExpiredSessions now' (cleanupExpiredSessions now S)
    = cleanupExpiredSessions now' S
  ∧ cleanupExpiredSessions now (cleanupExpiredSessions now S)
    = cleanupExpiredSessions now S.
Proof.
  intros Hle.
  assert (Hcomp : ∀ a b, a ≤ b →
            cleanupExpiredSessions b (cleanupExpiredSessions a S)
            = cleanupExpiredSessions b S).
  { intros a b Hab. unfold cleanupExpiredSessions. cbn [rooms players heap
      sessionTokens]. f_equal. rewrite map_filter_filter.
    apply map_filter_ext. intros tok d _. cbn. lia. }
  split; [|repeat split; try done; by apply Hcomp].
  intros tok d. unfold cleanupExpiredSessions. cbn [sessionTokens].
  rewrite map_lookup_filter_Some. cbn. unfold SESSION_TOKEN_EXPIRY_MS.
  split; intros [? ?]; (split; [done|lia]).
Qed.

Lemma cleanupExpiredSessions_sweep_witness :
  sessionTokens (cleanupExpiredSessions 1800000 (ann_bob waiting JNull))
  !! js "tok-ann"
  = Some (Session.mk (js "id-ann") (js "AAAA") (js "Ann") 0)
  ∧ sessionTokens (cleanupExpiredSessions 1800001 (ann_bob waiting JNull))
    !! js "tok-ann" = None.
Proof.
  split.
  - apply (cleanupExpiredSessions_sweep 1800000 1800000
             (ann_bob waiting JNull)); [lia|].
    split; [reflexivity|cbn; lia].
  - reflexivity.
Defined.

(** ** Replies and refusals *)

Lemma handleMessage_error_reply env ws message S c S1 out w text :
  handleMessage env ws message S = Some (c, S1, out) →
  Send w (error text) ∈ out →
  S1 = S ∧ w = ws ∧ out = [Send ws (error text)] ∧ c = Returned.
Proof.
  intros H Hin. unfold_handlers.
  repeat case_match; simplify_eq; sent_message Hin; done.
Qed.

(** Whenever the server answers a message with an error, that error is
    all it sends, it goes to the sender, and the rooms, players and
    sessions are exactly as before. *)
Theorem error_reply_means_no_change env now ws sock data S sock1 S1 out w text :
  on_message env now ws sock data S = Some (sock1, S1, out) →
  Send w (error text) ∈ out →
  S1 = S ∧ w = ws ∧ out = [Send ws (error text)].
Proof.
  rewrite on_message_gate. unfold rate_limit_reply, parse_and_handle.
  intros H Hin.
  destruct (checkRateLimit now sock).1; [|simplify_eq; by sent_message Hin].
  destruct data as [| |message]; try (simplify_eq; by sent_message Hin).
  destruct (handleMessage env ws message S) as [[[c S'] out']|] eqn:E;
    [|done].
  destruct c; simplify_eq.
  - by destruct (handleMessage_error_reply _ _ _ _ _ _ _ _ _ E Hin)
      as (-> & -> & -> & _).
  - apply elem_of_app in Hin as [Hin|Hin].
    + by destruct (handleMessage_error_reply _ _ _ _ _ _ _ _ _ E Hin)
        as (_ & _ & _ & ?).
    + apply list_elem_of_singleton in Hin. simplify_eq.
      unfold_handlers. repeat case_match; simplify_eq; done.
Qed.

Lemma error_reply_means_no_change_witness :
  on_message (env_of [] "-" "-") 0 1%nat new_connection
             (Parsed (msg_join "Bob" "ZZZZ")) (ann_bob waiting JNull)
  = Some (mkWebSocket (Some [0]) true, ann_bob waiting JNull,
          [Send 1%nat (error "Room not found")]).
Proof.
  destruct (on_message (env_of [] "-" "-") 0 1%nat new_connection
              (Parsed (msg_join "Bob" "ZZZZ")) (ann_bob waiting JNull))
    as [[[sock1 S1] out]|] eqn:E; [|vm_compute in E; discriminate].
  destruct (error_reply_means_no_change _ _ _ _ _ _ _ _ _ 1%nat
              "Room not found" E) as (-> & _ & ->).
  - vm_compute in E. injection E as _ _ <-. left.
  - assert (sock1 = mkWebSocket (Some [0]) true) as ->
      by (vm_compute in E; congruence).
    reflexivity.
Defined.

(** A host command from a connection that is not a player, or whose
    player is not host, is dropped: nothing changes and nothing is sent,
    not even an error. *)
Theorem host_commands_need_host env ws message S :
  host_command (Message.type message) →
  (∀ code, ¬ host_of S ws code) →
  handleMessage env ws message S = Some (Returned, S, []).
Proof.
  intros Hcmd Hno.
  assert (Hcase : players S !! ws = None
                  ∨ ∃ r, players S !! ws = Some r
                         ∧ Player.isHost (deref (heap S) r) = false).
  { destruct (players S !! ws) as [r|] eqn:Hws; [|by left]. right.
    exists r. split; [done|].
    destruct (Player.isHost (deref (heap S) r)) eqn:Hh; [|done].
    destruct (Hno (Player.roomCode (deref (heap S) r))). by exists r. }
  unfold_handlers.
  destruct Hcmd as [-> | [-> | [-> | ->]]];
    destruct Hcase as [-> | (r & -> & ->)]; done.
Qed.

Lemma host_commands_need_host_witness :
  handleMessage (env_of [] "-" "-") 1%nat (msg reveal_cards)
                (ann_bob voting (JStr (js "5")))
  = Some (Returned, ann_bob voting (JStr (js "5")), []).
Proof.
  apply host_commands_need_host.
  - right. by left.
  - intros code (r & Hr & Hhost & _). vm_compute in Hr.
    injection Hr as <-. vm_compute in Hhost. discriminate.
Defined.

(** A payload that cannot be handled as a message costs the sender one
    slot of the rate limiter like any other, is answered with
    [Invalid message format], and changes nothing in the server. *)
Theorem malformed_payload env now ws sock data S :
  malformed data →
  (count_in_window now sock < 20)%nat →
  on_message env now ws sock data S
  = Some ((checkRateLimit now sock).2, S,
          [Send ws (error "Invalid message format")])
  ∧ now ∈ recorded (checkRateLimit now sock).2.
Proof.
  intros Hbad Hcount. apply checkRateLimit_verdict in Hcount.
  split.
  - rewrite on_message_gate, Hcount. unfold parse_and_handle.
    destruct data as [| |message]; try done.
    destruct Hbad as [Hty Hcode].
    unfold handleMessage, case_join_room. rewrite Hty.
    by destruct (Message.roomCode message).
  - rewrite checkRateLimit_stamps, Hcount. cbv zeta.
    apply elem_of_app. right. left.
Qed.

Lemma malformed_payload_witness :
  on_message (env_of [] "-" "-") 7 1%nat new_connection
    (Parsed (Message.mk join_room (JStr (js "Bob")) (JNum 1234) JUndefined))
    initial_server
  = Some (mkWebSocket (Some [7]) true, initial_server,
          [Send 1%nat (error "Invalid message format")]).
Proof.
  apply (malformed_payload (env_of [] "-" "-") 7 1%nat new_connection
           (Parsed (Message.mk join_room (JStr (js "Bob")) (JNum 1234)
                               JUndefined)) initial_server).
  - split; [reflexivity|exact I].
  - vm_compute. lia.
Defined.

(** ** What holds in every reachable state *)

Section Soundness.
Implicit Types (S : Server) (h : list Player.t) (ps : list (conn * ref)).

Lemma set_card_null_twice (p : Player.t) :
  Player.set_selectedCard JNull (Player.set_selectedCard JNull p)
  = Player.set_selectedCard JNull p.
Proof. done. Qed.

Lemma deref_insert h r r' (p : Player.t) :
  deref (<[r := p]> h) r'
  = if decide (r' = r ∧ (r < length h)%nat) then p else deref h r'.
Proof.
  unfold deref. case_decide as Hd.
  - destruct Hd as [-> Hlt]. by rewrite list_lookup_total_insert_eq.
  - destruct (decide (r' = r)) as [->|Hne].
    + rewrite list_insert_ge; [done|]. lia.
    + by rewrite list_lookup_total_insert_ne.
Qed.

Lemma deref_out_of_range h r :
  (length h ≤ r)%nat → deref h r = inhabitant.
Proof.
  intros Hr. unfold deref. rewrite list_lookup_total_alt.
  by rewrite lookup_ge_None_2.
Qed.

Lemma deref_clear_one h r0 r :
  deref (<[r0 := Player.set_selectedCard JNull (deref h r0)]> h) r
  = if decide (r = r0)
    then Player.set_selectedCard JNull (deref h r) else deref h r.
Proof.
  rewrite deref_insert. destruct (decide (r = r0)) as [->|Hne].
  - destruct (decide (r0 < length h)%nat) as [Hlt|Hge].
    + by rewrite decide_True by (by split).
    + rewrite decide_False by (intros [_ ?]; lia).
      by rewrite deref_out_of_range by lia.
  - by rewrite decide_False by (by intros [? _]).
Qed.

(** [clear_votes], object by object: the members' cards become [null],
    everything else stays. *)
Lemma clear_votes_deref ps h r :
  deref (clear_votes ps h) r
  = if decide (r ∈ ps.*2)
    then Player.set_selectedCard JNull (deref h r) else deref h r.
Proof.
  unfold clear_votes. revert h. induction ps as [|[w r0] ps IH]; intros h.
  - cbn. rewrite decide_False; [done|]. apply not_elem_of_nil.
  - cbn [foldl fmap list_fmap snd]. rewrite IH, deref_clear_one.
    destruct (decide (r = r0)) as [->|Hne].
    + rewrite (decide_True (P := r0 ∈ r0 :: _)) by left. by case_decide.
    + case_decide as H1; case_decide as H2; try done.
      * destruct H2. by right.
      * apply elem_of_cons in H2 as [?|?]; done.
Qed.

Lemma clear_votes_length ps h : length (clear_votes ps h) = length h.
Proof. by destruct (same_identity_clear_votes ps h). Qed.

Lemma clear_votes_card ps h r :
  Player.selectedCard (deref (clear_votes ps h) r) = JNull
  ∨ ((r ∉ (ps.*2)) ∧ deref (clear_votes ps h) r = deref h r).
Proof. rewrite clear_votes_deref. case_decide; [by left|by right]. Qed.

Lemma heap_eq h h' :
  length h' = length h → (∀ r, deref h' r = deref h r) → h' = h.
Proof.
  intros Hlen Hd. apply list_eq_same_length with (length h); [done..|].
  intros i x y Hi Hx Hy. specialize (Hd i). unfold deref in Hd.
  rewrite !list_lookup_total_alt, Hx, Hy in Hd. done.
Qed.

Lemma clear_votes_idem ps h :
  clear_votes ps (clear_votes ps h) = clear_votes ps h.
Proof.
  apply heap_eq; [by rewrite !clear_votes_length|].
  intros r. rewrite !clear_votes_deref. by case_decide.
Qed.

Lemma Forall_deref (P : Player.t → Prop) h r :
  P inhabitant → Forall P h → P (deref h r).
Proof.
  intros Hd Hall. unfold deref. rewrite list_lookup_total_alt.
  destruct (h !! r) as [p|] eqn:E; [|done].
  eapply Forall_forall; [done|]. by eapply list_elem_of_lookup_2.
Qed.

Lemma Forall_heap (P : Player.t → Prop) h h' :
  length h' = length h → (∀ r, P (deref h' r)) → Forall P h'.
Proof.
  intros _ Hall. apply Forall_forall. intros p Hp.
  apply list_elem_of_lookup in Hp as [i Hi]. specialize (Hall i).
  unfold deref in Hall. by rewrite list_lookup_total_alt, Hi in Hall.
Qed.

Lemma clear_votes_valid ps h :
  Forall (λ p, isValidCard (Player.selectedCard p) = true) h →
  Forall (λ p, isValidCard (Player.selectedCard p) = true) (clear_votes ps h).
Proof.
  intros Hv. apply (Forall_heap _ h); [apply clear_votes_length|].
  intros r. destruct (clear_votes_card ps h r) as [->|[_ ->]]; [done|].
  by apply Forall_deref.
Qed.
Lemma sound_member_valid S code room ws r :
  sound S → rooms S !! code = Some room → (ws, r) ∈ Room.players room →
  (r < length (heap S))%nat.
Proof. intros HS Hroom Hin. by destruct (entries_valid S HS _ _ _ _ Hroom Hin). Qed.

Lemma sound_registered_valid S ws r :
  sound S → players S !! ws = Some r → (r < length (heap S))%nat.
Proof.
  intros HS Hws.
  destruct (registered_member S HS _ _ Hws) as (room & Hroom & Hin).
  by eapply sound_member_valid.
Qed.

(** A step that changes neither [players] nor any member list, and the
    heap in the cards only. *)
Lemma sound_same_shape S S1 :
  sound S →
  players S1 = players S →
  same_identity (heap S) (heap S1) →
  (∀ code, Room.players <$> rooms S1 !! code
           = Room.players <$> rooms S !! code) →
  (∀ code room1 ws r,
     rooms S1 !! code = Some room1 → Room.state room1 = waiting →
     (ws, r) ∈ Room.players room1 →
     Player.selectedCard (deref (heap S1) r) = JNull) →
  Forall (λ p, isValidCard (Player.selectedCard p) = true) (heap S1) →
  sound S1.
Proof.
  intros [G1 G2 G3 G4 G5 G6 G7 G8] Hp Hh Hr Hw Hv.
  assert (Hback : ∀ code room1, rooms S1 !! code = Some room1 →
            ∃ room, rooms S !! code = Some room
                    ∧ Room.players room1 = Room.players room).
  { intros code room1 H1. specialize (Hr code). rewrite H1 in Hr.
    destruct (rooms S !! code) as [room|]; [|done].
    injection Hr as Hr. eauto. }
  pose proof Hh as [Hlen Hid]. split; try done.
  - intros code room1 ws r H1 Hin.
    destruct (Hback _ _ H1) as (room & Hroom & Hps). rewrite Hps in Hin.
    destruct (G1 _ _ _ _ Hroom Hin) as [Hlt Hcode].
    split; [lia|]. by destruct (Hid r) as [_ ->].
  - intros code room1 H1. destruct (Hback _ _ H1) as (room & Hroom & ->).
    by eapply G2.
  - intros ws r Hws. rewrite Hp in Hws.
    destruct (G3 ws r Hws) as (room & Hroom & Hin).
    destruct (Hid r) as [_ ->].
    specialize (Hr (Player.roomCode (deref (heap S) r))).
    rewrite Hroom in Hr.
    destruct (rooms S1 !! _) as [room1|]; [|done].
    injection Hr as Hr. exists room1. split; [done|]. by rewrite Hr.
  - intros code room1 H1. destruct (Hback _ _ H1) as (room & Hroom & ->).
    by eapply G4.
  - assert (Hdom : dom (rooms S1) = dom (rooms S)).
    { apply set_eq. intros code. rewrite !elem_of_dom.
      specialize (Hr code).
      destruct (rooms S1 !! code), (rooms S !! code); try done;
        split; intros [? ?]; done. }
    by rewrite <- !size_dom, Hdom, size_dom.
  - intros code room1 H1. destruct (Hback _ _ H1) as (room & Hroom & Hps).
    rewrite (host_count_same S S1 room room1) by done. by eapply G6.
Qed.
Lemma sound_create S ws code p created tokens :
  sound S →
  rooms S !! code = None →
  (size (rooms S) < MAX_ROOMS)%nat →
  Player.isHost p = true → Player.roomCode p = code →
  Player.selectedCard p = JNull →
  sound
    {| rooms := <[code := Room.mk waiting [(ws, length (heap S))] created]>
                (rooms S);
       players := <[ws := length (heap S)]> (players S);
       sessionTokens := tokens;
       heap := heap S ++ [p] |}.
Proof.
  intros HS Hfree Hsize Hhost Hcode Hcard.
  pose proof HS as [G1 G2 G3 G4 G5 G6 G7 G8]. split.
  - intros code' room ws' r' Hroom Hin. srv. rewrite length_app. cbn [length].
    apply lookup_insert_Some in Hroom as [[<- <-]|[Hne Hroom]].
    + apply list_elem_of_singleton in Hin as [= -> ->].
      split; [lia|]. by rewrite deref_alloc_new.
    + destruct (G1 _ _ _ _ Hroom Hin) as [Hlt Hc].
      split; [lia|]. by rewrite deref_alloc_old.
  - intros code' room Hroom. srv.
    apply lookup_insert_Some in Hroom as [[<- <-]|[Hne Hroom]];
      [|by eapply G2].
    cbn. apply NoDup_singleton.
  - intros ws' r' H. srv.
    apply lookup_insert_Some in H as [[<- <-]|[Hne H]].
    + rewrite deref_alloc_new, Hcode, lookup_insert_eq.
      eexists. split; [done|]. left.
    + destruct (G3 _ _ H) as (room & Hroom & Hin).
      rewrite deref_alloc_old by by eapply sound_registered_valid.
      rewrite lookup_insert_ne by congruence. eauto.
  - intros code' room Hroom. srv.
    apply lookup_insert_Some in Hroom as [[<- <-]|[Hne Hroom]];
      [|by eapply G4].
    cbn. unfold_limits. lia.
  - srv. rewrite map_size_insert_None by done. unfold_limits. lia.
  - intros code' room Hroom. srv.
    apply lookup_insert_Some in Hroom as [[<- <-]|[Hne' Hroom]].
    + unfold host_count. cbn [Room.players heap].
      etrans; [apply length_filter|]. done.
    + etrans; [|by apply (G6 code' room)]. apply Nat.eq_le_incl.
      apply host_count_frame. intros ws' r' Hin. cbn [heap].
      rewrite deref_alloc_old; [done|]. by eapply sound_member_valid.
  - intros code' room ws' r' Hroom Hst Hin. srv.
    apply lookup_insert_Some in Hroom as [[<- <-]|[Hne Hroom]].
    + apply list_elem_of_singleton in Hin as [= -> ->].
      by rewrite deref_alloc_new.
    + rewrite deref_alloc_old by by eapply sound_member_valid.
      by eapply G7.
  - srv. apply Forall_app. split; [done|]. apply Forall_singleton.
    by rewrite Hcard.
Qed.

Lemma entries_set_elem {V} k (v : V) l k' v' :
  (k', v') ∈ entries_set k v l → (k', v') = (k, v) ∨ (k', v') ∈ l.
Proof.
  induction l as [|[k0 v0] l IH]; cbn [entries_set].
  - intros H%list_elem_of_singleton. by left.
  - case_decide as Hk.
    + intros [H|H]%elem_of_cons; [by left|right; by right].
    + intros [H|H]%elem_of_cons; [right; rewrite H; left|].
      destruct (IH H) as [?|?]; [by left|right; by right].
Qed.

Lemma entries_set_other {V} k (v : V) l k' v' :
  (k', v') ∈ l → k' ≠ k → (k', v') ∈ entries_set k v l.
Proof.
  induction l as [|[k0 v0] l IH]; cbn [entries_set]; intros Hin Hne.
  - by apply elem_of_nil in Hin.
  - apply elem_of_cons in Hin as [Hin|Hin]; case_decide as Hk.
    + simplify_eq.
    + rewrite Hin. left.
    + by right.
    + right. by apply IH.
Qed.

Lemma entries_set_self {V} k (v : V) l : (k, v) ∈ entries_set k v l.
Proof.
  induction l as [|[k0 v0] l IH]; cbn [entries_set]; [left|].
  case_decide; [left|by right].
Qed.

Lemma entries_set_length {V} k (v : V) l :
  (length l ≤ length (entries_set k v l) ≤ S (length l))%nat
  ∧ (1 ≤ length (entries_set k v l))%nat.
Proof.
  induction l as [|[k0 v0] l IH]; cbn [entries_set]; [cbn; lia|].
  case_decide; cbn; lia.
Qed.

Lemma entries_set_NoDup k (v : ref) (l : list (conn * ref)) :
  NoDup l.*2 → v ∉ l.*2 → NoDup (entries_set k v l).*2.
Proof.
  induction l as [|[k0 v0] l IH]; cbn [entries_set]; intros Hnd Hv.
  - cbn. apply NoDup_singleton.
  - cbn in Hnd, Hv. apply NoDup_cons in Hnd as [H0 Hnd].
    apply not_elem_of_cons in Hv as [Hne Hv].
    case_decide; cbn; apply NoDup_cons.
    + done.
    + split; [|by apply IH]. intros Hin.
      apply list_elem_of_fmap in Hin as ([k1 v1] & Heq & Hin). cbn in Heq.
      subst v1. apply entries_set_elem in Hin as [[= _ ->]|Hin]; [done|].
      apply H0. by apply (list_elem_of_fmap_2 snd _ (k1, v0)).
Qed.

Lemma entries_set_count {V} (P : conn * V → Prop) `{!∀ e, Decision (P e)}
    k (v : V) l :
  ¬ P (k, v) →
  (length (filter P (entries_set k v l)) ≤ length (filter P l))%nat.
Proof.
  intros Hv. induction l as [|[k0 v0] l IH]; cbn [entries_set].
  - by rewrite filter_cons_False.
  - case_decide.
    + rewrite filter_cons_False by done. rewrite filter_cons.
      case_decide; cbn; lia.
    + rewrite !(filter_cons _ (k0, v0)). case_decide; cbn; lia.
Qed.
Lemma sound_join S ws code room p tokens :
  sound S →
  rooms S !! code = Some room →
  (length (Room.players room) < MAX_PLAYERS_PER_ROOM)%nat →
  Player.isHost p = false → Player.roomCode p = code →
  Player.selectedCard p = JNull →
  sound
    {| rooms := <[code := Room.set_players
                            (entries_set ws (length (heap S))
                                         (Room.players room)) room]>
                (rooms S);
       players := <[ws := length (heap S)]> (players S);
       sessionTokens := tokens;
       heap := heap S ++ [p] |}.
Proof.
  intros HS Hroom Hfull Hhost Hcode Hcard.
  pose proof HS as [G1 G2 G3 G4 G5 G6 G7 G8].
  assert (Hold : ∀ ws' r', (ws', r') ∈ Room.players room →
            (r' < length (heap S))%nat
            ∧ deref (heap S ++ [p]) r' = deref (heap S) r').
  { intros ws' r' Hin. pose proof (sound_member_valid _ _ _ _ _ HS Hroom Hin).
    split; [done|]. by apply deref_alloc_old. }
  split.
  - intros code' room' ws' r' Hroom' Hin. srv.
    rewrite length_app. cbn [length].
    apply lookup_insert_Some in Hroom' as [[<- <-]|[Hne Hroom']].
    + cbn in Hin. apply entries_set_elem in Hin as [[= -> ->]|Hin].
      * split; [lia|]. by rewrite deref_alloc_new.
      * destruct (Hold _ _ Hin) as [Hlt ->]. split; [lia|].
        by destruct (G1 _ _ _ _ Hroom Hin).
    + destruct (G1 _ _ _ _ Hroom' Hin) as [Hlt Hc].
      split; [lia|]. by rewrite deref_alloc_old.
  - intros code' room' Hroom'. srv.
    apply lookup_insert_Some in Hroom' as [[<- <-]|[Hne Hroom']];
      [|by eapply G2].
    cbn [Room.players Room.set_players].
    apply entries_set_NoDup; [by eapply G2|].
    intros Hin. apply list_elem_of_fmap in Hin as ([ws' r'] & Heq & Hin).
    cbn in Heq. subst r'. destruct (Hold _ _ Hin). lia.
  - intros ws' r' H. srv.
    apply lookup_insert_Some in H as [[<- <-]|[Hne H]].
    + rewrite deref_alloc_new, Hcode, lookup_insert_eq.
      eexists. split; [done|]. apply entries_set_self.
    + destruct (G3 _ _ H) as (room' & Hroom' & Hin).
      rewrite deref_alloc_old by by eapply sound_registered_valid.
      destruct (decide (Player.roomCode (deref (heap S) r') = code))
        as [Heq|Hneq].
      * rewrite Heq in *. rewrite lookup_insert_eq.
        eexists. split; [done|]. cbn [Room.players Room.set_players].
        apply entries_set_other; [congruence|done].
      * rewrite lookup_insert_ne by done. eauto.
  - intros code' room' Hroom'. srv.
    apply lookup_insert_Some in Hroom' as [[<- <-]|[Hne Hroom']];
      [|by eapply G4].
    cbn [Room.players Room.set_players].
    pose proof (entries_set_length ws (length (heap S)) (Room.players room)).
    lia.
  - srv. rewrite map_size_insert_Some by done. done.
  - intros code' room' Hroom'. srv.
    apply lookup_insert_Some in Hroom' as [[<- <-]|[Hne' Hroom']].
    + unfold host_count. cbn [Room.players Room.set_players heap].
      etrans; [apply entries_set_count|].
      { cbn [snd]. rewrite deref_alloc_new, Hhost. done. }
      etrans; [|by apply (G6 code room)]. apply Nat.eq_le_incl.
      apply (host_count_frame S (mkServer ∅ ∅ ∅ (heap S ++ [p])) room).
      intros ws' r' Hin. cbn [heap]. by destruct (Hold _ _ Hin) as [_ ->].
    + etrans; [|by apply (G6 code' room')]. apply Nat.eq_le_incl.
      apply (host_count_frame S (mkServer ∅ ∅ ∅ (heap S ++ [p])) room').
      intros ws' r' Hin. cbn [heap]. rewrite deref_alloc_old; [done|].
      by eapply sound_member_valid.
  - intros code' room' ws' r' Hroom' Hst Hin. srv.
    apply lookup_insert_Some in Hroom' as [[<- <-]|[Hne Hroom']].
    + cbn in Hin, Hst. apply entries_set_elem in Hin as [[= -> ->]|Hin].
      * by rewrite deref_alloc_new.
      * destruct (Hold _ _ Hin) as [_ ->]. by eapply G7.
    + rewrite deref_alloc_old by by eapply sound_member_valid.
      by eapply G7.
  - srv. apply Forall_app. split; [done|]. apply Forall_singleton.
    by rewrite Hcard.
Qed.
Lemma filter_filter_length {A} (P Q : A → Prop) `{!∀ x, Decision (P x)}
    `{!∀ x, Decision (Q x)} (l : list A) :
  (length (filter P (filter Q l)) ≤ length (filter P l))%nat.
Proof.
  induction l as [|a l IH]; [done|].
  rewrite !(filter_cons _ a). destruct (decide (Q a)), (decide (P a));
    rewrite ?filter_cons_True, ?filter_cons_False by done; cbn; lia.
Qed.

Lemma sound_close_last S ws r room :
  sound S →
  players S !! ws = Some r →
  rooms S !! Player.roomCode (deref (heap S) r) = Some room →
  entries_delete ws (Room.players room) = [] →
  sound
    {| rooms := delete (Player.roomCode (deref (heap S) r)) (rooms S);
       players := delete ws (players S);
       sessionTokens := sessionTokens S;
       heap := heap S |}.
Proof.
  intros HS Hws Hroom Hlast. pose proof HS as [G1 G2 G3 G4 G5 G6 G7 G8].
  split; try done.
  - intros code' room' ws' r' Hroom' Hin. srv.
    apply lookup_delete_Some in Hroom' as [_ Hroom']. by eapply G1.
  - intros code' room' Hroom'. srv.
    apply lookup_delete_Some in Hroom' as [_ Hroom']. by eapply G2.
  - intros ws' r' H. srv. apply lookup_delete_Some in H as [Hne H].
    destruct (G3 _ _ H) as (room' & Hroom' & Hin).
    rewrite lookup_delete_ne; [by eauto|]. intros Heq.
    rewrite <- Heq in Hroom'. assert (room' = room) as -> by congruence.
    assert (Hrem : (ws', r') ∈ entries_delete ws (Room.players room))
      by by apply entries_delete_elem.
    rewrite Hlast in Hrem. by apply elem_of_nil in Hrem.
  - intros code' room' Hroom'. srv.
    apply lookup_delete_Some in Hroom' as [_ Hroom']. by eapply G4.
  - srv. etrans; [|exact G5]. rewrite map_size_delete.
    destruct (rooms S !! _); cbn; lia.
  - intros code' room' Hroom'. srv.
    apply lookup_delete_Some in Hroom' as [_ Hroom']. by apply (G6 code').
  - intros code' room' ws' r' Hroom' Hst Hin. srv.
    apply lookup_delete_Some in Hroom' as [_ Hroom']. by eapply G7.
Qed.

Lemma sound_close_rest S ws r room newHostWs newHost rest :
  sound S →
  players S !! ws = Some r →
  rooms S !! Player.roomCode (deref (heap S) r) = Some room →
  entries_delete ws (Room.players room) = (newHostWs, newHost) :: rest →
  sound
    {| rooms := <[Player.roomCode (deref (heap S) r) :=
                  Room.set_players ((newHostWs, newHost) :: rest) room]>
                (rooms S);
       players := delete ws (players S);
       sessionTokens := sessionTokens S;
       heap := if Player.isHost (deref (heap S) r)
               then <[newHost := Player.set_isHost true
                                   (deref (heap S) newHost)]> (heap S)
               else heap S |}.
Proof.
  intros HS Hws Hroom Hrem. pose proof HS as [G1 G2 G3 G4 G5 G6 G7 G8].
  assert (Hself : (ws, r) ∈ Room.players room).
  { destruct (G3 _ _ Hws) as (room' & Hroom' & Hin). congruence. }
  remember (Player.roomCode (deref (heap S) r)) as code eqn:Hcode_def.
  set (h' := if Player.isHost (deref (heap S) r)
             then <[newHost := Player.set_isHost true
                                 (deref (heap S) newHost)]> (heap S)
             else heap S).
  assert (Hmem : ∀ ws' r', (ws', r') ∈ (newHostWs, newHost) :: rest
                 ↔ (ws', r') ∈ Room.players room ∧ ws' ≠ ws).
  { intros ws' r'. rewrite <- Hrem. apply entries_delete_elem. }
  assert (Hnew : (newHostWs, newHost) ∈ Room.players room ∧ newHostWs ≠ ws).
  { apply Hmem. left. }
  destruct Hnew as [Hnew Hnew_ne].
  destruct (G1 _ _ _ _ Hroom Hnew) as [Hnew_lt Hnew_code].
  assert (Hlen : length h' = length (heap S)).
  { unfold h'. destruct (Player.isHost _); [by rewrite length_insert|done]. }
  assert (Hsame : ∀ x, Player.roomCode (deref h' x)
                       = Player.roomCode (deref (heap S) x)
                     ∧ Player.selectedCard (deref h' x)
                       = Player.selectedCard (deref (heap S) x)).
  { intros x. unfold h'. destruct (Player.isHost _); [|done].
    rewrite deref_insert. by case_decide as Hd; [destruct Hd as [-> _]|]. }
  assert (Hhost : ∀ x, x ≠ newHost →
            Player.isHost (deref h' x) = Player.isHost (deref (heap S) x)).
  { intros x Hx. unfold h'. destruct (Player.isHost _); [|done].
    rewrite deref_insert. by rewrite decide_False by (by intros [? _]). }
  assert (Hnd : NoDup ((newHostWs, newHost) :: rest).*2).
  { rewrite <- Hrem. apply entries_delete_refs_NoDup. by eapply G2. }
  split.
  - intros code' room' ws' r' Hroom' Hin. srv. rewrite Hlen.
    destruct (Hsame r') as [-> _].
    apply lookup_insert_Some in Hroom' as [[<- <-]|[Hne Hroom']];
      [|by eapply G1].
    cbn [Room.players Room.set_players] in Hin.
    apply Hmem in Hin as [Hin _]. by eapply G1.
  - intros code' room' Hroom'. srv.
    apply lookup_insert_Some in Hroom' as [[<- <-]|[Hne Hroom']];
      [done|by eapply G2].
  - intros ws' r' H. srv. apply lookup_delete_Some in H as [Hne H].
    destruct (G3 _ _ H) as (room' & Hroom' & Hin).
    destruct (Hsame r') as [-> _].
    destruct (decide (Player.roomCode (deref (heap S) r') = code))
      as [Heq|Hneq].
    + rewrite Heq in *. rewrite lookup_insert_eq. eexists. split; [done|].
      cbn [Room.players Room.set_players]. apply Hmem.
      split; [congruence|done].
    + rewrite lookup_insert_ne by done. eauto.
  - intros code' room' Hroom'. srv.
    apply lookup_insert_Some in Hroom' as [[<- <-]|[Hne Hroom']];
      [|by eapply G4].
    cbn [Room.players Room.set_players]. rewrite <- Hrem.
    split; [rewrite Hrem; cbn; lia|].
    etrans; [apply length_filter|]. by apply (G4 code room).
  - srv. rewrite map_size_insert_Some by done. done.
  - intros code' room' Hroom'. srv.
    apply lookup_insert_Some in Hroom' as [[<- <-]|[Hne' Hroom']].
    + unfold host_count. cbn [Room.players Room.set_players heap].
      destruct (Player.isHost (deref (heap S) r)) eqn:Hr; fold h'.
      * assert (Hrest : filter
                  (λ e, Player.isHost (deref h' e.2) = true) rest = []).
        { apply filter_none. intros [ws' r'] Hin. cbn [snd].
          assert (Hin' : (ws', r') ∈ (newHostWs, newHost) :: rest)
            by by right.
          apply Hmem in Hin' as [Hin' Hne''].
          assert (r' ≠ newHost).
          { intros ->. cbn in Hnd. apply NoDup_cons in Hnd as [Hnd' _].
            apply Hnd'. by apply (list_elem_of_fmap_2 snd _ (ws', newHost)). }
          rewrite Hhost by done. intros Hh.
          pose proof (two_elements_length
            (filter (λ e, Player.isHost (deref (heap S) e.2) = true)
                    (Room.players room)) (ws', r') (ws, r)) as H2.
          pose proof (G6 code room Hroom) as Hle. unfold host_count in Hle.
          enough (2 ≤ 1)%nat by lia. etrans; [apply H2|exact Hle].
          - apply NoDup_filter. eapply NoDup_fmap_1. by eapply G2.
          - by apply list_elem_of_filter.
          - by apply list_elem_of_filter.
          - congruence. }
        rewrite filter_cons, Hrest. case_decide; cbn; lia.
      * rewrite <- Hrem. etrans; [|by apply (G6 code room)].
        unfold host_count, entries_delete, h'. rewrite ?Hr. cbv iota.
        apply filter_filter_length.
    + etrans; [|by apply (G6 code' room')]. apply Nat.eq_le_incl.
      apply (host_count_frame S (mkServer ∅ ∅ ∅ h') room').
      intros ws' r' Hin. cbn [heap]. apply Hhost. intros ->.
      destruct (G1 _ _ _ _ Hroom' Hin) as [_ H2]. congruence.
  - intros code' room' ws' r' Hroom' Hst Hin. srv.
    destruct (Hsame r') as [_ ->].
    apply lookup_insert_Some in Hroom' as [[<- <-]|[Hne Hroom']];
      [|by eapply G7].
    cbn [Room.players Room.set_players Room.state] in Hin, Hst.
    apply Hmem in Hin as [Hin _]. by eapply (G7 code room).
  - srv. apply (Forall_heap _ (heap S)); [done|]. intros x.
    destruct (Hsame x) as [_ ->]. by apply Forall_deref.
Qed.
Lemma rooms_players_set_state (rs : gmap jsstring Room.t) code room st code' :
  rs !! code = Some room →
  Room.players <$> <[code := Room.set_state st room]> rs !! code'
  = Room.players <$> rs !! code'.
Proof.
  intros Hroom. destruct (decide (code = code')) as [<-|Hne].
  - by rewrite lookup_insert_eq, Hroom.
  - by rewrite lookup_insert_ne.
Qed.

(** [start_round] and [reset_round]: the votes of the room are cleared
    and its state is set. *)
Lemma sound_clear S code room st :
  sound S → rooms S !! code = Some room → st ≠ revealed →
  sound {| rooms := <[code := Room.set_state st room]> (rooms S);
           players := players S;
           sessionTokens := sessionTokens S;
           heap := clear_votes (Room.players room) (heap S) |}.
Proof.
  intros HS Hroom Hst. apply (sound_same_shape S); [done|done| | | |].
  - apply same_identity_clear_votes.
  - intros code'. by apply rooms_players_set_state.
  - intros code' room1 ws r Hroom1 Hw Hin. srv.
    rewrite clear_votes_deref.
    apply lookup_insert_Some in Hroom1 as [[<- <-]|[Hne Hroom1]].
    + rewrite decide_True; [done|].
      by apply (list_elem_of_fmap_2 snd _ (ws, r)).
    + case_decide; [done|]. by eapply (waiting_no_cards S HS).
  - srv. apply clear_votes_valid. by destruct HS.
Qed.

Lemma sound_reveal S code room :
  sound S → rooms S !! code = Some room →
  sound {| rooms := <[code := Room.set_state revealed room]> (rooms S);
           players := players S;
           sessionTokens := sessionTokens S;
           heap := heap S |}.
Proof.
  intros HS Hroom. apply (sound_same_shape S); [done|done| | | |].
  - apply same_identity_refl.
  - intros code'. by apply rooms_players_set_state.
  - intros code' room1 ws r Hroom1 Hw Hin. srv.
    apply lookup_insert_Some in Hroom1 as [[<- <-]|[Hne Hroom1]]; [done|].
    by eapply (waiting_no_cards S HS).
  - by destruct HS.
Qed.

Lemma sound_select S ws r room card :
  sound S → player_in S ws r room → Room.state room = voting →
  isValidCard card = true →
  sound (with_card S r card).
Proof.
  intros HS [Hws Hroom] Hst Hcard. apply (sound_same_shape S); [done|done| | | |].
  - apply same_identity_set_card.
  - done.
  - intros code' room1 ws' r' Hroom1 Hw Hin. unfold with_card in *. srv.
    rewrite deref_insert. case_decide as Hd.
    + destruct Hd as [-> _].
      destruct (entries_valid S HS _ _ _ _ Hroom1 Hin) as [_ Hcode].
      rewrite Hcode in Hroom. congruence.
    + by eapply (waiting_no_cards S HS).
  - unfold with_card. srv. apply Forall_insert; [by destruct HS|]. done.
Qed.

Lemma handleMessage_sound env ws message S c S1 out :
  sound S → handleMessage env ws message S = Some (c, S1, out) → sound S1.
Proof.
  intros HS H. unfold_handlers.
  repeat case_match; simplify_eq; try done.
  - apply sound_create; try done.
    + by eapply generateRoomCode_fresh.
    + lia.
  - apply sound_join; try done. lia.
  - by apply sound_clear.
  - apply (sound_select S ws n t); try done.
    + by apply negb_false_iff, bool_decide_eq_true in H3.
    + by apply negb_false_iff in H4.
  - by apply sound_reveal.
  - by apply sound_clear.
Qed.

Lemma on_close_sound env ws S : sound S → sound (on_close env ws S).1.
Proof.
  intros HS. destruct (players S !! ws) as [r|] eqn:Hws.
  - destruct (registered_member S HS _ _ Hws) as (room & Hroom & _).
    rewrite (on_close_registered env ws S r room) by done.
    destruct (entries_delete ws (Room.players room)) as [|[nw nr] rest] eqn:E.
    + by apply sound_close_last with room.
    + by apply sound_close_rest.
  - by rewrite on_close_unregistered.
Qed.

Lemma step_sound S e S1 out :
  sound S → step S e = Some (S1, out) → sound S1.
Proof.
  intros HS. destruct e as [env ws message|env ws]; cbn [step].
  - destruct (handleMessage env ws message S) as [[[c S'] out']|] eqn:E;
      [|done].
    intros [= <- <-]. by eapply handleMessage_sound.
  - intros [= H]. change S1 with (S1, out).1. rewrite <- H.
    by apply on_close_sound.
Qed.

Lemma sound_initial : sound initial_server.
Proof.
  split; unfold initial_server; srv;
    try (intros ? ? ? ? H; by rewrite lookup_empty in H);
    try (intros ? ? H; by rewrite lookup_empty in H).
  - rewrite map_size_empty. unfold_limits. lia.
  - done.
Qed.

Lemma run_sound S es S1 out :
  sound S → run S es = Some (S1, out) → sound S1.
Proof.
  revert S out. induction es as [|e es IH]; intros S out HS Hrun.
  - by injection Hrun as <- _.
  - cbn [run] in Hrun.
    destruct (step S e) as [[S' out1]|] eqn:Hstep; [|done].
    destruct (run S' es) as [[S2 out2]|] eqn:Hrest; [|done].
    injection Hrun as <- _. eapply (IH S'); [|done].
    by eapply step_sound.
Qed.

Lemma reachable_sound S : reachable S → sound S.
Proof.
  intros (es & out & Hrun). eapply run_sound; [apply sound_initial|done].
Qed.
End Soundness.

Example ann_bob_voting_reachable : reachable (ann_bob voting (JStr (js "5"))).
Proof.
  pose proof session_bob_selected as H.
  destruct (run initial_server (session_to_voting ++ [bob_selects_5]))
    as [[S out]|] eqn:E; [|done].
  injection H as ->. by exists (session_to_voting ++ [bob_selects_5]), out.
Qed.

(** No room ever has two hosts, whatever the clients send. *)
Theorem at_most_one_host S code room :
  reachable S → rooms S !! code = Some room → (host_count S room ≤ 1)%nat.
Proof. intros HS%reachable_sound Hroom. by eapply hosts_le_1. Qed.

Lemma at_most_one_host_witness :
  (host_count (ann_bob voting (JStr (js "5")))
              (Room.mk voting [(0, 0); (1, 1)]%nat 0) ≤ 1)%nat.
Proof.
  apply (at_most_one_host _ (js "AAAA")).
  - exact ann_bob_voting_reachable.
  - reflexivity.
Defined.

(** The store stays within its limits: at most 1000 rooms, and every
    room that exists has at least one and at most 50 members. *)
Theorem store_within_limits S :
  reachable S →
  (size (rooms S) ≤ 1000)%nat
  ∧ ∀ code room, rooms S !! code = Some room →
      (1 ≤ length (Room.players room) ≤ 50)%nat.
Proof.
  intros HS%reachable_sound. split; [by apply room_count|].
  intros code room Hroom. by apply (room_size S HS code).
Qed.

Lemma store_within_limits_witness :
  (size (rooms (ann_bob voting (JStr (js "5")))) ≤ 1000)%nat.
Proof.
  destruct (store_within_limits (ann_bob voting (JStr (js "5")))
              ann_bob_voting_reachable) as [H _].
  exact H.
Defined.

(** A connection that is registered as a player is a member of a live
    room, the one its player object names, and holds a valid object; so
    the handlers' [if (!room) return] never fires.  Every member of a
    room was made for that room. *)
Theorem registered_player_in_room S :
  reachable S →
  (∀ ws r, players S !! ws = Some r →
     (r < length (heap S))%nat
     ∧ ∃ room, player_in S ws r room ∧ (ws, r) ∈ Room.players room)
  ∧ (∀ code room ws r,
       rooms S !! code = Some room → (ws, r) ∈ Room.players room →
       (r < length (heap S))%nat
       ∧ Player.roomCode (deref (heap S) r) = code).
Proof.
  intros HS%reachable_sound. split.
  - intros ws r Hws. split; [by eapply sound_registered_valid|].
    destruct (registered_member S HS _ _ Hws) as (room & Hroom & Hin).
    exists room. by repeat split.
  - intros code room ws r Hroom Hin. by eapply entries_valid.
Qed.

Lemma registered_player_in_room_witness :
  ∃ room, player_in (ann_bob voting (JStr (js "5"))) 1%nat 1%nat room
          ∧ (1, 1)%nat ∈ Room.players room.
Proof.
  destruct (registered_player_in_room (ann_bob voting (JStr (js "5")))
              ann_bob_voting_reachable) as [H _].
  destruct (H 1%nat 1%nat eq_refl) as [_ Hroom]. exact Hroom.
Defined.

(** In a room in [waiting] state nobody has a card selected: cards exist
    only during voting and after the reveal. *)
Theorem waiting_room_has_no_cards S code room :
  reachable S → rooms S !! code = Some room → Room.state room = waiting →
  (∀ ws r, (ws, r) ∈ Room.players room →
     Player.selectedCard (deref (heap S) r) = JNull)
  ∧ ∃ snap, getRoomState S code true = Some snap
            ∧ Forall (λ v, PlayerView.hasSelected v = false
                           ∧ PlayerView.card v = JNull)
                     (RoomSnapshot.players snap).
Proof.
  intros HS%reachable_sound Hroom Hst.
  assert (Hnull : ∀ ws r, (ws, r) ∈ Room.players room →
            Player.selectedCard (deref (heap S) r) = JNull).
  { intros ws r Hin. by eapply waiting_no_cards. }
  split; [exact Hnull|].
  eexists. split; [by apply getRoomState_Some|]. cbn.
  apply Forall_map, Forall_forall. intros [ws r] Hin. unfold player_view.
  cbn [snd PlayerView.hasSelected PlayerView.card orb].
  by rewrite (Hnull ws r Hin).
Qed.

Example ann_bob_waiting_reachable : reachable (ann_bob waiting JNull).
Proof.
  destruct (run initial_server (take 2 session_to_voting))
    as [[S out]|] eqn:E; [|vm_compute in E; discriminate].
  assert (S = ann_bob waiting JNull) as ->
    by (vm_compute in E; injection E as <- _; reflexivity).
  by exists (take 2 session_to_voting), out.
Qed.

Lemma waiting_room_has_no_cards_witness :
  Player.selectedCard (deref (heap (ann_bob waiting JNull)) 1%nat) = JNull.
Proof.
  destruct (waiting_room_has_no_cards (ann_bob waiting JNull) (js "AAAA")
              (Room.mk waiting [(0, 0); (1, 1)]%nat 0)
              ann_bob_waiting_reachable eq_refl eq_refl) as [H _].
  apply (H 1%nat 1%nat). right. left.
Defined.

(** Every card the server stores is [null] or one of the card values. *)
Theorem stored_cards_valid S r :
  reachable S → isValidCard (Player.selectedCard (deref (heap S) r)) = true.
Proof.
  intros HS%reachable_sound.
  apply (Forall_deref (λ p, isValidCard (Player.selectedCard p) = true));
    [done|]. by apply cards_valid.
Qed.

Lemma stored_cards_valid_witness :
  isValidCard (Player.selectedCard
                 (deref (heap (ann_bob voting (JStr (js "5")))) 1%nat))
  = true.
Proof. apply stored_cards_valid. exact ann_bob_voting_reachable. Defined.

(** ** Rounds *)

Lemma host_of_inv S ws code :
  host_of S ws code →
  ∃ r, players S !! ws = Some r
       ∧ negb (Player.isHost (deref (heap S) r)) = false
       ∧ Player.roomCode (deref (heap S) r) = code.
Proof. intros (r & Hr & Hh & Hc). exists r. by rewrite Hh. Qed.

(** The host's [start_round] (to [voting]) and [reset_round] (to
    [waiting]) clear the card of every member of the room: the snapshot
    that is broadcast has the new state, lists the members in join order
    and shows [hasSelected = false] and [card = null] for all of them. *)
Theorem round_start_and_reset_clear_votes env ws message S code room st :
  host_of S ws code →
  rooms S !! code = Some room →
  (Message.type message = start_round ∧ st = voting
   ∨ Message.type message = reset_round ∧ st = waiting) →
  ∃ S1 snap,
    handleMessage env ws message S
    = Some (Returned, S1,
            broadcastToRoom env S1 code
              (match st with
               | voting => round_started (Some snap)
               | _ => round_reset (Some snap)
               end) None)
    ∧ getRoomState S1 code false = Some snap
    ∧ rooms S1 !! code = Some (Room.set_state st room)
    ∧ RoomSnapshot.state snap = st
    ∧ (∀ ws' r, (ws', r) ∈ Room.players room →
         Player.selectedCard (deref (heap S1) r) = JNull)
    ∧ RoomSnapshot.players snap
      = map (λ e, PlayerView.mk (Player.id (deref (heap S) e.2))
                    (Player.name (deref (heap S) e.2))
                    (Player.isHost (deref (heap S) e.2)) false JNull)
            (Room.players room).
Proof.
  intros (r & Hr & Hh & <-)%host_of_inv Hroom Hty.
  pose (S1 := {| rooms := <[Player.roomCode (deref (heap S) r) :=
                           Room.set_state st room]> (rooms S);
                 players := players S;
                 sessionTokens := sessionTokens S;
                 heap := clear_votes (Room.players room) (heap S) |}).
  assert (Hroom1 : rooms S1 !! Player.roomCode (deref (heap S) r)
                   = Some (Room.set_state st room))
    by apply lookup_insert_eq.
  assert (Hnull : ∀ ws' r', (ws', r') ∈ Room.players room →
            deref (heap S1) r'
            = Player.set_selectedCard JNull (deref (heap S) r')).
  { intros ws' r' Hin. unfold S1. cbn [heap]. rewrite clear_votes_deref.
    rewrite decide_True; [done|].
    by apply (list_elem_of_fmap_2 snd _ (ws', r')). }
  exists S1. eexists. split; [|split; [by apply getRoomState_Some|]].
  - unfold_handlers.
    destruct Hty as [[-> ->]|[-> ->]]; rewrite Hr, Hh, Hroom; fold S1;
      by rewrite (getRoomState_Some S1 _ _ false Hroom1).
  - split; [done|]. split; [done|]. split.
    + intros ws' r' Hin. by rewrite (Hnull ws' r').
    + cbn [RoomSnapshot.players Room.players Room.set_state].
      apply map_ext_in. intros [ws' r'] Hin%list_elem_of_In.
      cbn [snd]. unfold player_view. rewrite (Hnull ws' r' Hin). cbn.
      destruct Hty as [[_ ->]|[_ ->]]; done.
Qed.

Lemma round_start_and_reset_clear_votes_witness :
  ∃ S1 snap,
    handleMessage (env_of [] "-" "-") 0%nat (msg reset_round)
                  (ann_bob revealed (JStr (js "5")))
    = Some (Returned, S1,
            broadcastToRoom (env_of [] "-" "-") S1 (js "AAAA")
              (round_reset (Some snap)) None)
    ∧ Player.selectedCard (deref (heap S1) 1%nat) = JNull.
Proof.
  destruct (round_start_and_reset_clear_votes (env_of [] "-" "-") 0%nat
              (msg reset_round) (ann_bob revealed (JStr (js "5")))
              (js "AAAA") (Room.mk revealed [(0, 0); (1, 1)]%nat 0) waiting)
    as (S1 & snap & Hrun & _ & _ & _ & Hnull & _).
  - exists 0%nat. repeat split; reflexivity.
  - reflexivity.
  - right. split; reflexivity.
  - exists S1, snap. split; [exact Hrun|]. apply (Hnull 1%nat). right. left.
Defined.

(** A host command repeated has no further effect: the second run
    leaves the state of the first and sends the same messages.  So two
    [reset_round]s in a row show the same snapshot as one. *)
Theorem host_command_twice env ws message S c S1 out :
  host_command (Message.type message) →
  handleMessage env ws message S = Some (c, S1, out) →
  handleMessage env ws message S1 = Some (c, S1, out).
Proof.
  intros Hcmd H.
  assert (Hid : ∀ ps r,
            Player.isHost (deref (clear_votes ps (heap S)) r)
            = Player.isHost (deref (heap S) r)
            ∧ Player.roomCode (deref (clear_votes ps (heap S)) r)
              = Player.roomCode (deref (heap S) r)).
  { intros ps r. by destruct (same_identity_clear_votes ps (heap S))
      as [_ Hid]. }
  unfold_handlers.
  destruct (players S !! ws) as [r|] eqn:Hr.
  2: { destruct Hcmd as [Ht|[Ht|[Ht|Ht]]]; rewrite Ht in *;
         cbn [negb] in *; simplify_eq; by rewrite Hr. }
  destruct (Player.isHost (deref (heap S) r)) eqn:Hh.
  2: { destruct Hcmd as [Ht|[Ht|[Ht|Ht]]]; rewrite Ht in *;
         cbn [negb] in *; simplify_eq; by rewrite Hr, Hh. }
  cbn [negb] in H.
  destruct (rooms S !! Player.roomCode (deref (heap S) r)) as [room|]
    eqn:Hroom.
  2: { destruct Hcmd as [Ht|[Ht|[Ht|Ht]]]; rewrite Ht in *;
         simplify_eq; by rewrite Hr, Hh, ?Hroom. }
  destruct Hcmd as [Ht|[Ht|[Ht|Ht]]]; rewrite Ht in *; simplify_eq; srv;
    rewrite Hr; try destruct (Hid (Room.players room) r) as [-> ->];
    rewrite Hh; cbn [negb]; rewrite ?lookup_insert_eq; try done;
    unfold Room.set_state; cbn [Room.players Room.createdAt Room.state];
    by rewrite insert_insert_eq, ?clear_votes_idem.
Qed.

Lemma host_command_twice_witness :
  handle_twice (env_of [] "-" "-") 0%nat (msg reset_round)
               (ann_bob revealed (JStr (js "5")))
  = handleMessage (env_of [] "-" "-") 0%nat (msg reset_round)
                  (ann_bob revealed (JStr (js "5"))).
Proof.
  unfold handle_twice.
  destruct (handleMessage (env_of [] "-" "-") 0%nat (msg reset_round)
              (ann_bob revealed (JStr (js "5")))) as [[[c S1] out]|] eqn:E;
    [|reflexivity].
  apply (host_command_twice (env_of [] "-" "-") 0%nat (msg reset_round)
           (ann_bob revealed (JStr (js "5"))) c S1 out); [|exact E].
  right. right. left. reflexivity.
Defined.

(** The host's [reveal_cards] changes no card: the reveal order and the
    snapshot list the members in join order with the same id, name and
    stored card, [hasSelected] says whether that card is not [null], and
    the snapshot is the one [getRoomState] builds without the
    vote-visibility flag too, the room being [revealed] by then. *)
Theorem reveal_shows_stored_cards env ws message S code room :
  Message.type message = reveal_cards →
  host_of S ws code →
  rooms S !! code = Some room →
  ∃ S1 order snap,
    handleMessage env ws message S
    = Some (Returned, S1,
            broadcastToRoom env S1 code (cards_revealed order (Some snap))
                            None)
    ∧ heap S1 = heap S ∧ players S1 = players S
    ∧ rooms S1 = <[code := Room.set_state revealed room]> (rooms S)
    ∧ order = map (λ e, revealed_entry (deref (heap S) e.2))
                  (Room.players room)
    ∧ RoomSnapshot.players snap
      = map (λ e, revealed_view (deref (heap S) e.2)) (Room.players room)
    ∧ RoomSnapshot.state snap = revealed
    ∧ getRoomState S1 code false = Some snap.
Proof.
  intros Hty (r & Hr & Hh & <-)%host_of_inv Hroom.
  pose (S1 := {| rooms := <[Player.roomCode (deref (heap S) r) :=
                           Room.set_state revealed room]> (rooms S);
                 players := players S;
                 sessionTokens := sessionTokens S;
                 heap := heap S |}).
  assert (Hroom1 : rooms S1 !! Player.roomCode (deref (heap S) r)
                   = Some (Room.set_state revealed room))
    by apply lookup_insert_eq.
  exists S1. eexists. eexists. split; [|repeat split].
  - unfold_handlers. rewrite Hty, Hr, Hh, Hroom. fold S1.
    by rewrite (getRoomState_Some S1 _ _ true Hroom1).
  - done.
  - done.
  - by rewrite (getRoomState_Some S1 _ _ false Hroom1).
Qed.

Lemma reveal_shows_stored_cards_witness :
  ∃ S1 order snap,
    handleMessage (env_of [] "-" "-") 0%nat (msg reveal_cards)
                  (ann_bob voting (JStr (js "5")))
    = Some (Returned, S1,
            [Send 0%nat (cards_revealed order (Some snap));
             Send 1%nat (cards_revealed order (Some snap))])
    ∧ order !! 1%nat
      = Some (RevealEntry.mk (js "id-bob") (js "Bob") (JStr (js "5"))).
Proof.
  destruct (reveal_shows_stored_cards (env_of [] "-" "-") 0%nat
              (msg reveal_cards) (ann_bob voting (JStr (js "5")))
              (js "AAAA") (Room.mk voting [(0, 0); (1, 1)]%nat 0))
    as (S1 & order & snap & Hrun & _ & _ & Hrooms & Horder & _).
  - reflexivity.
  - exists 0%nat. repeat split; reflexivity.
  - reflexivity.
  - exists S1, order, snap. split; [|by rewrite Horder].
    rewrite Hrun. unfold broadcastToRoom. rewrite Hrooms.
    reflexivity.
Defined.

(** ** Rooms: creating and joining *)

(* Whatever [create_room] returns is one of three results. *)
Lemma create_room_cases env ws message S c S1 out :
  Message.type message = create_room →
  handleMessage env ws message S = Some (c, S1, out) →
  ((1000 ≤ size (rooms S))%nat
   ∧ S1 = S
   ∧ out = [Send ws (error "Server is at capacity. Please try again later.")])
  ∨ ((size (rooms S) < 1000)%nat
     ∧ sanitizeName (Message.name message) = None
     ∧ S1 = S
     ∧ out = [Send ws (error "Valid name is required (1-20 characters)")])
  ∨ ∃ name code,
      (size (rooms S) < 1000)%nat
      ∧ sanitizeName (Message.name message) = Some name
      ∧ generateRoomCode (rooms S) (draws env) = Some code
      ∧ rooms S !! code = None
      ∧ rooms S1
        = <[code := Room.mk waiting [(ws, length (heap S))] (now_room env)]>
          (rooms S)
      ∧ players S1 !! ws = Some (length (heap S))
      ∧ deref (heap S1) (length (heap S))
        = Player.mk (uuid env) name true JNull code (token env)
      ∧ out = [Send ws (room_created code (uuid env) (token env)
                 (Some (RoomSnapshot.mk code waiting
                          [PlayerView.mk (uuid env) name true false JNull]
                          CARD_VALUES)))].
Proof.
  intros Hty H. unfold handleMessage in H. rewrite Hty in H.
  unfold case_create_room, reply, alloc in H.
  case_decide as Hsize; [left; by simplify_eq|]. right.
  assert (size (rooms S) < 1000)%nat by (unfold_limits; lia).
  destruct (sanitizeName _) as [name|]; [right|left; by simplify_eq].
  destruct (generateRoomCode _ _) as [code|] eqn:Hgen; [|done].
  simplify_eq. exists name, code.
  pose proof (generateRoomCode_fresh _ _ _ Hgen) as Hfree. srv.
  repeat split; try done.
  - apply lookup_insert_eq.
  - apply deref_alloc_new.
  - erewrite getRoomState_Some by (srv; apply lookup_insert_eq).
    cbn [Room.players Room.state map snd heap]. unfold player_view.
    by rewrite deref_alloc_new.
Qed.

(** [create_room] answers every message, in one of three ways.  With
    1000 rooms it returns after the capacity error, whatever the name;
    below that, with a name that sanitises to nothing, it returns after
    the name error; in both cases nothing changes.  Otherwise it waits
    for [generateRoomCode]: the code that comes back was free, the new
    room is in [waiting] state with the sender as its only member and
    host, the session is stored under the new token, the objects there
    were are as before, and the sender alone gets [room_created] with a
    one-player snapshot.  A code does come back when, after any number
    of blocks of draws that spell the codes of live rooms, a block
    spells a free one; the handler is without result only where the
    list of draws ends before that. *)
Theorem create_room_outcomes env ws message S :
  Message.type message = create_room →
  ((1000 ≤ size (rooms S))%nat →
   handleMessage env ws message S
   = Some (Returned, S,
           [Send ws (error "Server is at capacity. Please try again later.")]))
  ∧ ((size (rooms S) < 1000)%nat →
     sanitizeName (Message.name message) = None →
     handleMessage env ws message S
     = Some (Returned, S,
             [Send ws (error "Valid name is required (1-20 characters)")]))
  ∧ (∀ name code,
       (size (rooms S) < 1000)%nat →
       sanitizeName (Message.name message) = Some name →
       generateRoomCode (rooms S) (draws env) = Some code →
       rooms S !! code = None
       ∧ ∃ S1,
           handleMessage env ws message S
           = Some (Returned, S1,
                   [Send ws (room_created code (uuid env) (token env)
                      (Some (RoomSnapshot.mk code waiting
                               [PlayerView.mk (uuid env) name true false JNull]
                               CARD_VALUES)))])
           ∧ rooms S1
             = <[code := Room.mk waiting [(ws, length (heap S))]
                                 (now_room env)]> (rooms S)
           ∧ players S1 = <[ws := length (heap S)]> (players S)
           ∧ sessionTokens S1
             = <[token env := Session.mk (uuid env) code name
                                         (now_session env)]> (sessionTokens S)
           ∧ heap S1
             = heap S ++ [Player.mk (uuid env) name true JNull code
                                    (token env)])
  ∧ (∀ name blocks block code more,
       (size (rooms S) < 1000)%nat →
       sanitizeName (Message.name message) = Some name →
       Forall (λ b, ∃ c, spells b c ∧ is_Some (rooms S !! c)) blocks →
       spells block code → rooms S !! code = None →
       draws env = concat blocks ++ block ++ more →
       generateRoomCode (rooms S) (draws env) = Some code)
  ∧ (handleMessage env ws message S = None
     ↔ (size (rooms S) < 1000)%nat
       ∧ is_Some (sanitizeName (Message.name message))
       ∧ generateRoomCode (rooms S) (draws env) = None).
Proof.
  intros Hty. unfold handleMessage. rewrite Hty.
  unfold case_create_room, reply, alloc.
  split; [|split; [|split; [|split]]].
  - intros Hfull. rewrite decide_True; [done|]. unfold_limits. lia.
  - intros Hsize Hname. rewrite decide_False by (unfold_limits; lia).
    by rewrite Hname.
  - intros name code Hsize Hname Hgen.
    pose proof (generateRoomCode_fresh _ _ _ Hgen) as Hfree.
    split; [done|].
    rewrite decide_False by (unfold_limits; lia). rewrite Hname, Hgen.
    erewrite getRoomState_Some by (srv; apply lookup_insert_eq).
    cbn [Room.players Room.state map snd heap]. unfold player_view.
    rewrite deref_alloc_new. cbn [Player.id Player.name Player.isHost
                                  Player.selectedCard].
    eexists. split; [reflexivity|]. by srv.
  - intros name blocks block code more _ _ Hlive Hblock Hfree ->.
    apply generateRoomCode_fuel_retries; try done.
    rewrite !length_app, concat_blocks_length.
    + lia.
    + eapply Forall_impl; [exact Hlive|]. intros b (c & Hb & _).
      by eapply spells_length.
  - case_decide as Hsize.
    + split; [done|]. intros [Hlt _]. unfold_limits. lia.
    + assert (size (rooms S) < 1000)%nat by (unfold_limits; lia).
      destruct (sanitizeName _) as [name|].
      * destruct (generateRoomCode _ _) as [code|]; [|by eauto].
        split; [done|]. by intros (_ & _ & ?).
      * split; [done|]. by intros (_ & [? ?] & _).
Qed.

Lemma create_room_outcomes_witness :
  ∃ S1,
    handleMessage (env_of [0; 0; 0; 0; 0; 1; 2; 3]%nat "id-bob" "tok-bob")
                  5%nat (msg_create "Bob")
                  (mkServer {[ js "AAAA" := Room.mk waiting [(0, 0)%nat] 0 ]}
                            {[ 0%nat := 0%nat ]} ∅ [ann])
    = Some (Returned, S1,
            [Send 5%nat (room_created (js "ABCD") (js "id-bob") (js "tok-bob")
               (Some (RoomSnapshot.mk (js "ABCD") waiting
                        [PlayerView.mk (js "id-bob") (js "Bob") true false
                                       JNull] CARD_VALUES)))])
    ∧ rooms S1 !! js "AAAA" = Some (Room.mk waiting [(0, 0)%nat] 0).
Proof.
  destruct (create_room_outcomes
              (env_of [0; 0; 0; 0; 0; 1; 2; 3]%nat "id-bob" "tok-bob")
              5%nat (msg_create "Bob")
              (mkServer {[ js "AAAA" := Room.mk waiting [(0, 0)%nat] 0 ]}
                        {[ 0%nat := 0%nat ]} ∅ [ann]) eq_refl)
    as (_ & _ & Hnew & Hgen & _).
  assert (Hsize : (size (rooms
            (mkServer {[ js "AAAA" := Room.mk waiting [(0, 0)%nat] 0 ]}
                      {[ 0%nat := 0%nat ]} ∅ [ann])) < 1000)%nat).
  { cbn [rooms]. rewrite map_size_singleton. lia. }
  destruct (Hnew (js "Bob") (js "ABCD") Hsize eq_refl) as (_ & S1 & Hrun & Hrooms & _).
  - apply (Hgen (js "Bob") [[0; 0; 0; 0]%nat] [0; 1; 2; 3]%nat (js "ABCD") []
                Hsize eq_refl).
    + apply Forall_singleton. exists (js "AAAA"). split; [reflexivity|].
      cbn [rooms]. rewrite lookup_singleton_eq. by eexists.
    + reflexivity.
    + reflexivity.
    + reflexivity.
  - exists S1. split; [exact Hrun|]. rewrite Hrooms.
    rewrite lookup_insert_ne by (by vm_compute).
    apply lookup_singleton_eq.
Defined.

Lemma broadcast_excluded env S code msg ws m :
  Send ws m ∉ broadcastToRoom env S code msg (Some ws).
Proof.
  unfold broadcastToRoom. destruct (rooms S !! code) as [room|];
    [|apply not_elem_of_nil].
  intros H. apply list_elem_of_omap in H as ([w r] & _ & He).
  cbn in He. case_bool_decide as Hw; cbn in He; [|done].
  case_match; [|done]. injection He as -> _. done.
Qed.

Lemma join_room_run env ws message S code room name :
  Message.type message = join_room →
  optional_toUpperCase env (Message.roomCode message) = Some (JStr code) →
  isValidRoomCode (toUpperCase env) (JStr code) = true →
  rooms S !! code = Some room →
  (length (Room.players room) < 50)%nat →
  sanitizeName (Message.name message) = Some name →
  (∀ r, (ws, r) ∉ Room.players room) →
  let S1 := {| rooms := <[code := Room.set_players
                              (Room.players room ++ [(ws, length (heap S))])
                              room]> (rooms S);
               players := <[ws := length (heap S)]> (players S);
               sessionTokens :=
                 <[token env := Session.mk (uuid env) code name
                                           (now_session env)]>
                 (sessionTokens S);
               heap := heap S ++ [Player.mk (uuid env) name false JNull
                                            code (token env)] |} in
  handleMessage env ws message S
  = Some (Returned, S1,
          Send ws (joined_room code (uuid env) (token env)
                     (getRoomState S1 code false))
          :: broadcastToRoom env S1 code
               (player_joined (uuid env) name false
                  (getRoomState S1 code false)) (Some ws)).
Proof.
  intros Hty Hup Hvalid Hroom Hlen Hname Hfresh S1.
  unfold handleMessage, case_join_room, reply, alloc.
  rewrite Hty, Hup, Hvalid. cbn [negb rooms_get]. rewrite Hroom.
  rewrite decide_False by (unfold_limits; lia). rewrite Hname.
  by rewrite entries_set_fresh by done.
Qed.

(** [join_room] by a connection that is not in the room yet, with a code
    that exists, room below 50 members, and a usable name: the new player
    is appended after the members there are, is not host and has no
    card; the room keeps its state, whatever it is; the joiner gets
    [joined_room] and nothing else, every other open member gets
    [player_joined], both with the same snapshot, whose last entry is the
    new player. *)
Theorem join_room_new_member env ws message S code room name :
  Message.type message = join_room →
  optional_toUpperCase env (Message.roomCode message) = Some (JStr code) →
  isValidRoomCode (toUpperCase env) (JStr code) = true →
  rooms S !! code = Some room →
  (length (Room.players room) < 50)%nat →
  sanitizeName (Message.name message) = Some name →
  (∀ r, (ws, r) ∉ Room.players room) →
  ∃ S1 snap,
    handleMessage env ws message S
    = Some (Returned, S1,
            Send ws (joined_room code (uuid env) (token env) (Some snap))
            :: broadcastToRoom env S1 code
                 (player_joined (uuid env) name false (Some snap)) (Some ws))
    ∧ rooms S1
      = <[code := Room.set_players
                    (Room.players room ++ [(ws, length (heap S))]) room]>
        (rooms S)
    ∧ players S1 !! ws = Some (length (heap S))
    ∧ deref (heap S1) (length (heap S))
      = Player.mk (uuid env) name false JNull code (token env)
    ∧ RoomSnapshot.state snap = Room.state room
    ∧ length (RoomSnapshot.players snap)
      = (length (Room.players room) + 1)%nat
    ∧ last (RoomSnapshot.players snap)
      = Some (PlayerView.mk (uuid env) name false false JNull)
    ∧ (∀ m, Send ws m ∉ broadcastToRoom env S1 code
              (player_joined (uuid env) name false (Some snap)) (Some ws))
    ∧ (∀ w r, (w, r) ∈ Room.players room → readyState env w = 1%nat →
         Send w (player_joined (uuid env) name false (Some snap))
         ∈ broadcastToRoom env S1 code
             (player_joined (uuid env) name false (Some snap)) (Some ws)).
Proof.
  intros Hty Hup Hvalid Hroom Hlen Hname Hfresh.
  pose (S1 := {| rooms := <[code := Room.set_players
                              (Room.players room ++ [(ws, length (heap S))])
                              room]> (rooms S);
                 players := <[ws := length (heap S)]> (players S);
                 sessionTokens :=
                   <[token env := Session.mk (uuid env) code name
                                             (now_session env)]>
                   (sessionTokens S);
                 heap := heap S ++ [Player.mk (uuid env) name false JNull
                                              code (token env)] |}).
  assert (Hroom1 : rooms S1 !! code
                   = Some (Room.set_players
                             (Room.players room ++ [(ws, length (heap S))])
                             room)) by apply lookup_insert_eq.
  exists S1. eexists. split; [|split; [done|split; [apply lookup_insert_eq|]]].
  - rewrite (join_room_run env ws message S code room name) by done.
    cbv zeta. fold S1.
    by rewrite (getRoomState_Some S1 code _ false Hroom1).
  - split; [apply deref_alloc_new|]. split; [done|].
    cbn [RoomSnapshot.players Room.players Room.set_players].
    split; [rewrite length_map, length_app; cbn; lia|]. split.
    + rewrite map_app. cbn [map snd]. rewrite last_snoc.
      assert (Hnew : deref (heap S1) (length (heap S))
                     = Player.mk (uuid env) name false JNull code (token env))
        by apply deref_alloc_new.
      rewrite Hnew. unfold player_view.
      cbn [Player.id Player.name Player.isHost Player.selectedCard].
      f_equal. f_equal. by case_match.
    + split; [intros m; apply broadcast_excluded|].
      intros w r Hin Hopen. eapply broadcast_delivers; try done.
      * cbn. apply elem_of_app. by left.
      * intros [= ->]. by destruct (Hfresh r).
Qed.

Lemma join_room_new_member_witness :
  ∃ S1 snap,
    handleMessage (env_of [] "id-cy" "tok-cy") 2%nat (msg_join "Cy" "aaaa")
                  (ann_bob revealed (JStr (js "5")))
    = Some (Returned, S1,
            [Send 2%nat (joined_room (js "AAAA") (js "id-cy") (js "tok-cy")
                           (Some snap));
             Send 0%nat (player_joined (js "id-cy") (js "Cy") false
                           (Some snap));
             Send 1%nat (player_joined (js "id-cy") (js "Cy") false
                           (Some snap))])
    ∧ RoomSnapshot.state snap = revealed.
Proof.
  destruct (join_room_new_member (env_of [] "id-cy" "tok-cy") 2%nat
              (msg_join "Cy" "aaaa") (ann_bob revealed (JStr (js "5")))
              (js "AAAA") (Room.mk revealed [(0, 0); (1, 1)]%nat 0)
              (js "Cy"))
    as (S1 & snap & Hrun & Hrooms & _ & _ & Hst & _).
  - reflexivity.
  - reflexivity.
  - reflexivity.
  - reflexivity.
  - cbn. lia.
  - reflexivity.
  - intros r Hin. apply elem_of_cons in Hin as [[=]|Hin].
    apply elem_of_cons in Hin as [[=]|Hin]. by apply elem_of_nil in Hin.
  - exists S1, snap. split; [|exact Hst].
    rewrite Hrun. unfold broadcastToRoom. rewrite Hrooms. reflexivity.
Defined.

Lemma chars_upper_or_digit : Forall (λ c, is_upper_or_digit c = true) chars.
Proof.
  apply (bool_decide_unpack (Forall (λ c, is_upper_or_digit c = true) chars)).
  vm_compute. exact I.
Qed.

Lemma generated_code_format rs ds code :
  valid_draws ds → generateRoomCode rs ds = Some code →
  test_room_code code = true.
Proof.
  intros Hv Hgen.
  destruct (generateRoomCode_fuel_sound _ _ _ _ Hv Hgen) as (Hlen & Hall & _).
  unfold test_room_code. rewrite bool_decide_eq_true_2 by done. cbn.
  apply forallb_forall. intros c Hc%list_elem_of_In.
  eapply Forall_forall in Hall; [|done].
  by eapply Forall_forall in Hall; [|apply chars_upper_or_digit].
Qed.

(** The code a creator is told works: whoever sends it back in a
    [join_room], in any spelling that upper-cases to it, with a usable
    name and from another connection, is admitted to the new room and
    gets a snapshot of two players in [waiting] state. *)
Theorem created_room_can_be_joined
    env ws message S c S1 out code pid tok snap0
    env' ws' message' s name' :
  Message.type message = create_room →
  valid_draws (draws env) →
  handleMessage env ws message S = Some (c, S1, out) →
  Send ws (room_created code pid tok snap0) ∈ out →
  Message.type message' = join_room →
  Message.roomCode message' = JStr s →
  toUpperCase env' s = code → toUpperCase env' code = code →
  sanitizeName (Message.name message') = Some name' →
  ws' ≠ ws →
  ∃ S2 snap,
    handleMessage env' ws' message' S1
    = Some (Returned, S2,
            Send ws' (joined_room code (uuid env') (token env') (Some snap))
            :: broadcastToRoom env' S2 code
                 (player_joined (uuid env') name' false (Some snap))
                 (Some ws'))
    ∧ RoomSnapshot.state snap = waiting
    ∧ length (RoomSnapshot.players snap) = 2%nat.
Proof.
  intros Hty Hv Hrun Hsent Hty' Hcode Hup Hfix Hname Hne.
  destruct (create_room_cases _ _ _ _ _ _ _ Hty Hrun)
    as [(_ & _ & ->)|[(_ & _ & _ & ->)|(name & code' & _ & _ & Hgen & _
                                          & Hrooms & _ & _ & ->)]];
    try (apply list_elem_of_singleton in Hsent; discriminate).
  apply list_elem_of_singleton in Hsent. injection Hsent as -> _ _ _.
  pose proof (generated_code_format _ _ _ Hv Hgen) as Hfmt.
  assert (Hnonempty : code' ≠ []).
  { intros ->. by vm_compute in Hfmt. }
  pose proof (join_room_run env' ws' message' S1 code'
                (Room.mk waiting [(ws, length (heap S))] (now_room env)) name')
    as Hjoin.
  cbv zeta in Hjoin.
  erewrite getRoomState_Some in Hjoin by apply lookup_insert_eq.
  eexists. eexists. split; [apply Hjoin; try done|done].
  - unfold optional_toUpperCase. by rewrite Hcode, Hup.
  - unfold isValidRoomCode. destruct code' as [|x code']; [done|].
    by rewrite Hfix.
  - rewrite Hrooms. apply lookup_insert_eq.
  - cbn. lia.
  - intros r Hin%list_elem_of_singleton. congruence.
Qed.

Lemma created_room_can_be_joined_witness :
  ∃ S2 out,
    run initial_server (take 2 session_to_voting) = Some (S2, out)
    ∧ ∃ snap, Send 1%nat (joined_room (js "AAAA") (js "id-bob") (js "tok-bob")
                            (Some snap)) ∈ out
              ∧ length (RoomSnapshot.players snap) = 2%nat.
Proof.
  destruct (handleMessage (env_of [0; 0; 0; 0]%nat "id-ann" "tok-ann") 0%nat
              (msg_create "Ann") initial_server)
    as [[[c S1] out1]|] eqn:E1; [|vm_compute in E1; discriminate].
  destruct (created_room_can_be_joined
              (env_of [0; 0; 0; 0]%nat "id-ann" "tok-ann") 0%nat
              (msg_create "Ann") initial_server c S1 out1 (js "AAAA")
              (js "id-ann") (js "tok-ann")
              (Some (RoomSnapshot.mk (js "AAAA") waiting
                       [PlayerView.mk (js "id-ann") (js "Ann") true false
                                      JNull] CARD_VALUES))
              (env_of [] "id-bob" "tok-bob") 1%nat (msg_join "Bob" "aaaa")
              (js "aaaa") (js "Bob"))
    as (S2 & snap & Hjoin & _ & Hlen); try reflexivity.
  - unfold valid_draws. cbn. repeat constructor; lia.
  - exact E1.
  - vm_compute in E1. injection E1 as _ _ <-. left.
  - discriminate.
  - eexists S2, _. split.
    + unfold session_to_voting. cbn [take run step]. rewrite E1, Hjoin.
      reflexivity.
    + exists snap. split; [|exact Hlen]. apply elem_of_app. right. left.
Defined.

(** ** Sessions *)

(** The handlers never read the session table and never delete from it:
    with another table they send the same messages and leave the same
    rooms, players and objects; a message can only add a session (for the
    token it issued), and a disconnect leaves the table as it is.  So a
    token, once issued, is never looked at again by the server. *)
Theorem sessions_are_write_only env ws message S S' :
  same_but_sessions S S' →
  same_outcome (handleMessage env ws message S)
               (handleMessage env ws message S')
  ∧ (on_close env ws S').2 = (on_close env ws S).2
  ∧ same_but_sessions (on_close env ws S).1 (on_close env ws S').1
  ∧ sessionTokens (on_close env ws S).1 = sessionTokens S
  ∧ ∀ c S1 out, handleMessage env ws message S = Some (c, S1, out) →
      sessionTokens S1 = sessionTokens S
      ∨ sessionTokens S1
        = <[token env := Session.mk (uuid env)
                           (Player.roomCode (deref (heap S1) (length (heap S))))
                           (Player.name (deref (heap S1) (length (heap S))))
                           (now_session env)]> (sessionTokens S).
Proof.
  intros (Hr & Hp & Hh). destruct S as [rs ps ts h], S' as [rs' ps' ts' h'].
  cbn in Hr, Hp, Hh. subst rs' ps' h'.
  split; [|split; [|split; [|split]]].
  - unfold same_outcome, same_but_sessions. unfold_handlers.
    unfold getRoomState, broadcastToRoom. srv.
    repeat case_match; simplify_eq; done.
  - unfold on_close, getRoomState, broadcastToRoom. srv.
    repeat case_match; simplify_eq; done.
  - unfold same_but_sessions, on_close. srv.
    repeat case_match; simplify_eq; done.
  - unfold on_close. srv. repeat case_match; simplify_eq; done.
  - intros c S1 out H. unfold_handlers.
    repeat case_match; simplify_eq; srv; try (by left).
    all: right; by rewrite deref_alloc_new.
Qed.

Lemma sessions_are_write_only_witness :
  same_outcome
    (handleMessage (env_of [] "-" "-") 0%nat (msg start_round)
                   (ann_bob waiting JNull))
    (handleMessage (env_of [] "-" "-") 0%nat (msg start_round)
                   (cleanupExpiredSessions 9999999 (ann_bob waiting JNull))).
Proof.
  apply (sessions_are_write_only (env_of [] "-" "-") 0%nat (msg start_round)
           (ann_bob waiting JNull)
           (cleanupExpiredSessions 9999999 (ann_bob waiting JNull))).
  repeat split; reflexivity.
Defined.

(** ** Disconnects *)

Lemma on_close_out env ws S r room :
  players S !! ws = Some r →
  rooms S !! Player.roomCode (deref (heap S) r) = Some room →
  (on_close env ws S).2
  = match entries_delete ws (Room.players room) with
    | [] => []
    | (newHostWs, newHost) :: rest =>
        (if Player.isHost (deref (heap S) r)
         then [Send newHostWs became_host] else [])
        ++ broadcastToRoom env (on_close env ws S).1
             (Player.roomCode (deref (heap S) r))
             (player_left (Player.id (deref (heap S) r))
                (getRoomState (on_close env ws S).1
                   (Player.roomCode (deref (heap S) r)) false))
             None
    end.
Proof.
  intros Hws Hroom. rewrite (on_close_registered env ws S r room) by done.
  unfold on_close. rewrite Hws, Hroom.
  destruct (entries_delete ws (Room.players room)) as [|[nw nr] rest];
    [done|].
  by destruct (Player.isHost (deref (heap S) r)).
Qed.

(** When the host disconnects and members remain, the member who joined
    first among them becomes host: that connection is sent [became_host]
    before anything else, whether it is open or not, the [player_left]
    broadcast that follows shows the new host first and as host, and the
    leaver is gone from the room and from [players]. *)
Theorem host_leaves_first_member_takes_over
    env ws S r room newHostWs newHost rest :
  players S !! ws = Some r →
  rooms S !! Player.roomCode (deref (heap S) r) = Some room →
  Player.isHost (deref (heap S) r) = true →
  entries_delete ws (Room.players room) = (newHostWs, newHost) :: rest →
  (newHost < length (heap S))%nat →
  let code := Player.roomCode (deref (heap S) r) in
  let S1 := (on_close env ws S).1 in
  ∃ snap first,
    (on_close env ws S).2
    = Send newHostWs became_host
      :: broadcastToRoom env S1 code
           (player_left (Player.id (deref (heap S) r)) (Some snap)) None
    ∧ getRoomState S1 code false = Some snap
    ∧ RoomSnapshot.players snap !! 0%nat = Some first
    ∧ PlayerView.isHost first = true
    ∧ PlayerView.id first = Player.id (deref (heap S) newHost)
    ∧ Player.isHost (deref (heap S1) newHost) = true
    ∧ rooms S1 !! code
      = Some (Room.set_players ((newHostWs, newHost) :: rest) room)
    ∧ players S1 !! ws = None
    ∧ (∀ r', (ws, r') ∉ (newHostWs, newHost) :: rest).
Proof.
  intros Hws Hroom Hhost Hrem Hlt code S1.
  assert (HS1 : S1 = {| rooms := <[code := Room.set_players
                                     ((newHostWs, newHost) :: rest) room]>
                                 (rooms S);
                        players := delete ws (players S);
                        sessionTokens := sessionTokens S;
                        heap := <[newHost := Player.set_isHost true
                                    (deref (heap S) newHost)]> (heap S) |}).
  { unfold S1. rewrite (on_close_registered env ws S r room) by done.
    by rewrite Hrem, Hhost. }
  assert (Hroom1 : rooms S1 !! code
                   = Some (Room.set_players ((newHostWs, newHost) :: rest)
                                            room)).
  { rewrite HS1. apply lookup_insert_eq. }
  assert (Hnew : deref (heap S1) newHost
                 = Player.set_isHost true (deref (heap S) newHost)).
  { rewrite HS1. cbn [heap]. rewrite deref_insert.
    by rewrite decide_True by (by split). }
  eexists. eexists. split; [|split; [by apply getRoomState_Some|]].
  - rewrite (on_close_out env ws S r room) by done. rewrite Hrem, Hhost.
    fold S1 code. by rewrite (getRoomState_Some S1 code _ false Hroom1).
  - cbn [RoomSnapshot.players Room.players Room.set_players map snd lookup
         list_lookup].
    split; [done|]. rewrite Hnew. repeat split; try done.
    + rewrite HS1. apply lookup_delete_eq.
    + intros r' Hin. rewrite <- Hrem in Hin.
      apply entries_delete_elem in Hin as [_ ?]. done.
Qed.

Lemma host_leaves_first_member_takes_over_witness :
  (on_close (env_of [] "-" "-") 0%nat (ann_bob voting (JStr (js "5")))).2
  !! 0%nat = Some (Send 1%nat became_host).
Proof.
  destruct (host_leaves_first_member_takes_over (env_of [] "-" "-") 0%nat
              (ann_bob voting (JStr (js "5"))) 0%nat
              (Room.mk voting [(0, 0); (1, 1)]%nat 0) 1%nat 1%nat [])
    as (snap & first & Hout & _);
    [reflexivity | reflexivity | reflexivity | reflexivity | cbn; lia |].
  by rewrite Hout.
Defined.

(** A disconnect always unregisters the connection and never touches
    the sessions.  For a connection that is no player nothing else
    happens; when the last member of a room leaves, the room is deleted
    and nobody is notified. *)
Theorem disconnect_cleans_up env ws S :
  players (on_close env ws S).1 !! ws = None
  ∧ sessionTokens (on_close env ws S).1 = sessionTokens S
  ∧ (players S !! ws = None → on_close env ws S = (S, []))
  ∧ ∀ r room,
      players S !! ws = Some r →
      rooms S !! Player.roomCode (deref (heap S) r) = Some room →
      entries_delete ws (Room.players room) = [] →
      (on_close env ws S).2 = []
      ∧ rooms (on_close env ws S).1
        = delete (Player.roomCode (deref (heap S) r)) (rooms S)
      ∧ heap (on_close env ws S).1 = heap S.
Proof.
  split; [|split; [|split]].
  - unfold on_close. repeat case_match; simplify_eq; cbn [fst]; srv;
      by rewrite ?lookup_delete_eq.
  - unfold on_close. repeat case_match; simplify_eq; by cbn [fst].
  - apply on_close_unregistered.
  - intros r room Hws Hroom Hlast.
    rewrite (on_close_out env ws S r room),
      (on_close_registered env ws S r room) by done.
    by rewrite Hlast.
Qed.

Lemma disconnect_cleans_up_witness :
  rooms (on_close (env_of [] "-" "-") 0%nat
           (mkServer {[ js "AAAA" := Room.mk waiting [(0, 0)%nat] 0 ]}
                     {[ 0%nat := 0%nat ]} ∅ [ann])).1
  = ∅.
Proof.
  destruct (disconnect_cleans_up (env_of [] "-" "-") 0%nat
              (mkServer {[ js "AAAA" := Room.mk waiting [(0, 0)%nat] 0 ]}
                        {[ 0%nat := 0%nat ]} ∅ [ann]))
    as (_ & _ & _ & H).
  destruct (H 0%nat (Room.mk waiting [(0, 0)%nat] 0)) as (_ & -> & _);
    [reflexivity | reflexivity | reflexivity |].
  reflexivity.
Defined.
